(** * A shallow embedding of the skip-list engine [sl_impl]

    Source: [include/internal/sl_impl.hpp].

    Nodes live on a heap addressed by natural numbers; a [node_type*] is an
    [option addr] with [None] for [nullptr].  Every operation runs in the
    [option] monad: [None] stands for a failed [assert], a dereference of a
    null or freed pointer, an out-of-bounds access to [m_next], or a pointer
    chase that never ends.  The outcomes of [rand()] and of [operator new]
    are explicit arguments of [insert]. *)

From stdpp Require Import base option list sorting gmap strings.
From Stdlib Require Import ZArith Lia.

Open Scope Z_scope.
Open Scope nat_scope.

(** ** Data model *)

Definition addr := nat.

(** [static inline level_type max_levels = 5] *)
Definition max_levels : nat := 5.

(** [size_t] arithmetic on [m_size] wraps modulo [2^64]. *)
Definition size_modulus : Z := 2 ^ 64.

Section Node.
Context {T : Type}.

(** [sl_node<T>]: [m_next] is the array [node_type*[m_level + 1]]. *)
Record sl_node := Node {
  m_value : T;
  m_level : nat;
  m_prev : option addr;
  m_next : list (option addr)
}.

(** [sl_node(value, level)]: no predecessor, [level + 1] null links. *)
Definition new_node (value : T) (level : nat) : sl_node :=
  Node value level None (replicate (S level) None).

(** [sl_impl<T, Compare, Allocator>]; [m_heap] is the free store. *)
Record sl_impl := Impl {
  m_heap : gmap addr sl_node;
  m_levels : nat;
  m_size : Z;
  m_head : addr;
  m_tail : addr
}.

(** *** Reading and writing node fields through a pointer *)

Definition get_value (h : gmap addr sl_node) (a : addr) : option T :=
  m_value <$> h !! a.

Definition get_level (h : gmap addr sl_node) (a : addr) : option nat :=
  m_level <$> h !! a.

Definition get_prev (h : gmap addr sl_node) (a : addr) : option (option addr) :=
  m_prev <$> h !! a.

(** [a->m_next[level]]; reading past the array is undefined. *)
Definition get_next (h : gmap addr sl_node) (a : addr) (level : nat)
  : option (option addr) :=
  nd ← h !! a; m_next nd !! level.

(** [a->m_next[level] = q] *)
Definition set_next (h : gmap addr sl_node) (a : addr) (level : nat)
    (q : option addr) : option (gmap addr sl_node) :=
  nd ← h !! a;
  if decide (level < length (m_next nd))
  then Some (<[a := Node (m_value nd) (m_level nd) (m_prev nd)
                        (<[level := q]> (m_next nd))]> h)
  else None.

(** [a->m_prev = q] *)
Definition set_prev (h : gmap addr sl_node) (a : addr) (q : option addr)
  : option (gmap addr sl_node) :=
  nd ← h !! a;
  Some (<[a := Node (m_value nd) (m_level nd) q (m_next nd)]> h).

(** [assert(P)] *)
Definition assert (P : Prop) `{Decision P} : option unit :=
  if decide P then Some tt else None.
End Node.

Arguments sl_node : clear implicits.
Arguments sl_impl : clear implicits.

Section Engine.
Context {T : Type}.
(** The comparator [m_less], and [std::numeric_limits<T>::min()] and
    [max()], the values stored in the two sentinels. *)
Variable m_less : T → T → bool.
Variables T_min T_max : T.

Abbreviation heap := (gmap addr (sl_node T)).

Definition is_less_or_equal (lhs rhs : T) : bool := negb (m_less rhs lhs).
Definition is_equal (lhs rhs : T) : bool :=
  negb (m_less lhs rhs || m_less rhs lhs).

(** The other comparison helpers of the engine. *)
Definition is_less (lhs rhs : T) : bool := m_less lhs rhs.
Definition is_great (lhs rhs : T) : bool := m_less rhs lhs.
Definition is_great_or_equal (lhs rhs : T) : bool := negb (m_less lhs rhs).

(** *** Construction *)

(** The loop [for (i = 0; i <= max_levels; ++i)] of the constructor,
    [n] iterations left, at index [i]. *)
Fixpoint init_links (n i : nat) (hd tl : addr) (h : heap) : option heap :=
  match n with
  | 0 => Some h
  | S n' =>
      h1 ← set_next h hd i (Some tl);
      h2 ← set_next h1 tl i None;
      init_links n' (S i) hd tl h2
  end.

(** [sl_impl()]: [hd] and [tl] are the addresses [new] returns for the
    two sentinels. *)
Definition sl_init (hd tl : addr) : option (sl_impl T) :=
  _ ← assert (hd ≠ tl);
  let h0 := <[tl := new_node T_max max_levels]>
            (<[hd := new_node T_min max_levels]> ∅) in
  h1 ← init_links (S max_levels) 0 hd tl h0;
  h2 ← set_prev h1 hd None;
  h3 ← set_prev h2 tl (Some hd);
  Some (Impl h3 max_levels 0%Z hd tl).

Definition size (s : sl_impl T) : Z := m_size s.
Definition front (s : sl_impl T) : option (option addr) :=
  get_next (m_heap s) (m_head s) 0.
Definition back (s : sl_impl T) : option (option addr) :=
  get_prev (m_heap s) (m_tail s).

(** *** find *)

(** The [while] loop of [find] at one level.  [fuel] bounds the number of
    iterations; the callers pass the number of allocated nodes, which a
    loop that ever ends cannot exceed. *)
Fixpoint find_scan (fuel : nat) (h : heap) (tl : addr) (level : nat)
    (value : T) (curr : addr) : option addr :=
  match fuel with
  | 0 => None
  | S fuel' =>
      nx ← get_next h curr level;
      if decide (nx = Some tl) then Some curr else
      cv ← get_value h curr;
      if is_equal cv value then Some curr else
      nxa ← nx;
      nv ← get_value h nxa;
      if is_less_or_equal nv value
      then find_scan fuel' h tl level value nxa
      else Some curr
  end.

(** [for (level = m_levels + 1; level > 0; ) { --level; ... }] with [n]
    the value of [level] at the loop test. *)
Fixpoint find_loop (n : nat) (fuel : nat) (h : heap) (tl : addr)
    (value : T) (curr : addr) : option addr :=
  match n with
  | 0 => Some curr
  | S level =>
      curr' ← find_scan fuel h tl level value curr;
      find_loop level fuel h tl value curr'
  end.

Definition find (s : sl_impl T) (value : T) : option addr :=
  find_loop (S (m_levels s)) (S (base.size (m_heap s))) (m_heap s) (m_tail s)
    value (m_head s).

Definition find_first (s : sl_impl T) (value : T) : option (option addr) :=
  node ← find s value;
  nv ← get_value (m_heap s) node;
  if is_equal nv value then Some (Some node)
  else get_next (m_heap s) node 0.

(** *** Leveling policy *)

(** [coin k] is the outcome of the [k]-th call of [toss_a_coin()].  The
    loop [while (level < max_levels && toss_a_coin()) ++level] runs fewer
    than [max_levels] times, so [max_levels] is fuel enough. *)
Fixpoint random_level_loop (fuel : nat) (coin : nat → bool)
    (tosses level : nat) : nat :=
  match fuel with
  | 0 => level
  | S fuel' =>
      if (level <? max_levels) && coin tosses
      then random_level_loop fuel' coin (S tosses) (S level)
      else level
  end.

Definition random_level (coin : nat → bool) : nat :=
  random_level_loop max_levels coin 0 1.

(** [toss_a_coin()], with [r] the number [rand()] returns: [r % 2 == 0],
    where [%] on [int] truncates towards zero. *)
Definition toss_a_coin (r : Z) : bool := (Z.rem r 2 =? 0)%Z.

(** *** insert *)

(** The inner [while] of [insert] at one level. *)
Fixpoint insert_scan (fuel : nat) (h : heap) (tl : addr) (level : nat)
    (value : T) (curr : addr) : option addr :=
  match fuel with
  | 0 => None
  | S fuel' =>
      nx ← get_next h curr level;
      if decide (nx = Some tl) then Some curr else
      nxa ← nx;
      nv ← get_value h nxa;
      if m_less nv value then
        lv ← get_level h nxa;
        _ ← assert (level ≤ lv);
        insert_scan fuel' h tl level value nxa
      else Some curr
  end.

(** The [do { --level; ... } while (level != 0)] loop; [level] is the
    value after the decrement. *)
Fixpoint insert_loop (fuel : nat) (tl : addr) (value : T) (new : addr)
    (node_level : nat) (level : nat) (h : heap) (curr : addr)
  : option (heap * addr) :=
  curr' ← insert_scan fuel h tl level value curr;
  h' ← (if decide (level ≤ node_level) then
          nx ← get_next h curr' level;
          _ ← assert (nx ≠ None);
          h1 ← set_next h new level nx;
          set_next h1 curr' level (Some new)
        else Some h);
  match level with
  | 0 => Some (h', curr')
  | S level' => insert_loop fuel tl value new node_level level' h' curr'
  end.

(** [insert(value, hint)]: [coin] gives the coin tosses of this call and
    [p] is the address [new] returns, which is not in use. *)
Definition insert (s : sl_impl T) (value : T) (hint : option addr)
    (coin : nat → bool) (p : addr) : option (sl_impl T * addr) :=
  let node_level := random_level coin in
  _ ← assert (m_heap s !! p = None);
  let h0 := <[p := new_node value node_level]> (m_heap s) in
  let curr := default (m_head s) hint in
  lv ← get_level h0 curr;
  '(h1, curr') ← insert_loop (S (base.size h0)) (m_tail s) value p node_level
                   lv h0 curr;
  nx ← get_next h1 curr' 0;
  _ ← assert (nx ≠ None);
  h2 ← set_prev h1 p (Some curr');
  nn ← get_next h2 p 0;
  nna ← nn;
  h3 ← set_prev h2 nna (Some p);
  Some (Impl h3 (m_levels s) ((m_size s + 1) mod size_modulus)
             (m_head s) (m_tail s), p).

(** *** remove *)

(** The inner [while] of [remove]; [value] is [node->m_value], which no
    store of the loop changes. *)
Fixpoint remove_scan (fuel : nat) (h : heap) (tl : addr) (level : nat)
    (value : T) (curr : addr) : option addr :=
  match fuel with
  | 0 => None
  | S fuel' =>
      nx ← get_next h curr level;
      if decide (nx = Some tl) then Some curr else
      nxa ← nx;
      nv ← get_value h nxa;
      if m_less nv value
      then remove_scan fuel' h tl level value nxa
      else Some curr
  end.

Fixpoint remove_loop (n : nat) (fuel : nat) (tl : addr) (node : addr)
    (h : heap) (curr : addr) : option heap :=
  match n with
  | 0 => Some h
  | S level =>
      lv ← get_level h curr;
      _ ← assert (level ≤ lv);
      value ← get_value h node;
      curr' ← remove_scan fuel h tl level value curr;
      nx ← get_next h curr' level;
      h' ← (if decide (nx = Some node) then
              nn ← get_next h node level;
              set_next h curr' level nn
            else Some h);
      remove_loop level fuel tl node h' curr'
  end.

Definition remove (s : sl_impl T) (node : option addr)
  : option (sl_impl T) :=
  nd ← node;
  nx ← get_next (m_heap s) nd 0;
  _ ← assert (nx ≠ None);
  _ ← assert (m_head s ≠ nd);
  _ ← assert (m_tail s ≠ nd);
  nxa ← nx;
  pv ← get_prev (m_heap s) nd;
  h1 ← set_prev (m_heap s) nxa pv;
  h2 ← remove_loop (S (m_levels s)) (S (base.size h1)) (m_tail s) nd h1
         (m_head s);
  _ ← h2 !! nd;
  Some (Impl (delete nd h2) (m_levels s)
             ((m_size s - 1) mod size_modulus) (m_head s) (m_tail s)).

(** *** remove_all *)

(** [while (node != m_tail) { next = node->m_next[0]; delete node; ... }] *)
Fixpoint free_chain (fuel : nat) (h : heap) (tl : addr)
    (node : option addr) : option heap :=
  match fuel with
  | 0 => None
  | S fuel' =>
      if decide (node = Some tl) then Some h else
      nd ← node;
      next ← get_next h nd 0;
      free_chain fuel' (delete nd h) tl next
  end.

(** [for (level = 0; level < m_levels + 1; ++level)], [n] iterations
    left. *)
Fixpoint reset_head (n level : nat) (hd tl : addr) (h : heap)
  : option heap :=
  match n with
  | 0 => Some h
  | S n' =>
      h' ← set_next h hd level (Some tl);
      reset_head n' (S level) hd tl h'
  end.

Definition remove_all (s : sl_impl T) : option (sl_impl T) :=
  node ← get_next (m_heap s) (m_head s) 0;
  h1 ← free_chain (S (base.size (m_heap s))) (m_heap s) (m_tail s) node;
  h2 ← reset_head (S (m_levels s)) 0 (m_head s) (m_tail s) h1;
  h3 ← set_prev h2 (m_tail s) (Some (m_head s));
  Some (Impl h3 (m_levels s) 0%Z (m_head s) (m_tail s)).

(** [~sl_impl()]: [remove_all()], then [delete m_head] and
    [delete m_tail]; the result is what is left of the free store. *)
Definition sl_destroy (s : sl_impl T) : option heap :=
  s' ← remove_all s;
  _ ← m_heap s' !! m_head s';
  let h1 := delete (m_head s') (m_heap s') in
  _ ← h1 !! m_tail s';
  Some (delete (m_tail s') h1).

(** *** Traversal *)

(** [for (it = begin; it != end; ++it)] from [node], collecting the
    nodes visited; [end] is the tail sentinel. *)
Fixpoint forward_from (fuel : nat) (h : heap) (tl : addr)
    (node : option addr) : option (list addr) :=
  match fuel with
  | 0 => None
  | S fuel' =>
      if decide (node = Some tl) then Some [] else
      nd ← node;
      next ← get_next h nd 0;
      rest ← forward_from fuel' h tl next;
      Some (nd :: rest)
  end.

(** The same with [--it], from [back()] down to the head sentinel. *)
Fixpoint backward_from (fuel : nat) (h : heap) (hd : addr)
    (node : option addr) : option (list addr) :=
  match fuel with
  | 0 => None
  | S fuel' =>
      if decide (node = Some hd) then Some [] else
      nd ← node;
      prev ← get_prev h nd;
      rest ← backward_from fuel' h hd prev;
      Some (nd :: rest)
  end.

Definition values_of (h : heap) (l : list addr) : option (list T) :=
  mapM (get_value h) l.

Definition forward (s : sl_impl T) : option (list addr) :=
  node ← front s;
  forward_from (S (base.size (m_heap s))) (m_heap s) (m_tail s) node.

Definition backward (s : sl_impl T) : option (list addr) :=
  node ← back s;
  backward_from (S (base.size (m_heap s))) (m_heap s) (m_head s) node.

(** *** Iterators

    [sl_iterator] and [sl_const_iterator] hold one node pointer, [m_node],
    and have the same operators. *)

(** [operator++()] and [operator--()]: the new [m_node]. *)
Definition iter_incr (h : heap) (it : option addr) : option (option addr) :=
  nd ← it; get_next h nd 0.

Definition iter_decr (h : heap) (it : option addr) : option (option addr) :=
  nd ← it; get_prev h nd.

(** [operator++(int)] and [operator--(int)]: the copy that is returned and
    the new [m_node]. *)
Definition iter_post_incr (h : heap) (it : option addr)
  : option (option addr * option addr) :=
  it' ← iter_incr h it; Some (it, it').

Definition iter_post_decr (h : heap) (it : option addr)
  : option (option addr * option addr) :=
  it' ← iter_decr h it; Some (it, it').

(** [operator*()] *)
Definition iter_deref (h : heap) (it : option addr) : option T :=
  nd ← it; get_value h nd.

(** [operator==] and [operator!=] *)
Definition iter_eq (a b : option addr) : bool := bool_decide (a = b).
Definition iter_ne (a b : option addr) : bool := negb (iter_eq a b).

(** *** dump *)

(** What [dump()] sends to [std::cout], one item for each [<<]: a string
    literal, a level, a value of type [T], or [std::endl]. *)
Inductive dump_item :=
| dump_text (t : string)
| dump_level (level : nat)
| dump_value (v : T)
| dump_endl.

(** The [while (curr != m_tail)] loop of [dump()] at one level. *)
Fixpoint dump_chain (fuel : nat) (h : heap) (tl : addr) (level : nat)
    (curr : option addr) : option (list dump_item) :=
  match fuel with
  | 0 => None
  | S fuel' =>
      if decide (curr = Some tl) then Some [] else
      nd ← curr;
      v ← get_value h nd;
      pv ← get_prev h nd;
      pva ← pv;
      pvv ← get_value h pva;
      next ← get_next h nd level;
      rest ← dump_chain fuel' h tl level next;
      Some ([dump_value v; dump_text "("; dump_value pvv; dump_text ") -> "]
              ++ rest)
  end.

(** One round of the [for] loop of [dump()]. *)
Definition dump_line (s : sl_impl T) (level : nat)
  : option (list dump_item) :=
  curr ← get_next (m_heap s) (m_head s) level;
  hv ← get_value (m_heap s) (m_head s);
  body ← dump_chain (S (base.size (m_heap s))) (m_heap s) (m_tail s) level
            curr;
  tv ← get_value (m_heap s) (m_tail s);
  tp ← get_prev (m_heap s) (m_tail s);
  tpa ← tp;
  tpv ← get_value (m_heap s) tpa;
  Some ([dump_text "L"; dump_level level; dump_text ": ";
         dump_value hv; dump_text " -> "]
          ++ body
          ++ [dump_value tv; dump_text "("; dump_value tpv; dump_text ")";
              dump_endl]).

(** [for (level = 0; level <= m_levels; ++level)], [n] rounds left. *)
Fixpoint dump_loop (n level : nat) (s : sl_impl T)
  : option (list dump_item) :=
  match n with
  | 0 => Some []
  | S n' =>
      line ← dump_line s level;
      rest ← dump_loop n' (S level) s;
      Some (line ++ rest)
  end.

Definition dump (s : sl_impl T) : option (list dump_item) :=
  dump_loop (S (m_levels s)) 0 s.

End Engine.

Arguments dump_item : clear implicits.

(** ** Specification vocabulary *)

Section Specification.
Context {T : Type}.
Variable m_less : T → T → bool.
Variable T_min : T.

Abbreviation heap := (gmap addr (sl_node T)).

(** What C++ asks of a [Compare]: irreflexive, transitive, and with a
    transitive equivalence [is_equal]. *)
Record strict_weak_order : Prop := {
  swo_irrefl : ∀ x, m_less x x = false;
  swo_trans : ∀ x y z, m_less x y = true → m_less y z = true → m_less x z = true;
  swo_equiv_trans : ∀ x y z,
    is_equal m_less x y = true → is_equal m_less y z = true →
    is_equal m_less x z = true
}.

(** [lseg h tl L x l]: following level-[L] forward links from [x] visits
    exactly the nodes of [l] in order, each paired with the value it holds;
    none of them is the tail and each has a level of at least [L]. *)
Fixpoint lseg (h : heap) (tl : addr) (L : nat) (x : addr)
    (l : list (addr * T)) : Prop :=
  match l with
  | [] => True
  | (y, v) :: l' =>
      get_next h x L = Some (Some y) ∧ y ≠ tl ∧
      get_value h y = Some v ∧
      (∃ k, get_level h y = Some k ∧ L ≤ k) ∧
      lseg h tl L y l'
  end.

Definition last_addr (x : addr) (l : list (addr * T)) : addr :=
  default x (last l.*1).

(** The level-[L] chain from [x] to the tail. *)
Definition chain (h : heap) (tl : addr) (L : nat) (x : addr)
    (l : list (addr * T)) : Prop :=
  lseg h tl L x l ∧ get_next h (last_addr x l) L = Some (Some tl).

(** Every [m_prev] along [l] points at the node before. *)
Fixpoint back_seg (h : heap) (x : addr) (l : list (addr * T)) : Prop :=
  match l with
  | [] => True
  | (y, _) :: l' => get_prev h y = Some (Some x) ∧ back_seg h y l'
  end.

(** The first node of [l], if any, does not hold a value below [v]. *)
Definition head_not_less (v : T) (l : list (addr * T)) : Prop :=
  match l with [] => True | p :: _ => m_less p.2 v = false end.

(** Sorted insertion in front of the first element that is not below the
    new value: what [insert] does to every chain the new node joins. *)
Fixpoint insert_before (p : addr * T) (l : list (addr * T))
  : list (addr * T) :=
  match l with
  | [] => [p]
  | q :: l' =>
      if m_less q.2 p.2 then q :: insert_before p l' else p :: q :: l'
  end.

(** Dropping the node at address [n] from a chain. *)
Fixpoint remove_addr (n : addr) (l : list (addr * T)) : list (addr * T) :=
  match l with
  | [] => []
  | q :: l' =>
      if decide (q.1 = n) then remove_addr n l' else q :: remove_addr n l'
  end.

(** The first node of [l], if any, holds a value above [v]. *)
Definition head_greater (v : T) (l : list (addr * T)) : Prop :=
  match l with [] => True | p :: _ => m_less v p.2 = true end.

Definition non_decreasing (l : list T) : Prop :=
  StronglySorted (λ x y, m_less y x = false) l.

(** The representation invariant: [c L] is the level-[L] chain. *)
Record repr (s : sl_impl T) (c : nat → list (addr * T)) : Prop := {
  repr_levels : m_levels s = max_levels;
  repr_ends : m_head s ≠ m_tail s;
  repr_head_value : get_value (m_heap s) (m_head s) = Some T_min;
  repr_head_level : get_level (m_heap s) (m_head s) = Some max_levels;
  repr_tail_level : get_level (m_heap s) (m_tail s) = Some max_levels;
  repr_chain : ∀ L, L ≤ max_levels →
    chain (m_heap s) (m_tail s) L (m_head s) (c L);
  repr_nodup : ∀ L, L ≤ max_levels → NoDup (m_head s :: (c L).*1);
  repr_sorted : ∀ L, L ≤ max_levels → non_decreasing (c L).*2;
  repr_mem : ∀ L a, L ≤ max_levels →
    a ∈ (c L).*1 ↔
    a ≠ m_head s ∧ a ≠ m_tail s ∧
    ∃ k, get_level (m_heap s) a = Some k ∧ L ≤ k;
  repr_node_level : ∀ a k, a ≠ m_head s → a ≠ m_tail s →
    get_level (m_heap s) a = Some k → 1 ≤ k ≤ max_levels;
  repr_back : back_seg (m_heap s) (m_head s) (c 0);
  repr_back_tail :
    get_prev (m_heap s) (m_tail s) = Some (Some (last_addr (m_head s) (c 0)));
  repr_size : m_size s = Z.modulo (Z.of_nat (length (c 0))) size_modulus
}.

Definition well_formed (s : sl_impl T) : Prop := ∃ c, repr s c.

(** [r] is the floor of [v] on the bottom chain [c0]: the head sentinel
    when every stored value is above [v], and otherwise a stored node whose
    value is not above [v] and not below any stored value that is not
    above [v]. *)
Definition is_floor (c0 : list (addr * T)) (hd : addr) (v : T) (r : addr)
  : Prop :=
  (r = hd ∧ Forall (λ p, m_less v p.2 = true) c0) ∨
  (∃ w, (r, w) ∈ c0 ∧ m_less v w = false ∧
     Forall (λ p, m_less v p.2 = false → m_less w p.2 = false) c0).

(** [r] is a lower bound of [v] on the bottom chain [c0]: a stored node
    equal to [v], or the first stored node above [v] with everything before
    it below [v], or the tail sentinel when every stored value is below
    [v]. *)
Definition is_lower_bound (c0 : list (addr * T)) (tl : addr) (v : T)
    (r : addr) : Prop :=
  (∃ w, (r, w) ∈ c0 ∧ is_equal m_less w v = true) ∨
  (∃ l1 w l2, c0 = l1 ++ (r, w) :: l2 ∧
     Forall (λ p, m_less p.2 v = true) l1 ∧ m_less v w = true) ∨
  (r = tl ∧ Forall (λ p, m_less p.2 v = true) c0).

(** On every chain it is on, the node [n] holding [v] comes after nodes
    holding less than [v] only. *)
Definition leads_equals (c : nat → list (addr * T)) (n : addr) (v : T)
  : Prop :=
  ∀ L l1 l2, L ≤ max_levels → c L = l1 ++ (n, v) :: l2 →
    Forall (λ q, m_less q.2 v = true) l1.

(** The same, read off the heap: on the chain of every level, the nodes
    before [n] hold less than [n] does. *)
Definition no_equal_predecessor (s : sl_impl T) (n : addr) : Prop :=
  ∀ L l1 l2 v, L ≤ max_levels →
    chain (m_heap s) (m_tail s) L (m_head s) (l1 ++ (n, v) :: l2) →
    Forall (λ q, m_less q.2 v = true) l1.

(** Every level's chain runs from the head to the tail in non-decreasing
    order and holds every stored node of at least that level. *)
Definition chains_sorted_complete (s : sl_impl T) : Prop :=
  ∀ L, L ≤ max_levels →
    ∃ l, chain (m_heap s) (m_tail s) L (m_head s) l ∧
      non_decreasing l.*2 ∧
      ∀ a k, a ≠ m_head s → a ≠ m_tail s →
        get_level (m_heap s) a = Some k → L ≤ k → a ∈ l.*1.

(** The sortedness invariant of an engine state: the fields the constructor
    sets are as it sets them, and every level's chain is sorted and
    complete. *)
Definition sorted_invariant (s : sl_impl T) : Prop :=
  m_levels s = max_levels ∧ m_head s ≠ m_tail s ∧
  get_value (m_heap s) (m_head s) = Some T_min ∧
  chains_sorted_complete s.

(** The value in front of the node [y] on the bottom chain [c0], with [pv]
    the value in front of the chain; when [y] is not on the chain, the
    last value. *)
Fixpoint prev_value (pv : T) (c0 : list (addr * T)) (y : addr) : T :=
  match c0 with
  | [] => pv
  | q :: c0' => if decide (q.1 = y) then pv else prev_value q.2 c0' y
  end.

(** The line [dump()] is to print for a level whose chain is [l], with
    [c0] the bottom chain and [tv] the value in the tail sentinel. *)
Definition dump_line_of (c0 : list (addr * T)) (tl : addr) (tv : T)
    (level : nat) (l : list (addr * T)) : list (dump_item T) :=
  [dump_text "L"; dump_level level; dump_text ": ";
   dump_value T_min; dump_text " -> "]
    ++ (l ≫= λ q, [dump_value q.2; dump_text "(";
                   dump_value (prev_value T_min c0 q.1); dump_text ") -> "])
    ++ [dump_value tv; dump_text "("; dump_value (prev_value T_min c0 tl);
        dump_text ")"; dump_endl].

(** No stored node other than [n] holds a value equal to [v]. *)
Definition unique_value (c0 : list (addr * T)) (n : addr) (v : T) : Prop :=
  ∀ q, q ∈ c0 → q.1 ≠ n → is_equal m_less q.2 v = false.

Variable T_max : T.

(** The links around the sentinels: the tail has no successor on any of
    its [max_levels + 1] levels, and no forward link leads to the head. *)
Definition closed_links (h : heap) (hd tl : addr) : Prop :=
  (∀ L, get_next h tl L
          = if decide (L ≤ max_levels) then Some None else None) ∧
  (∀ a L, get_next h a L ≠ Some (Some hd)).

(** The sentinels are as the constructor made them, up to the links into
    the list: they hold the two limits and have [max_levels] levels, the
    head has no predecessor, the tail has no successor, and no forward
    link leads to the head. *)
Definition sentinels_intact (s : sl_impl T) : Prop :=
  m_levels s = max_levels ∧ m_head s ≠ m_tail s ∧
  get_value (m_heap s) (m_head s) = Some T_min ∧
  get_value (m_heap s) (m_tail s) = Some T_max ∧
  get_level (m_heap s) (m_head s) = Some max_levels ∧
  get_level (m_heap s) (m_tail s) = Some max_levels ∧
  get_prev (m_heap s) (m_head s) = Some None ∧
  closed_links (m_heap s) (m_head s) (m_tail s).

(** States a caller can reach through [insert] (with any hint), [remove]
    and [remove_all]. *)
Inductive api_reachable : sl_impl T → Prop :=
| api_init hd tl s :
    sl_init T_min T_max hd tl = Some s → api_reachable s
| api_insert s v hint coin p s' n :
    api_reachable s → insert m_less s v hint coin p = Some (s', n) →
    api_reachable s'
| api_remove s n s' :
    api_reachable s → remove m_less s (Some n) = Some s' → api_reachable s'
| api_remove_all s s' :
    api_reachable s → remove_all s = Some s' → api_reachable s'.

(** States reached through [insert] without a hint, [remove] of a node
    that no equal node precedes, and [remove_all]. *)
Inductive reachable : sl_impl T → Prop :=
| reach_init hd tl s :
    sl_init T_min T_max hd tl = Some s → reachable s
| reach_insert s v coin p s' n :
    reachable s → insert m_less s v None coin p = Some (s', n) →
    reachable s'
| reach_remove s n s' :
    reachable s → no_equal_predecessor s n →
    remove m_less s (Some n) = Some s' → reachable s'
| reach_remove_all s s' :
    reachable s → remove_all s = Some s' → reachable s'.

(** States reached through [insert] without a hint alone. *)
Inductive grown : sl_impl T → Prop :=
| grown_init hd tl s :
    sl_init T_min T_max hd tl = Some s → grown s
| grown_insert s v coin p s' n :
    grown s → insert m_less s v None coin p = Some (s', n) → grown s'.

(** The nodes holding [v] that the calls [insert(v)] of [cps] put on level
    [L], in the order of the calls. *)
Fixpoint joined (L : nat) (v : T) (cps : list ((nat → bool) * addr))
  : list (addr * T) :=
  match cps with
  | [] => []
  | (coin, p) :: cps' =>
      if decide (L ≤ random_level coin) then (p, v) :: joined L v cps'
      else joined L v cps'
  end.

(** [insert(v)] once for every [(coin, p)] of the list, in order. *)
Fixpoint insert_all (s : sl_impl T) (v : T) (cps : list ((nat → bool) * addr))
  : option (sl_impl T) :=
  match cps with
  | [] => Some s
  | (coin, p) :: cps' =>
      '(s', _) ← insert m_less s v None coin p; insert_all s' v cps'
  end.

(** [insert(v)] without a hint for every [(v, coin, p)] of the list, in
    order. *)
Fixpoint insert_each (s : sl_impl T) (ops : list (T * (nat → bool) * addr))
  : option (sl_impl T) :=
  match ops with
  | [] => Some s
  | (v, coin, p) :: ops' =>
      '(s', _) ← insert m_less s v None coin p; insert_each s' ops'
  end.

End Specification.

(** ** The engine at [int] with [std::less<int>] *)

Module IntEngine.

Definition int_min : Z := (-2147483648)%Z.
Definition int_max : Z := 2147483647%Z.

(** Coin tosses that give a node of level 1, and of level 2. *)
Definition stay (_ : nat) : bool := false.
Definition once (k : nat) : bool := k <? 1.

(** A comparator that tells integers apart by their halves only. *)
Definition half_less (x y : Z) : bool := (x / 2 <? y / 2)%Z.

Definition head_node (next : list (option addr)) : sl_node Z :=
  Node int_min 5 None next.
Definition tail_node (prev : addr) : sl_node Z :=
  Node int_max 5 (Some prev) (replicate 6 None).
Definition state (nodes : list (addr * sl_node Z)) (sz : Z) : sl_impl Z :=
  Impl (list_to_map nodes) 5 sz 0 1.

(** A fresh engine: the head at address 0, the tail at address 1. *)
Definition empty : sl_impl Z :=
  state [(0, head_node (replicate 6 (Some 1))); (1, tail_node 0)] 0.

(** After [insert(5)] at address 2. *)
Definition one_five : sl_impl Z :=
  state [(0, head_node [Some 2; Some 2; Some 1; Some 1; Some 1; Some 1]);
         (1, tail_node 2);
         (2, Node 5%Z 1 (Some 0) [Some 1; Some 1])] 1.

(** After a second [insert(5)] at address 3. *)
Definition two_fives : sl_impl Z :=
  state [(0, head_node [Some 3; Some 3; Some 1; Some 1; Some 1; Some 1]);
         (1, tail_node 2);
         (2, Node 5%Z 1 (Some 3) [Some 1; Some 1]);
         (3, Node 5%Z 1 (Some 0) [Some 2; Some 2])] 2.

(** After [remove] of the node at address 2, the first one inserted. *)
Definition after_remove : sl_impl Z :=
  state [(0, head_node [Some 3; Some 3; Some 1; Some 1; Some 1; Some 1]);
         (1, tail_node 3);
         (3, Node 5%Z 1 (Some 0) [Some 2; Some 2])] 1.

(** [one_five] after [insert(7, hint)] with the node at 2 as the hint and
    a new node of level 2 at address 3. *)
Definition hinted : sl_impl Z :=
  state [(0, head_node [Some 2; Some 2; Some 1; Some 1; Some 1; Some 1]);
         (1, tail_node 3);
         (2, Node 5%Z 1 (Some 0) [Some 3; Some 3]);
         (3, Node 7%Z 2 (Some 2) [Some 1; Some 1; None])] 2.

(** [one_five] after [insert(5, hint)] with the node at 2 as the hint and
    a new node of level 1 at address 3. *)
Definition hinted_equal : sl_impl Z :=
  state [(0, head_node [Some 2; Some 2; Some 1; Some 1; Some 1; Some 1]);
         (1, tail_node 3);
         (2, Node 5%Z 1 (Some 0) [Some 3; Some 3]);
         (3, Node 5%Z 1 (Some 2) [Some 1; Some 1])] 2.

(** A fresh engine after [insert(INT_MIN)] at address 2. *)
Definition one_min : sl_impl Z :=
  state [(0, head_node [Some 2; Some 2; Some 1; Some 1; Some 1; Some 1]);
         (1, tail_node 2);
         (2, Node int_min 1 (Some 0) [Some 1; Some 1])] 1.

End IntEngine.

(** ** Heap lemmas *)

Section HeapFacts.
Context {T : Type}.
Implicit Types (h : gmap addr (sl_node T)) (a b : addr) (q : option addr).

Lemma set_next_is_Some h a L q :
  is_Some (get_next h a L) → is_Some (set_next h a L q).
Proof.
  unfold get_next, set_next. destruct (h !! a) as [nd|]; simpl; [|by intros [??]].
  intros [x Hx]. apply lookup_lt_Some in Hx. by rewrite decide_True.
Qed.

Lemma set_next_inv h a L q h' :
  set_next h a L q = Some h' →
  ∃ nd, h !! a = Some nd ∧ L < length (m_next nd) ∧
    h' = <[a := Node (m_value nd) (m_level nd) (m_prev nd)
                     (<[L := q]> (m_next nd))]> h.
Proof.
  unfold set_next. destruct (h !! a) as [nd|]; simpl; [|done].
  case_decide; [|done]. intros [= <-]. eauto.
Qed.

Lemma get_next_set_next h a L q h' b K :
  set_next h a L q = Some h' →
  get_next h' b K = if decide (b = a ∧ K = L) then Some q else get_next h b K.
Proof.
  intros (nd & Ha & Hlen & ->)%set_next_inv. unfold get_next.
  destruct (decide (b = a)) as [->|Hne].
  - rewrite lookup_insert_eq, Ha. simpl.
    destruct (decide (K = L)) as [->|HK]; case_decide as Hd.
    + by apply list_lookup_insert_eq.
    + by destruct Hd.
    + by destruct Hd.
    + by apply list_lookup_insert_ne.
  - rewrite lookup_insert_ne by done. case_decide as Hd; [by destruct Hd|done].
Qed.

Lemma get_value_set_next h a L q h' b :
  set_next h a L q = Some h' → get_value h' b = get_value h b.
Proof.
  intros (nd & Ha & Hlen & ->)%set_next_inv. unfold get_value.
  destruct (decide (b = a)) as [->|Hne].
  - by rewrite lookup_insert_eq, Ha.
  - by rewrite lookup_insert_ne.
Qed.

Lemma get_level_set_next h a L q h' b :
  set_next h a L q = Some h' → get_level h' b = get_level h b.
Proof.
  intros (nd & Ha & Hlen & ->)%set_next_inv. unfold get_level.
  destruct (decide (b = a)) as [->|Hne].
  - by rewrite lookup_insert_eq, Ha.
  - by rewrite lookup_insert_ne.
Qed.

Lemma get_prev_set_next h a L q h' b :
  set_next h a L q = Some h' → get_prev h' b = get_prev h b.
Proof.
  intros (nd & Ha & Hlen & ->)%set_next_inv. unfold get_prev.
  destruct (decide (b = a)) as [->|Hne].
  - by rewrite lookup_insert_eq, Ha.
  - by rewrite lookup_insert_ne.
Qed.

Lemma size_set_next h a L q h' :
  set_next h a L q = Some h' → base.size h' = base.size h.
Proof.
  intros (nd & Ha & Hlen & ->)%set_next_inv.
  rewrite <-(insert_delete_id h a nd) at 2 by done.
  rewrite <-insert_delete_eq.
  rewrite !map_size_insert_None by apply lookup_delete_eq. done.
Qed.

Lemma set_prev_is_Some h a q :
  is_Some (get_value h a) → is_Some (set_prev h a q).
Proof.
  unfold get_value, set_prev. destruct (h !! a); simpl; [eauto|by intros [??]].
Qed.

Lemma set_prev_inv h a q h' :
  set_prev h a q = Some h' →
  ∃ nd, h !! a = Some nd ∧
    h' = <[a := Node (m_value nd) (m_level nd) q (m_next nd)]> h.
Proof.
  unfold set_prev. destruct (h !! a) as [nd|]; simpl; [|done].
  intros [= <-]. eauto.
Qed.

Lemma get_next_set_prev h a q h' b K :
  set_prev h a q = Some h' → get_next h' b K = get_next h b K.
Proof.
  intros (nd & Ha & ->)%set_prev_inv. unfold get_next.
  destruct (decide (b = a)) as [->|Hne].
  - by rewrite lookup_insert_eq, Ha.
  - by rewrite lookup_insert_ne.
Qed.

Lemma get_value_set_prev h a q h' b :
  set_prev h a q = Some h' → get_value h' b = get_value h b.
Proof.
  intros (nd & Ha & ->)%set_prev_inv. unfold get_value.
  destruct (decide (b = a)) as [->|Hne].
  - by rewrite lookup_insert_eq, Ha.
  - by rewrite lookup_insert_ne.
Qed.

Lemma get_level_set_prev h a q h' b :
  set_prev h a q = Some h' → get_level h' b = get_level h b.
Proof.
  intros (nd & Ha & ->)%set_prev_inv. unfold get_level.
  destruct (decide (b = a)) as [->|Hne].
  - by rewrite lookup_insert_eq, Ha.
  - by rewrite lookup_insert_ne.
Qed.

Lemma get_prev_set_prev h a q h' b :
  set_prev h a q = Some h' →
  get_prev h' b = if decide (b = a) then Some q else get_prev h b.
Proof.
  intros (nd & Ha & ->)%set_prev_inv. unfold get_prev.
  case_decide as Hb.
  - subst. by rewrite lookup_insert_eq.
  - by rewrite lookup_insert_ne.
Qed.

Lemma size_set_prev h a q h' :
  set_prev h a q = Some h' → base.size h' = base.size h.
Proof.
  intros (nd & Ha & ->)%set_prev_inv.
  rewrite <-(insert_delete_id h a nd) at 2 by done.
  rewrite <-insert_delete_eq.
  rewrite !map_size_insert_None by apply lookup_delete_eq. done.
Qed.

(** Allocation of a fresh node. *)
Lemma get_next_alloc h p (v : T) k b K :
  get_next (<[p := new_node v k]> h) b K =
  if decide (b = p) then (if decide (K ≤ k) then Some None else None)
  else get_next h b K.
Proof.
  unfold get_next. case_decide as Hb.
  - subst. rewrite lookup_insert_eq. unfold new_node. cbn [mbind option_bind m_next].
    case_decide.
    + apply lookup_replicate_2. lia.
    + apply lookup_ge_None_2. rewrite length_replicate. lia.
  - by rewrite lookup_insert_ne.
Qed.

Lemma get_value_alloc h p (v : T) k b :
  get_value (<[p := new_node v k]> h) b =
  if decide (b = p) then Some v else get_value h b.
Proof.
  unfold get_value. case_decide; subst.
  - by rewrite lookup_insert_eq.
  - by rewrite lookup_insert_ne.
Qed.

Lemma get_level_alloc h p (v : T) k b :
  get_level (<[p := new_node v k]> h) b =
  if decide (b = p) then Some k else get_level h b.
Proof.
  unfold get_level. case_decide; subst.
  - by rewrite lookup_insert_eq.
  - by rewrite lookup_insert_ne.
Qed.

Lemma get_prev_alloc h p (v : T) k b :
  get_prev (<[p := new_node v k]> h) b =
  if decide (b = p) then Some None else get_prev h b.
Proof.
  unfold get_prev. case_decide; subst.
  - by rewrite lookup_insert_eq.
  - by rewrite lookup_insert_ne.
Qed.

(** Deallocation. *)
Lemma get_next_delete h p b K :
  get_next (delete p h) b K = if decide (b = p) then None else get_next h b K.
Proof.
  unfold get_next. case_decide; subst.
  - by rewrite lookup_delete_eq.
  - by rewrite lookup_delete_ne.
Qed.

Lemma get_value_delete h p b :
  get_value (delete p h) b = if decide (b = p) then None else get_value h b.
Proof.
  unfold get_value. case_decide; subst.
  - by rewrite lookup_delete_eq.
  - by rewrite lookup_delete_ne.
Qed.

Lemma get_level_delete h p b :
  get_level (delete p h) b = if decide (b = p) then None else get_level h b.
Proof.
  unfold get_level. case_decide; subst.
  - by rewrite lookup_delete_eq.
  - by rewrite lookup_delete_ne.
Qed.

Lemma get_prev_delete h p b :
  get_prev (delete p h) b = if decide (b = p) then None else get_prev h b.
Proof.
  unfold get_prev. case_decide; subst.
  - by rewrite lookup_delete_eq.
  - by rewrite lookup_delete_ne.
Qed.

Lemma get_level_None h a : get_level h a = None ↔ h !! a = None.
Proof. unfold get_level. by rewrite fmap_None. Qed.

Lemma get_value_level h a :
  is_Some (get_value h a) ↔ is_Some (get_level h a).
Proof. unfold get_value, get_level. by rewrite !fmap_is_Some. Qed.

Lemma get_next_level h a L o :
  get_next h a L = Some o → is_Some (get_level h a).
Proof.
  unfold get_next, get_level. destruct (h !! a); simpl; [eauto|done].
Qed.

End HeapFacts.

(** ** Facts about the comparator *)

Section Order.
Context {T : Type} (m_less : T → T → bool).

Lemma is_equal_true x y :
  is_equal m_less x y = true ↔ m_less x y = false ∧ m_less y x = false.
Proof.
  unfold is_equal. destruct (m_less x y), (m_less y x); naive_solver.
Qed.

Hypothesis Hswo : strict_weak_order m_less.

Lemma less_asym x y : m_less x y = true → m_less y x = false.
Proof.
  intros Hxy. destruct (m_less y x) eqn:Hyx; [|done].
  pose proof (swo_trans _ Hswo _ _ _ Hxy Hyx) as Hxx.
  by rewrite (swo_irrefl _ Hswo) in Hxx.
Qed.

Lemma less_cotrans x y z :
  m_less x z = true → m_less x y = true ∨ m_less y z = true.
Proof.
  intros Hxz.
  destruct (m_less x y) eqn:Hxy; [by left|].
  destruct (m_less y z) eqn:Hyz; [by right|]. exfalso.
  destruct (m_less y x) eqn:Hyx.
  { pose proof (swo_trans _ Hswo _ _ _ Hyx Hxz). congruence. }
  destruct (m_less z y) eqn:Hzy.
  { pose proof (swo_trans _ Hswo _ _ _ Hxz Hzy). congruence. }
  assert (is_equal m_less x z = true) as He.
  { apply (swo_equiv_trans _ Hswo x y z); unfold is_equal.
    - by rewrite Hxy, Hyx.
    - by rewrite Hyz, Hzy. }
  unfold is_equal in He. by rewrite Hxz in He.
Qed.

(** [x < y ≤ z → x < z] *)
Lemma less_le_trans x y z :
  m_less x y = true → m_less z y = false → m_less x z = true.
Proof. intros Hxy Hzy. destruct (less_cotrans x z y Hxy); congruence. Qed.

(** [x ≤ y < z → x < z] *)
Lemma le_less_trans x y z :
  m_less y x = false → m_less y z = true → m_less x z = true.
Proof. intros Hyx Hyz. destruct (less_cotrans y x z Hyz); congruence. Qed.

(** [x ≤ y ≤ z → x ≤ z] *)
Lemma le_trans x y z :
  m_less y x = false → m_less z y = false → m_less z x = false.
Proof.
  intros Hyx Hzy. destruct (m_less z x) eqn:Hzx; [|done].
  destruct (less_cotrans z y x Hzx); congruence.
Qed.

(** In a sorted list everything before an element below [v] is below [v],
    and everything after an element not below [v] is not below [v]. *)
Lemma sorted_prefix_less (l1 l2 : list T) w v :
  non_decreasing m_less (l1 ++ w :: l2) → m_less w v = true →
  Forall (λ x, m_less x v = true) l1.
Proof.
  intros Hs Hw. apply Forall_forall. intros x Hx.
  induction l1 as [|y l1 IH]; [by apply elem_of_nil in Hx|].
  simpl in Hs. apply StronglySorted_inv in Hs as [Hs Hall].
  apply elem_of_cons in Hx as [->|Hx]; [|by apply IH].
  rewrite Forall_app, Forall_cons in Hall. destruct Hall as (_ & Hyw & _).
  by apply (le_less_trans _ w).
Qed.

Lemma sorted_suffix_ge (l1 l2 : list T) w v :
  non_decreasing m_less (l1 ++ w :: l2) → m_less w v = false →
  Forall (λ x, m_less x v = false) l2.
Proof.
  intros Hs Hw. induction l1 as [|y l1 IH].
  - simpl in Hs. apply StronglySorted_inv in Hs as [_ Hall].
    eapply Forall_impl; [exact Hall|]. simpl. intros x Hx.
    by apply (le_trans v w x).
  - simpl in Hs. apply StronglySorted_inv in Hs as [Hs _]. by apply IH.
Qed.

Lemma non_decreasing_insert (l1 l2 : list T) v :
  non_decreasing m_less (l1 ++ l2) →
  Forall (λ x, m_less x v = true) l1 →
  Forall (λ x, m_less x v = false) l2 →
  non_decreasing m_less (l1 ++ v :: l2).
Proof.
  intros Hs H1 H2. induction l1 as [|y l1 IH]; simpl in *.
  - by constructor.
  - apply StronglySorted_inv in Hs as [Hs Hall].
    apply Forall_cons in H1 as [Hy H1].
    constructor; [by apply IH|].
    rewrite Forall_app in Hall. destruct Hall as [Ha Hb].
    rewrite Forall_app, Forall_cons. split_and!; [done| |done].
    by apply less_asym.
Qed.

Lemma non_decreasing_delete (l1 l2 : list T) v :
  non_decreasing m_less (l1 ++ v :: l2) → non_decreasing m_less (l1 ++ l2).
Proof.
  intros Hs. induction l1 as [|y l1 IH]; simpl in *.
  - by apply StronglySorted_inv in Hs as [Hs _].
  - apply StronglySorted_inv in Hs as [Hs Hall].
    constructor; [by apply IH|].
    rewrite Forall_app, Forall_cons in Hall. rewrite Forall_app. naive_solver.
Qed.

End Order.

(** ** Chains *)

Section Chains.
Context {T : Type}.
Implicit Types (h : gmap addr (sl_node T)) (l : list (addr * T)).

Lemma last_addr_nil x : last_addr (T:=T) x [] = x.
Proof. reflexivity. Qed.

Lemma last_addr_cons x y (v : T) l : last_addr x ((y, v) :: l) = last_addr y l.
Proof.
  unfold last_addr. rewrite fmap_cons, last_cons. by destruct (last l.*1).
Qed.

Lemma last_addr_app x l1 l2 :
  last_addr x (l1 ++ l2) = last_addr (last_addr x l1) l2.
Proof.
  revert x. induction l1 as [|[y v] l1 IH]; intros x; [done|].
  simpl. by rewrite !last_addr_cons.
Qed.

Lemma last_addr_snoc x l y (v : T) : last_addr x (l ++ [(y, v)]) = y.
Proof. by rewrite last_addr_app. Qed.

Lemma last_addr_cases x l :
  (l = [] ∧ last_addr x l = x) ∨ ∃ l' w, l = l' ++ [(last_addr x l, w)].
Proof.
  destruct l as [|p l _] using rev_ind; [by left|right].
  destruct p as [y w]. exists l, w. by rewrite last_addr_snoc.
Qed.

Lemma lseg_app h tl L x l1 l2 :
  lseg h tl L x (l1 ++ l2) ↔ lseg h tl L x l1 ∧ lseg h tl L (last_addr x l1) l2.
Proof.
  revert x. induction l1 as [|[y v] l1 IH]; intros x; simpl.
  - rewrite last_addr_nil. naive_solver.
  - rewrite last_addr_cons, IH. naive_solver.
Qed.

Lemma chain_app h tl L x l1 l2 :
  chain h tl L x (l1 ++ l2) ↔
  lseg h tl L x l1 ∧ chain h tl L (last_addr x l1) l2.
Proof. unfold chain. rewrite lseg_app, last_addr_app. naive_solver. Qed.

Lemma lseg_elem h tl L x l a v :
  lseg h tl L x l → (a, v) ∈ l →
  a ≠ tl ∧ get_value h a = Some v ∧ ∃ k, get_level h a = Some k ∧ L ≤ k.
Proof.
  revert x. induction l as [|[y w] l IH]; intros x Hl Hin.
  - by apply elem_of_nil in Hin.
  - destruct Hl as (? & ? & ? & ? & ?).
    apply elem_of_cons in Hin as [[= -> ->]|Hin]; [done|by eapply IH].
Qed.

Lemma lseg_elem_fst h tl L x l a :
  lseg h tl L x l → a ∈ l.*1 →
  ∃ v, (a, v) ∈ l ∧ a ≠ tl ∧ get_value h a = Some v ∧
       ∃ k, get_level h a = Some k ∧ L ≤ k.
Proof.
  intros Hl ([b v] & -> & Hin)%list_elem_of_fmap. exists v. split; [done|].
  by eapply lseg_elem.
Qed.

(** Two heaps that agree on the level-[L] links, values and levels of the
    nodes of a segment carry the same segment. *)
Lemma lseg_frame h h' tl L x l :
  (∀ a, a ∈ x :: l.*1 → get_next h' a L = get_next h a L) →
  (∀ a, a ∈ l.*1 →
     get_value h' a = get_value h a ∧ get_level h' a = get_level h a) →
  lseg h tl L x l → lseg h' tl L x l.
Proof.
  revert x. induction l as [|[y v] l IH]; intros x Hn Hv Hl; [done|].
  destruct Hl as (Hx & Hy & Hval & Hlev & Hl). simpl.
  destruct (Hv y) as [Hv1 Hv2]; [set_solver|].
  rewrite Hn, Hv1, Hv2 by set_solver. split_and!; try done.
  apply IH; [| |done].
  - intros a Ha. apply Hn. simpl. set_solver.
  - intros a Ha. apply Hv. simpl. set_solver.
Qed.

Lemma last_addr_elem x l : last_addr x l ∈ x :: l.*1.
Proof.
  destruct (last_addr_cases x l) as [[-> ->]|(l' & w & Hl)]; [set_solver|].
  rewrite Hl at 2. rewrite fmap_app. set_solver.
Qed.

Lemma chain_frame h h' tl L x l :
  (∀ a, a ∈ x :: l.*1 → get_next h' a L = get_next h a L) →
  (∀ a, a ∈ l.*1 →
     get_value h' a = get_value h a ∧ get_level h' a = get_level h a) →
  chain h tl L x l → chain h' tl L x l.
Proof.
  intros Hn Hv [Hl He]. split; [by eapply lseg_frame|].
  rewrite Hn; [done|apply last_addr_elem].
Qed.

(** A chain is determined by the heap. *)
Lemma chain_unique h tl L x l l' :
  chain h tl L x l → chain h tl L x l' → l = l'.
Proof.
  revert x l'. induction l as [|[y v] l IH]; intros x [|[y' v'] l'] [H1 H2] [H1' H2'].
  - done.
  - simpl in *. destruct H1' as (Hx & Hy & _). rewrite last_addr_nil in H2. congruence.
  - simpl in *. destruct H1 as (Hx & Hy & _). rewrite last_addr_nil in H2'. congruence.
  - simpl in H1, H1'. destruct H1 as (Hx & Hy & Hv & _ & Hl).
    destruct H1' as (Hx' & Hy' & Hv' & _ & Hl').
    rewrite last_addr_cons in H2, H2'.
    assert (y' = y) as -> by congruence. assert (v' = v) as -> by congruence.
    f_equal. by apply (IH y).
Qed.

(** The nodes of a duplicate-free chain are allocated, so there are no
    more of them than the heap holds. *)
Lemma lseg_length_size h tl L x l :
  lseg h tl L x l → NoDup l.*1 → length l ≤ base.size h.
Proof.
  intros Hl Hnd.
  rewrite <-(length_fmap fst), <-(size_list_to_set (C:=gset addr)) by done.
  rewrite <-size_dom. apply subseteq_size. intros a Ha.
  apply elem_of_list_to_set in Ha.
  destruct (lseg_elem_fst _ _ _ _ _ _ Hl Ha) as (v & _ & _ & Hv & _).
  apply elem_of_dom. unfold get_value in Hv.
  destruct (h !! a); [eauto|done].
Qed.

End Chains.

(** ** The inner loops of [insert] and [remove] *)

Section Scans.
Context {T : Type} (m_less : T → T → bool).
Implicit Types (h : gmap addr (sl_node T)) (l : list (addr * T)).

(** The inner loop of [insert] walks over the nodes below [v] and stops
    in front of the first node that is not. *)
Lemma insert_scan_spec h tl L v l : ∀ x fuel,
  chain h tl L x l → length l < fuel →
  ∃ l1 l2, l = l1 ++ l2 ∧
    Forall (λ p, m_less p.2 v = true) l1 ∧ head_not_less m_less v l2 ∧
    insert_scan m_less fuel h tl L v x = Some (last_addr x l1).
Proof.
  induction l as [|[y w] l IH]; intros x fuel [Hl He] Hf;
    (destruct fuel as [|fuel]; [simpl in Hf; lia|]).
  - exists [], []. split_and!; try done. simpl.
    rewrite last_addr_nil in He. rewrite He. simpl. by rewrite decide_True.
  - destruct Hl as (Hx & Hy & Hv & (k & Hk & HLk) & Hl).
    rewrite last_addr_cons in He. simpl.
    rewrite Hx. simpl. rewrite decide_False by congruence. rewrite Hv. simpl.
    destruct (m_less w v) eqn:Hwv.
    + rewrite Hk. simpl. unfold assert. rewrite decide_True by done. simpl.
      destruct (IH y fuel) as (l1 & l2 & -> & H1 & H2 & Hscan);
        [done|simpl in Hf; lia|].
      exists ((y, w) :: l1), l2. rewrite last_addr_cons.
      split_and!; try done. by constructor.
    + exists [], ((y, w) :: l). by split_and!.
Qed.

Lemma insert_scan_remove_scan fuel h tl L v : ∀ x r,
  insert_scan m_less fuel h tl L v x = Some r →
  remove_scan m_less fuel h tl L v x = Some r.
Proof.
  induction fuel as [|fuel IH]; intros x r; [done|]. simpl.
  destruct (get_next h x L) as [nx|]; [|done]. simpl.
  case_decide; [done|]. destruct nx as [nxa|]; [|done]. simpl.
  destruct (get_value h nxa) as [nv|]; [|done]. simpl.
  destruct (m_less nv v); [|done].
  destruct (get_level h nxa) as [lv|]; [|done]. simpl.
  destruct (assert (L ≤ lv)); [|done]. simpl. apply IH.
Qed.

Lemma remove_scan_spec h tl L v l x fuel :
  chain h tl L x l → length l < fuel →
  ∃ l1 l2, l = l1 ++ l2 ∧
    Forall (λ p, m_less p.2 v = true) l1 ∧ head_not_less m_less v l2 ∧
    remove_scan m_less fuel h tl L v x = Some (last_addr x l1).
Proof.
  intros Hc Hf.
  destruct (insert_scan_spec h tl L v l x fuel Hc Hf)
    as (l1 & l2 & ? & ? & ? & Hs).
  exists l1, l2. split_and!; try done. by apply insert_scan_remove_scan.
Qed.

End Scans.

(** ** Linking and unlinking a node on one level *)

Section Splice.
Context {T : Type}.
Implicit Types (h : gmap addr (sl_node T)) (l : list (addr * T)).

Lemma chain_next h tl L x l :
  chain h tl L x l → ∃ y, get_next h x L = Some (Some y).
Proof.
  destruct l as [|[y v] l]; intros [Hl He].
  - rewrite last_addr_nil in He. eauto.
  - destruct Hl as [Hx _]. eauto.
Qed.

(** A chain hanging off [x] in [h] hangs off [x'] in [h'] when [x'] has
    the link of [x] and the nodes of the chain are as they were. *)
Lemma chain_rebase h h' tl L x x' l :
  chain h tl L x l →
  get_next h' x' L = get_next h x L →
  (∀ a, a ∈ l.*1 → get_next h' a L = get_next h a L ∧
     get_value h' a = get_value h a ∧ get_level h' a = get_level h a) →
  chain h' tl L x' l.
Proof.
  intros Hc Hx Hl. destruct l as [|[y v] l].
  - destruct Hc as [_ He]. split; [done|].
    rewrite last_addr_nil in *. congruence.
  - destruct Hc as [(Hxn & Hy & Hv & Hk & Hs) He].
    rewrite last_addr_cons in He.
    assert (chain h' tl L y l) as [Hs' He'].
    { apply (chain_frame h); [| |done].
      - intros a Ha. apply elem_of_cons in Ha as [->|Ha]; apply Hl; set_solver.
      - intros a Ha. apply Hl. set_solver. }
    destruct (Hl y) as (_ & Hv' & Hk'); [set_solver|].
    split; [|by rewrite last_addr_cons]. simpl.
    rewrite Hx, Hv', Hk'. done.
Qed.

(** A segment does not read the link of its last node. *)
Lemma lseg_frame_strict h h' tl L x l :
  NoDup (x :: l.*1) →
  (∀ a, a ∈ x :: l.*1 → a ≠ last_addr x l →
     get_next h' a L = get_next h a L) →
  (∀ a, a ∈ l.*1 →
     get_value h' a = get_value h a ∧ get_level h' a = get_level h a) →
  lseg h tl L x l → lseg h' tl L x l.
Proof.
  revert x. induction l as [|[y v] l IH]; intros x Hnd Hn Hv Hl; [done|].
  destruct Hl as (Hx & Hy & Hval & Hlev & Hl). simpl.
  rewrite fmap_cons in Hnd. apply NoDup_cons in Hnd as [Hxl Hnd].
  destruct (Hv y) as [Hv1 Hv2]; [set_solver|].
  rewrite last_addr_cons in Hn.
  rewrite Hn, Hv1, Hv2.
  - split_and!; try done. apply IH; [done| |by intros; apply Hv; set_solver|done].
    intros a Ha Hne. apply Hn; [set_solver|done].
  - set_solver.
  - intros ->. apply Hxl. apply (last_addr_elem y l).
Qed.

(** The four statements of [insert] that link [n] behind [x]. *)
Lemma splice_ok h n x L y :
  get_next h x L = Some (Some y) → is_Some (get_next h n L) →
  ∃ h1,
    (nx ← get_next h x L; _ ← assert (nx ≠ None);
     h1 ← set_next h n L nx; set_next h1 x L (Some n)) = Some h1 ∧
    (∀ b K, get_next h1 b K =
       if decide (b = x ∧ K = L) then Some (Some n)
       else if decide (b = n ∧ K = L) then Some (Some y)
       else get_next h b K) ∧
    (∀ b, get_value h1 b = get_value h b) ∧
    (∀ b, get_level h1 b = get_level h b) ∧
    (∀ b, get_prev h1 b = get_prev h b).
Proof.
  intros Hx Hn. rewrite Hx. simpl.
  destruct (set_next_is_Some h n L (Some y) Hn) as [h0 Hh0]. rewrite Hh0. simpl.
  assert (is_Some (get_next h0 x L)) as Hx0.
  { rewrite (get_next_set_next _ _ _ _ _ _ _ Hh0). case_decide; eauto. }
  destruct (set_next_is_Some h0 x L (Some n) Hx0) as [h1 Hh1].
  exists h1. split; [done|]. split_and!; intros b.
  - intros K. rewrite (get_next_set_next _ _ _ _ _ _ _ Hh1).
    case_decide; [done|]. by rewrite (get_next_set_next _ _ _ _ _ _ _ Hh0).
  - by rewrite (get_value_set_next _ _ _ _ _ _ Hh1), (get_value_set_next _ _ _ _ _ _ Hh0).
  - by rewrite (get_level_set_next _ _ _ _ _ _ Hh1), (get_level_set_next _ _ _ _ _ _ Hh0).
  - by rewrite (get_prev_set_next _ _ _ _ _ _ Hh1), (get_prev_set_next _ _ _ _ _ _ Hh0).
Qed.

Lemma splice_chain h h1 tl L hd l1 l2 n (v : T) y :
  chain h tl L hd (l1 ++ l2) →
  NoDup (hd :: (l1 ++ l2).*1) →
  n ∉ hd :: (l1 ++ l2).*1 → n ≠ tl →
  get_value h n = Some v → (∃ k, get_level h n = Some k ∧ L ≤ k) →
  get_next h (last_addr hd l1) L = Some (Some y) →
  (∀ b, get_next h1 b L =
     if decide (b = last_addr hd l1) then Some (Some n)
     else if decide (b = n) then Some (Some y)
     else get_next h b L) →
  (∀ b, get_value h1 b = get_value h b) →
  (∀ b, get_level h1 b = get_level h b) →
  chain h1 tl L hd (l1 ++ (n, v) :: l2).
Proof.
  intros [Hl1 Hl2]%chain_app Hnd Hn Hntl Hv Hk Hy Hnext Hval Hlev.
  set (x := last_addr hd l1) in *.
  assert (x ∈ hd :: l1.*1) as Hx by apply last_addr_elem.
  assert (n ≠ x) as Hnx.
  { intros ->. apply Hn. rewrite fmap_app. set_solver. }
  apply chain_app. split.
  - apply (lseg_frame_strict h); [| | |done].
    + rewrite fmap_app in Hnd. rewrite app_comm_cons in Hnd.
      by apply NoDup_app in Hnd as [? _].
    + intros a Ha Hne. rewrite Hnext. rewrite decide_False by done.
      rewrite decide_False; [done|]. intros ->. apply Hn.
      rewrite fmap_app. set_solver.
    + intros a _. by rewrite Hval, Hlev.
  - fold x. split.
    + simpl. rewrite Hnext, decide_True by done. rewrite Hval, Hlev.
      split_and!; try done.
      assert (chain h1 tl L n l2) as [? _]; [|done].
      apply (chain_rebase h _ _ _ x); [done| |].
      * rewrite Hnext, decide_False by done. rewrite decide_True by done. done.
      * intros a Ha. rewrite Hnext, Hval, Hlev. split_and!; try done.
        rewrite fmap_app, app_comm_cons in Hnd.
        apply NoDup_app in Hnd as (_ & Hdis & _).
        rewrite decide_False by (intros ->; by apply (Hdis x)).
        rewrite decide_False; [done|]. intros ->. apply Hn.
        rewrite fmap_app. set_solver.
    + rewrite last_addr_cons.
      assert (chain h1 tl L n l2) as [_ ?]; [|done].
      apply (chain_rebase h _ _ _ x); [done| |].
      * rewrite Hnext, decide_False by done. rewrite decide_True by done. done.
      * intros a Ha. rewrite Hnext, Hval, Hlev. split_and!; try done.
        rewrite fmap_app, app_comm_cons in Hnd.
        apply NoDup_app in Hnd as (_ & Hdis & _).
        rewrite decide_False by (intros ->; by apply (Hdis x)).
        rewrite decide_False; [done|]. intros ->. apply Hn.
        rewrite fmap_app. set_solver.
Qed.

(** Unlinking [n]: its predecessor takes over its link. *)
Lemma unsplice_chain h h1 tl L hd l1 l2 n (v : T) :
  chain h tl L hd (l1 ++ (n, v) :: l2) →
  NoDup (hd :: (l1 ++ (n, v) :: l2).*1) →
  (∀ b, get_next h1 b L =
     if decide (b = last_addr hd l1) then get_next h n L
     else get_next h b L) →
  (∀ b, get_value h1 b = get_value h b) →
  (∀ b, get_level h1 b = get_level h b) →
  chain h1 tl L hd (l1 ++ l2).
Proof.
  intros [Hl1 Hl2]%chain_app Hnd Hnext Hval Hlev.
  set (x := last_addr hd l1) in *.
  assert (x ∈ hd :: l1.*1) as Hx by apply last_addr_elem.
  rewrite fmap_app, app_comm_cons in Hnd.
  apply NoDup_app in Hnd as (Hnd1 & Hdis & Hnd2).
  rewrite fmap_cons in Hnd2. apply NoDup_cons in Hnd2 as [Hn2 Hnd2].
  apply chain_app. split.
  - apply (lseg_frame_strict h); [done| | |done].
    + intros a Ha Hne. by rewrite Hnext, decide_False.
    + intros a _. by rewrite Hval, Hlev.
  - fold x. destruct Hl2 as [(Hxn & _ & _ & _ & Hs) He].
    rewrite last_addr_cons in He.
    apply (chain_rebase h _ _ _ n); [done| |].
    + by rewrite Hnext, decide_True.
    + intros a Ha. rewrite Hnext, Hval, Hlev. split_and!; try done.
      rewrite decide_False; [done|]. intros ->. apply (Hdis x); [done|].
      rewrite fmap_cons. set_solver.
Qed.

End Splice.

(** ** Descending one level *)

Section Descend.
Context {T : Type} (m_less : T → T → bool).
Hypothesis Hswo : strict_weak_order m_less.
Variables (hd : addr) (v : T).
Variable c : nat → list (addr * T).
Variable K : nat.
Hypothesis Hsorted : ∀ L, L ≤ K → non_decreasing m_less (c L).*2.
Hypothesis Hsub : ∀ L p, L < K → p ∈ c (S L) → p ∈ c L.

(** Where the descent leaves level [S L] it can enter level [L]: the node
    reached is on the lower chain and everything before it is below [v]. *)
Lemma descend_position L l1 l2 :
  L < K → c (S L) = l1 ++ l2 → Forall (λ p, m_less p.2 v = true) l1 →
  ∃ pre post, c L = pre ++ post ∧ last_addr hd pre = last_addr hd l1 ∧
    Forall (λ p, m_less p.2 v = true) pre.
Proof.
  intros HL Hc Hl1.
  destruct (last_addr_cases hd l1) as [[-> Hla]|(l1' & w & Hl1')].
  { exists [], (c L). by split_and!. }
  remember (last_addr hd l1) as a eqn:Ha. clear Ha.
  assert ((a, w) ∈ c (S L)) as Hin.
  { rewrite Hc, Hl1'. set_solver. }
  apply Hsub in Hin; [|done].
  apply list_elem_of_split in Hin as (p1 & p2 & Hp).
  assert (m_less w v = true) as Hwv.
  { rewrite Hl1', Forall_app, Forall_singleton in Hl1. by destruct Hl1. }
  exists (p1 ++ [(a, w)]), p2. split_and!.
  - by rewrite <-app_assoc.
  - by rewrite last_addr_snoc.
  - rewrite Forall_app, Forall_singleton. split; [|done].
    pose proof (Hsorted L ltac:(lia)) as Hs. rewrite Hp in Hs.
    rewrite fmap_app, fmap_cons in Hs.
    apply (sorted_prefix_less m_less Hswo _ _ _ v) in Hs; [|done].
    by apply Forall_fmap in Hs.
Qed.

End Descend.

(** ** The descent of [insert] *)

Section InsertLoop.
Context {T : Type} (m_less : T → T → bool).
Hypothesis Hswo : strict_weak_order m_less.
Variables (tl hd n : addr) (v : T) (nl fuel : nat).
Variable c : nat → list (addr * T).
Variable K : nat.
Hypothesis Hnodup : ∀ L, L ≤ K → NoDup (hd :: (c L).*1).
Hypothesis Hfresh : ∀ L, L ≤ K → n ∉ hd :: (c L).*1.
Hypothesis Hsorted : ∀ L, L ≤ K → non_decreasing m_less (c L).*2.
Hypothesis Hfuel : ∀ L, L ≤ K → length (c L) < fuel.
Hypothesis Hsub : ∀ L p, L < K → p ∈ c (S L) → p ∈ c L.
Hypothesis Hntl : n ≠ tl.

(** One round of the [do]-loop, at level [L]. *)
Lemma insert_step L h pre post :
  L ≤ K → chain h tl L hd (c L) →
  get_value h n = Some v → get_level h n = Some nl →
  (L ≤ nl → is_Some (get_next h n L)) →
  c L = pre ++ post → Forall (λ p, m_less p.2 v = true) pre →
  ∃ curr' h1 l1 l2,
    insert_scan m_less fuel h tl L v (last_addr hd pre) = Some curr' ∧
    (if decide (L ≤ nl) then
       nx ← get_next h curr' L; _ ← assert (nx ≠ None);
       h1 ← set_next h n L nx; set_next h1 curr' L (Some n)
     else Some h) = Some h1 ∧
    c L = l1 ++ l2 ∧
    Forall (λ p, m_less p.2 v = true) l1 ∧
    Forall (λ p, m_less p.2 v = false) l2 ∧
    curr' = last_addr hd l1 ∧
    chain h1 tl L hd (if decide (L ≤ nl) then l1 ++ (n, v) :: l2 else c L) ∧
    (∀ a, get_value h1 a = get_value h a) ∧
    (∀ a, get_level h1 a = get_level h a) ∧
    (∀ a, get_prev h1 a = get_prev h a) ∧
    (∀ a L', L' ≠ L → get_next h1 a L' = get_next h a L').
Proof.
  intros HL Hch Hv Hlev Hnx Hc Hpre.
  pose proof Hch as Hch0. rewrite Hc in Hch. apply chain_app in Hch as [Hs1 Hs2].
  destruct (insert_scan_spec m_less h tl L v post (last_addr hd pre) fuel)
    as (m & l2 & -> & Hm & Hl2 & Hscan); [done| |].
  { pose proof (Hfuel L HL) as Hf. rewrite Hc, length_app in Hf. lia. }
  rewrite <-last_addr_app in Hscan.
  set (l1 := pre ++ m) in *. rewrite app_assoc in Hc. fold l1 in Hc.
  assert (Forall (λ p, m_less p.2 v = true) l1) as Hl1 by by apply Forall_app.
  assert (Forall (λ p, m_less p.2 v = false) l2) as Hl2'.
  { destruct l2 as [|p l2]; [done|]. simpl in Hl2. constructor; [done|].
    pose proof (Hsorted L HL) as Hs. rewrite Hc, fmap_app, fmap_cons in Hs.
    apply (sorted_suffix_ge m_less Hswo _ _ _ v) in Hs; [|done].
    by apply Forall_fmap in Hs. }
  exists (last_addr hd l1). 
  pose proof Hch0 as Hch1. rewrite Hc in Hch1.
  apply chain_app in Hch1 as [_ Hch1].
  destruct (chain_next _ _ _ _ _ Hch1) as [y Hy].
  case_decide as Hd.
  - destruct (splice_ok h n (last_addr hd l1) L y Hy (Hnx Hd))
      as (h1 & Hh1 & Hn1 & Hv1 & Hk1 & Hp1).
    exists h1, l1, l2. split_and!; try done.
    + apply (splice_chain h h1 tl L hd l1 l2 n v y).
      * by rewrite <-Hc.
      * rewrite <-Hc. by apply Hnodup.
      * rewrite <-Hc. by apply Hfresh.
      * done.
      * done.
      * eauto.
      * done.
      * intros b. rewrite Hn1.
        destruct (decide (b = last_addr hd l1)) as [->|?].
        { by rewrite decide_True. }
        rewrite decide_False by naive_solver.
        destruct (decide (b = n)) as [->|?].
        { by rewrite decide_True. }
        by rewrite decide_False by naive_solver.
      * done.
      * done.
    + intros a L' HL'. rewrite Hn1.
      rewrite decide_False by naive_solver. by rewrite decide_False by naive_solver.
  - exists h, l1, l2. by split_and!.
Qed.

Lemma insert_loop_unfold level h curr :
  insert_loop m_less fuel tl v n nl level h curr =
  curr' ← insert_scan m_less fuel h tl level v curr;
  h' ← (if decide (level ≤ nl) then
          nx ← get_next h curr' level; _ ← assert (nx ≠ None);
          h1 ← set_next h n level nx; set_next h1 curr' level (Some n)
        else Some h);
  match level with
  | 0 => Some (h', curr')
  | S level' => insert_loop m_less fuel tl v n nl level' h' curr'
  end.
Proof. by destruct level. Qed.

Lemma insert_loop_spec k : k ≤ K → ∀ h pre post,
  (∀ L, L ≤ k → chain h tl L hd (c L)) →
  get_value h n = Some v → get_level h n = Some nl →
  (∀ L, L ≤ k → L ≤ nl → is_Some (get_next h n L)) →
  c k = pre ++ post → Forall (λ p, m_less p.2 v = true) pre →
  ∃ h' curr',
    insert_loop m_less fuel tl v n nl k h (last_addr hd pre) = Some (h', curr') ∧
    (∀ a, get_value h' a = get_value h a) ∧
    (∀ a, get_level h' a = get_level h a) ∧
    (∀ a, get_prev h' a = get_prev h a) ∧
    (∀ a L, k < L → get_next h' a L = get_next h a L) ∧
    (∀ L, L ≤ k → ∃ l1 l2,
       c L = l1 ++ l2 ∧
       Forall (λ p, m_less p.2 v = true) l1 ∧
       Forall (λ p, m_less p.2 v = false) l2 ∧
       chain h' tl L hd (if decide (L ≤ nl) then l1 ++ (n, v) :: l2 else c L) ∧
       (L = 0 → curr' = last_addr hd l1)).
Proof.
  induction k as [|k IH]; intros Hk h pre post Hch Hv Hlev Hnx Hc Hpre.
  - destruct (insert_step 0 h pre post) as
      (curr' & h1 & l1 & l2 & Hscan & Hspl & Hc' & Hl1 & Hl2 & Hcurr & Hch1 &
       Hv1 & Hk1 & Hp1 & Hn1); try done; [by apply Hch|by apply Hnx|].
    exists h1, curr'. rewrite insert_loop_unfold, Hscan.
    cbn [mbind option_bind]. rewrite Hspl. cbn [mbind option_bind].
    split_and!; try done.
    + intros a L HL. apply Hn1. lia.
    + intros L HL. assert (L = 0) as -> by lia. exists l1, l2. by split_and!.
  - destruct (insert_step (S k) h pre post) as
      (curr' & h1 & l1 & l2 & Hscan & Hspl & Hc' & Hl1 & Hl2 & Hcurr & Hch1 &
       Hv1 & Hk1 & Hp1 & Hn1); try done; [by apply Hch|by apply Hnx|].
    destruct (descend_position m_less Hswo hd v c K Hsorted Hsub k l1 l2)
      as (pre' & post' & Hc'' & Hla & Hpre');
      [lia|done|done|].
    destruct (IH ltac:(lia) h1 pre' post') as
      (h' & r & Hloop & Hv' & Hk' & Hp' & Hn' & Hlev');
      try done.
    { intros L HL. apply (chain_frame h); [| |apply Hch; lia].
      - intros a _. apply Hn1. lia.
      - intros a _. by rewrite Hv1, Hk1. }
    { by rewrite Hv1. }
    { by rewrite Hk1. }
    { intros L HL1 HL2. rewrite Hn1 by lia. apply Hnx; [lia|done]. }
    exists h', r. rewrite insert_loop_unfold, Hscan.
    cbn [mbind option_bind]. rewrite Hspl. cbn [mbind option_bind].
    rewrite Hcurr, <-Hla. split_and!; try done.
    + intros a. by rewrite Hv', Hv1.
    + intros a. by rewrite Hk', Hk1.
    + intros a. by rewrite Hp', Hp1.
    + intros a L HL. rewrite Hn' by lia. apply Hn1. lia.
    + intros L HL. destruct (decide (L = S k)) as [->|HLk].
      * exists l1, l2. split_and!; try done.
        apply (chain_frame h1); [| |done].
        -- intros a _. apply Hn'. lia.
        -- intros a _. by rewrite Hv', Hk'.
      * apply Hlev'. lia.
Qed.

End InsertLoop.

(** ** Dropping a node from a chain *)

Section RemoveAddr.
Context {T : Type}.
Implicit Types (l : list (addr * T)).

Lemma remove_addr_notin n l : n ∉ l.*1 → remove_addr n l = l.
Proof.
  induction l as [|[a w] l IH]; intros Hn; [done|]. simpl.
  rewrite fmap_cons, not_elem_of_cons in Hn. destruct Hn as [Hna Hn].
  rewrite decide_False by done. by rewrite IH.
Qed.

Lemma remove_addr_split n (v : T) l1 l2 :
  NoDup (l1 ++ (n, v) :: l2).*1 →
  remove_addr n (l1 ++ (n, v) :: l2) = l1 ++ l2.
Proof.
  induction l1 as [|[a w] l1 IH]; simpl; intros Hnd.
  - rewrite decide_True by done. apply NoDup_cons in Hnd as [Hn _].
    by apply remove_addr_notin.
  - apply NoDup_cons in Hnd as [Ha Hnd].
    rewrite decide_False; [by rewrite IH|].
    intros ->. apply Ha. rewrite fmap_app, fmap_cons. set_solver.
Qed.

Lemma remove_addr_elem n a l :
  a ∈ (remove_addr n l).*1 ↔ a ∈ l.*1 ∧ a ≠ n.
Proof.
  induction l as [|[b w] l IH]; simpl.
  - set_solver.
  - case_decide as Hd; simpl in Hd; rewrite ?fmap_cons, ?elem_of_cons, IH;
      simpl; naive_solver.
Qed.

Lemma remove_addr_Forall (P : T → Prop) n l :
  Forall P l.*2 → Forall P (remove_addr n l).*2.
Proof.
  induction l as [|[b w] l IH]; simpl; [done|].
  rewrite Forall_cons. intros [? ?]. case_decide; [by apply IH|].
  rewrite fmap_cons. constructor; [done|by apply IH].
Qed.

Lemma remove_addr_NoDup n x l :
  NoDup (x :: l.*1) → NoDup (x :: (remove_addr n l).*1).
Proof.
  rewrite !NoDup_cons. intros [Hx Hnd]. split.
  - rewrite remove_addr_elem. naive_solver.
  - clear Hx. induction l as [|[b w] l IH]; simpl; [done|].
    rewrite fmap_cons in Hnd. apply NoDup_cons in Hnd as [Hb Hnd].
    case_decide; [by apply IH|]. rewrite fmap_cons. apply NoDup_cons.
    split; [|by apply IH]. rewrite remove_addr_elem. naive_solver.
Qed.

(** A node occurs at one place only in a duplicate-free chain. *)
Lemma NoDup_split_unique l1 l2 a1 a2 n (v : T) :
  NoDup (l1 ++ (n, v) :: l2).*1 →
  l1 ++ (n, v) :: l2 = a1 ++ (n, v) :: a2 → l1 = a1.
Proof.
  revert a1. induction l1 as [|q l1 IH]; intros [|r a1] Hnd Heq; simpl in *.
  - done.
  - injection Heq as <- ->. apply NoDup_cons in Hnd as [Hn _]. exfalso.
    apply Hn. rewrite fmap_app, fmap_cons. set_solver.
  - injection Heq as -> <-. apply NoDup_cons in Hnd as [Hn _]. exfalso.
    apply Hn. rewrite fmap_app, fmap_cons. set_solver.
  - injection Heq as <- Heq. apply NoDup_cons in Hnd as [_ Hnd].
    f_equal. by apply IH.
Qed.

End RemoveAddr.

(** ** Abstract chains under insertion and removal *)

Section AbstractChains.
Context {T : Type} (m_less : T → T → bool).
Implicit Types (l : list (addr * T)).

Lemma insert_before_split p l1 l2 :
  Forall (λ q, m_less q.2 p.2 = true) l1 → head_not_less m_less p.2 l2 →
  insert_before m_less p (l1 ++ l2) = l1 ++ p :: l2.
Proof.
  intros H1 H2. induction H1 as [|q l1 Hq _ IH]; simpl.
  - destruct l2 as [|q l2]; [done|]. simpl in *. by rewrite H2.
  - by rewrite Hq, IH.
Qed.

Lemma Forall_head_not_less v l :
  Forall (λ q, m_less q.2 v = false) l → head_not_less m_less v l.
Proof. by intros [|]. Qed.

End AbstractChains.

(** ** The leveling policy *)

Lemma random_level_loop_bounds fuel coin tosses level :
  level ≤ random_level_loop fuel coin tosses level ≤ max level max_levels.
Proof.
  revert tosses level. induction fuel as [|fuel IH]; intros tosses level; simpl.
  - lia.
  - destruct (level <? max_levels) eqn:Hlt; simpl; [|lia].
    apply Nat.ltb_lt in Hlt. destruct (coin tosses); [|lia].
    specialize (IH (S tosses) (S level)). lia.
Qed.

Lemma random_level_bounds coin : 1 ≤ random_level coin ≤ max_levels.
Proof.
  unfold random_level.
  pose proof (random_level_loop_bounds max_levels coin 0 1).
  unfold max_levels in *. lia.
Qed.

(** ** Consequences of the representation invariant *)

Section BackLinks.
Context {T : Type}.
Implicit Types (h : gmap addr (sl_node T)) (l : list (addr * T)).

Lemma back_seg_app h x l1 l2 :
  back_seg h x (l1 ++ l2) ↔ back_seg h x l1 ∧ back_seg h (last_addr x l1) l2.
Proof.
  revert x. induction l1 as [|[y v] l1 IH]; intros x; simpl.
  - rewrite last_addr_nil. naive_solver.
  - rewrite last_addr_cons, IH. naive_solver.
Qed.

Lemma back_seg_frame h h' x l :
  (∀ a, a ∈ l.*1 → get_prev h' a = get_prev h a) →
  back_seg h x l → back_seg h' x l.
Proof.
  revert x. induction l as [|[y v] l IH]; intros x Hp Hb; [done|].
  destruct Hb as [Hy Hb]. simpl. rewrite Hp by set_solver.
  split; [done|]. apply IH; [|done]. intros a Ha. apply Hp. set_solver.
Qed.

End BackLinks.

Section ReprFacts.
Context {T : Type} (m_less : T → T → bool) (T_min : T).
Implicit Types (s : sl_impl T) (c : nat → list (addr * T)).

Lemma repr_sub s c L p :
  repr m_less T_min s c → L < max_levels → p ∈ c (S L) → p ∈ c L.
Proof.
  intros Hr HL Hin. destruct p as [a w].
  destruct (repr_chain _ _ _ _ Hr (S L) ltac:(lia)) as [Hs _].
  destruct (repr_chain _ _ _ _ Hr L ltac:(lia)) as [Hs' _].
  destruct (lseg_elem _ _ _ _ _ _ _ Hs Hin) as (Htl & Hv & k & Hk & HLk).
  assert (a ∈ (c (S L)).*1) as Ha.
  { apply list_elem_of_fmap. by exists (a, w). }
  apply (repr_mem _ _ _ _ Hr) in Ha as (Hhd & _ & _); [|lia].
  assert (a ∈ (c L).*1) as Ha'.
  { apply (repr_mem _ _ _ _ Hr); [lia|]. split_and!; try done.
    exists k. split; [done|lia]. }
  destruct (lseg_elem_fst _ _ _ _ _ _ Hs' Ha') as (w' & Hin' & _ & Hv' & _).
  by replace w with w' by congruence.
Qed.

Lemma repr_length s c L :
  repr m_less T_min s c → L ≤ max_levels →
  length (c L) ≤ base.size (m_heap s).
Proof.
  intros Hr HL. destruct (repr_chain _ _ _ _ Hr L HL) as [Hs _].
  eapply lseg_length_size; [done|].
  pose proof (repr_nodup _ _ _ _ Hr L HL) as Hnd.
  by apply NoDup_cons in Hnd as [_ ?].
Qed.

Lemma repr_fresh s c p :
  repr m_less T_min s c → m_heap s !! p = None →
  p ≠ m_head s ∧ p ≠ m_tail s ∧ ∀ L, L ≤ max_levels → p ∉ (c L).*1.
Proof.
  intros Hr Hp. apply get_level_None in Hp. split_and!.
  - intros ->. by rewrite (repr_head_level _ _ _ _ Hr) in Hp.
  - intros ->. by rewrite (repr_tail_level _ _ _ _ Hr) in Hp.
  - intros L HL Hin. apply (repr_mem _ _ _ _ Hr) in Hin as (_ & _ & k & Hk & _); [|done].
    congruence.
Qed.

End ReprFacts.

Section InsertSpec.
Context {T : Type} (m_less : T → T → bool) (T_min : T).
Hypothesis Hswo : strict_weak_order m_less.
Implicit Types (s : sl_impl T) (c : nat → list (addr * T)).

Lemma insert_spec s c v coin p :
  repr m_less T_min s c → m_heap s !! p = None →
  ∃ s', insert m_less s v None coin p = Some (s', p) ∧
    repr m_less T_min s'
      (λ L, if decide (L ≤ random_level coin)
            then insert_before m_less (p, v) (c L) else c L) ∧
    m_size s' = ((m_size s + 1) mod size_modulus)%Z ∧
    m_head s' = m_head s ∧ m_tail s' = m_tail s.
Proof.
  intros Hr Hp. destruct s as [h lvs sz hd tl].
  pose proof (random_level_bounds coin) as Hrl.
  destruct (repr_fresh _ _ _ _ _ Hr Hp) as (Hphd & Hptl & Hpc).
  pose proof (repr_head_level _ _ _ _ Hr) as Hhl.
  pose proof (repr_tail_level _ _ _ _ Hr) as Htll.
  pose proof (repr_ends _ _ _ _ Hr) as Hends.
  unfold insert. cbn [m_heap m_head m_tail m_levels m_size] in *.
  set (nl := random_level coin) in *.
  set (h0 := <[p := new_node v nl]> h).
  unfold assert. rewrite decide_True by done. cbn [mbind option_bind default].
  assert (∀ a, a ≠ p → ∀ L, get_next h0 a L = get_next h a L) as Hn0.
  { intros a Ha L. unfold h0. by rewrite get_next_alloc, decide_False. }
  assert (∀ a, a ≠ p → get_value h0 a = get_value h a) as Hv0.
  { intros a Ha. unfold h0. by rewrite get_value_alloc, decide_False. }
  assert (∀ a, a ≠ p → get_level h0 a = get_level h a) as Hk0.
  { intros a Ha. unfold h0. by rewrite get_level_alloc, decide_False. }
  assert (∀ a, a ≠ p → get_prev h0 a = get_prev h a) as Hp0.
  { intros a Ha. unfold h0. by rewrite get_prev_alloc, decide_False. }
  rewrite Hk0, Hhl by done. cbn [mbind option_bind].
  destruct (insert_loop_spec m_less Hswo tl hd p v nl (S (base.size h0)) c
              max_levels) with (k := max_levels) (h := h0) (pre := @nil (addr * T))
              (post := c max_levels)
    as (h1 & curr' & Hloop & Hv1 & Hk1 & Hp1 & Hn1 & Hlev).
  { by apply (repr_nodup _ _ _ _ Hr). }
  { intros L HL. rewrite not_elem_of_cons. split; [done|by apply Hpc]. }
  { by apply (repr_sorted _ _ _ _ Hr). }
  { intros L HL. pose proof (repr_length _ _ _ _ L Hr HL) as Hlen.
    cbn [m_heap] in Hlen. unfold h0.
    rewrite map_size_insert_None by done. lia. }
  { intros L q HL. by apply (repr_sub _ _ _ _ _ _ Hr). }
  { done. }
  { done. }
  { intros L HL. apply (chain_frame h); [| |by apply (repr_chain _ _ _ _ Hr)].
    - intros a Ha. apply Hn0. intros ->. apply elem_of_cons in Ha as [?|Ha]; [done|].
      by apply (Hpc L).
    - intros a Ha. rewrite Hv0, Hk0; [done|intros ->; by apply (Hpc L)..]. }
  { unfold h0. by rewrite get_value_alloc, decide_True. }
  { unfold h0. by rewrite get_level_alloc, decide_True. }
  { intros L _ HL. unfold h0. rewrite get_next_alloc, decide_True by done.
    rewrite decide_True by done. eauto. }
  { done. }
  { done. }
  change (last_addr hd []) with hd in Hloop. rewrite Hloop.
  cbn [mbind option_bind].
  (* the bottom level *)
  destruct (Hlev 0 ltac:(lia)) as (l1 & l2 & Hc0 & Hl1 & Hl2 & Hch0 & Hcurr).
  specialize (Hcurr eq_refl). rewrite decide_True in Hch0 by lia.
  pose proof Hch0 as Hch0'. apply chain_app in Hch0' as [Hs1 [Hs2 He2]].
  destruct Hs2 as (Hxp & _ & _ & _ & Hs2). rewrite last_addr_cons in He2.
  rewrite <-Hcurr in Hxp. rewrite Hxp. cbn [mbind option_bind].
  rewrite decide_True by done. cbn [mbind option_bind].
  destruct (set_prev_is_Some h1 p (Some curr')) as [h2 Hh2].
  { rewrite Hv1. unfold h0. rewrite get_value_alloc, decide_True; eauto. }
  rewrite Hh2. cbn [mbind option_bind].
  destruct (chain_next h1 tl 0 p l2 (conj Hs2 He2)) as [y Hy].
  rewrite (get_next_set_prev _ _ _ _ _ _ Hh2), Hy. cbn [mbind option_bind].
  assert (y ≠ p ∧ is_Some (get_value h y) ∧
          (l2 = [] ∧ y = tl ∨ ∃ w l2', l2 = (y, w) :: l2')) as (Hyp & Hyv & Hycase).
  { destruct l2 as [|[y' w] l2'].
    - rewrite last_addr_nil in He2. assert (y = tl) as -> by congruence.
      split_and!; [done| |by left]. apply get_value_level. rewrite Htll. eauto.
    - destruct Hs2 as (Hy' & _ & Hvy & _). assert (y' = y) as -> by congruence.
      assert (y ≠ p) as Hyp.
      { intros ->. apply (Hpc 0); [lia|]. rewrite Hc0, fmap_app. set_solver. }
      split_and!; [done| |right; eauto].
      rewrite Hv1, Hv0 in Hvy by done. rewrite Hvy. eauto. }
  destruct (set_prev_is_Some h2 y (Some p)) as [h3 Hh3].
  { by rewrite (get_value_set_prev _ _ _ _ _ Hh2), Hv1, Hv0. }
  rewrite Hh3. cbn [mbind option_bind].
  eexists. split; [reflexivity|]. cbn [m_size m_head m_tail]. split; [|done].
  (* the heap after the call *)
  assert (∀ a L, get_next h3 a L = get_next h1 a L) as Hn3.
  { intros a L. by rewrite (get_next_set_prev _ _ _ _ _ _ Hh3),
      (get_next_set_prev _ _ _ _ _ _ Hh2). }
  assert (∀ a, get_value h3 a = get_value h0 a) as Hv3.
  { intros a. by rewrite (get_value_set_prev _ _ _ _ _ Hh3),
      (get_value_set_prev _ _ _ _ _ Hh2). }
  assert (∀ a, get_level h3 a = get_level h0 a) as Hk3.
  { intros a. by rewrite (get_level_set_prev _ _ _ _ _ Hh3),
      (get_level_set_prev _ _ _ _ _ Hh2). }
  assert (∀ a, get_prev h3 a =
            if decide (a = y) then Some (Some p)
            else if decide (a = p) then Some (Some curr')
            else get_prev h a) as Hp3.
  { intros a. rewrite (get_prev_set_prev _ _ _ _ _ Hh3).
    case_decide; [done|]. rewrite (get_prev_set_prev _ _ _ _ _ Hh2).
    case_decide; [done|]. by rewrite Hp1, Hp0. }
  assert (∀ L, L ≤ max_levels → ∃ m1 m2,
            c L = m1 ++ m2 ∧
            Forall (λ q, m_less q.2 v = true) m1 ∧
            Forall (λ q, m_less q.2 v = false) m2 ∧
            insert_before m_less (p, v) (c L) = m1 ++ (p, v) :: m2 ∧
            chain h3 tl L hd
              (if decide (L ≤ nl) then m1 ++ (p, v) :: m2 else c L)) as Hnew.
  { intros L HL. destruct (Hlev L HL) as (m1 & m2 & Hc & Hm1 & Hm2 & Hch & _).
    exists m1, m2. split_and!; try done.
    - rewrite Hc. apply insert_before_split; [done|].
      by apply Forall_head_not_less.
    - apply (chain_frame h1); [| |done].
      + intros a _. apply Hn3.
      + intros a _. by rewrite Hv3, Hk3, Hv1, Hk1. }
  assert (insert_before m_less (p, v) (c 0) = l1 ++ (p, v) :: l2) as Hib0.
  { rewrite Hc0. apply insert_before_split; [done|].
    by apply Forall_head_not_less. }
  pose proof (repr_nodup _ _ _ _ Hr 0 ltac:(lia)) as Hnd0.
  cbn [m_head] in Hnd0. rewrite Hc0 in Hnd0.
  constructor; cbn [m_heap m_head m_tail m_levels m_size].
  - apply (repr_levels _ _ _ _ Hr).
  - done.
  - rewrite Hv3, Hv0 by done. apply (repr_head_value _ _ _ _ Hr).
  - by rewrite Hk3, Hk0.
  - by rewrite Hk3, Hk0.
  - intros L HL. destruct (Hnew L HL) as (m1 & m2 & Hc & _ & _ & Hib & Hch).
    case_decide; [by rewrite Hib|done].
  - intros L HL. destruct (Hnew L HL) as (m1 & m2 & Hc & _ & _ & Hib & _).
    pose proof (repr_nodup _ _ _ _ Hr L HL) as Hnd. cbn [m_head] in Hnd.
    case_decide; [|done]. rewrite Hib.
    specialize (Hpc L HL). rewrite Hc in Hnd, Hpc.
    rewrite fmap_app in *. rewrite fmap_cons.
    rewrite app_comm_cons in *. apply NoDup_app in Hnd as (Hnd1 & Hdis & Hnd2).
    apply NoDup_app. split_and!; [done| |].
    + intros a Ha. rewrite not_elem_of_cons. split; [|by apply Hdis].
      intros ->. apply elem_of_cons in Ha as [?|Ha]; [done|]. set_solver.
    + apply NoDup_cons. split; [set_solver|done].
  - intros L HL. destruct (Hnew L HL) as (m1 & m2 & Hc & Hm1 & Hm2 & Hib & _).
    pose proof (repr_sorted _ _ _ _ Hr L HL) as Hso.
    case_decide; [|done]. rewrite Hib, fmap_app, fmap_cons.
    rewrite Hc, fmap_app in Hso.
    apply (non_decreasing_insert m_less Hswo); [done|by apply Forall_fmap..].
  - intros L a HL. rewrite Hk3.
    destruct (Hnew L HL) as (m1 & m2 & Hc & _ & _ & Hib & _).
    pose proof (repr_mem _ _ _ _ Hr L a HL) as Hmem. cbn [m_heap m_head m_tail] in Hmem.
    destruct (decide (a = p)) as [->|Hap].
    + unfold h0. rewrite get_level_alloc, (decide_True (P := p = p)) by done.
      case_decide.
      * rewrite Hib, fmap_app, fmap_cons. split; [|set_solver].
        intros _. split_and!; eauto.
      * split; [by intros ?%Hpc|]. intros (_ & _ & k & [= <-] & ?). lia.
    + rewrite Hk0, <-Hmem by done. case_decide; [|done].
      rewrite Hib, Hc, !fmap_app, fmap_cons. set_solver.
  - intros a k Hahd Hatl. rewrite Hk3.
    destruct (decide (a = p)) as [->|Hap].
    + unfold h0. rewrite get_level_alloc, decide_True by done.
      by intros [= <-].
    + rewrite Hk0 by done. by apply (repr_node_level _ _ _ _ Hr).
  - rewrite decide_True by lia. rewrite Hib0.
    pose proof (repr_back _ _ _ _ Hr) as Hb. cbn [m_heap m_head] in Hb.
    rewrite Hc0 in Hb. apply back_seg_app in Hb as [Hb1 Hb2].
    rewrite fmap_app, app_comm_cons in Hnd0.
    apply NoDup_app in Hnd0 as (Hnd1 & Hdis & Hnd2).
    apply back_seg_app. split.
    + apply (back_seg_frame h); [|done]. intros a Ha. rewrite Hp3.
      rewrite decide_False.
      * rewrite decide_False; [done|]. intros ->. apply (Hpc 0); [lia|].
        rewrite Hc0, fmap_app. set_solver.
      * intros ->. destruct Hycase as [[-> ->]|(w & l2' & ->)].
        -- destruct (lseg_elem_fst _ _ _ _ _ _ Hs1 Ha) as (? & _ & ? & _). done.
        -- apply (Hdis y); [set_solver|]. rewrite fmap_cons. set_solver.
    + simpl. rewrite Hp3. rewrite decide_False by done.
      rewrite decide_True by done. split; [by rewrite Hcurr|].
      destruct Hycase as [[-> ->]|(w & l2' & ->)]; [done|].
      simpl. rewrite Hp3, decide_True by done. split; [done|].
      destruct Hb2 as [_ Hb2]. rewrite fmap_cons in Hnd2.
      apply NoDup_cons in Hnd2 as [Hy2 Hnd2].
      apply (back_seg_frame h); [|done]. intros a Ha. rewrite Hp3.
      rewrite decide_False by (intros ->; done).
      rewrite decide_False; [done|]. intros ->. apply (Hpc 0); [lia|].
      rewrite Hc0, fmap_app, fmap_cons. set_solver.
  - rewrite decide_True by lia. rewrite Hib0, Hp3.
    pose proof (repr_back_tail _ _ _ _ Hr) as Hbt. cbn [m_heap m_head m_tail] in Hbt.
    destruct Hycase as [[-> ->]|(w & l2' & ->)].
    + rewrite decide_True by done. by rewrite last_addr_snoc.
    + destruct Hs2 as (_ & Hytl & _).
      rewrite decide_False by done. rewrite decide_False by done.
      rewrite Hbt, Hc0. by rewrite !last_addr_app, !last_addr_cons.
  - rewrite decide_True by lia. rewrite Hib0.
    pose proof (repr_size _ _ _ _ Hr) as Hsz. cbn [m_size] in Hsz.
    rewrite Hsz, Hc0, !length_app. cbn [length].
    rewrite Zplus_mod_idemp_l. f_equal. lia.
Qed.

End InsertSpec.

(** ** Construction *)

Section InitSpec.
Context {T : Type} (m_less : T → T → bool) (T_min T_max : T).
Implicit Types (h : gmap addr (sl_node T)).

Lemma init_links_spec hd tl n : ∀ i h,
  hd ≠ tl →
  (∀ L, i ≤ L < i + n →
     is_Some (get_next h hd L) ∧ is_Some (get_next h tl L)) →
  ∃ h', init_links n i hd tl h = Some h' ∧
    (∀ a L, get_next h' a L =
       if decide (i ≤ L < i + n ∧ a = hd) then Some (Some tl)
       else if decide (i ≤ L < i + n ∧ a = tl) then Some None
       else get_next h a L) ∧
    (∀ a, get_value h' a = get_value h a) ∧
    (∀ a, get_level h' a = get_level h a) ∧
    (∀ a, get_prev h' a = get_prev h a).
Proof.
  induction n as [|n IH]; intros i h Hne Hs.
  - exists h. split_and!; try done. intros a L.
    rewrite decide_False by lia. by rewrite decide_False by lia.
  - simpl. destruct (Hs i ltac:(lia)) as [Hs1 Hs2].
    destruct (set_next_is_Some h hd i (Some tl) Hs1) as [h1 Hh1].
    rewrite Hh1. simpl.
    destruct (set_next_is_Some h1 tl i None) as [h2 Hh2].
    { rewrite (get_next_set_next _ _ _ _ _ _ _ Hh1). by case_decide. }
    rewrite Hh2. simpl.
    destruct (IH (S i) h2 Hne) as (h' & Hh' & Hn' & Hv' & Hk' & Hp').
    { intros L HL. rewrite !(get_next_set_next _ _ _ _ _ _ _ Hh2).
      rewrite !(get_next_set_next _ _ _ _ _ _ _ Hh1).
      rewrite !decide_False by lia. apply Hs. lia. }
    exists h'. split; [done|]. split_and!.
    + intros a L. rewrite Hn'.
      rewrite (get_next_set_next _ _ _ _ _ _ _ Hh2).
      rewrite (get_next_set_next _ _ _ _ _ _ _ Hh1).
      repeat case_decide; try done; try lia; destruct_and?; subst; try done;
        exfalso; naive_solver lia.
    + intros a. by rewrite Hv', (get_value_set_next _ _ _ _ _ _ Hh2),
        (get_value_set_next _ _ _ _ _ _ Hh1).
    + intros a. by rewrite Hk', (get_level_set_next _ _ _ _ _ _ Hh2),
        (get_level_set_next _ _ _ _ _ _ Hh1).
    + intros a. by rewrite Hp', (get_prev_set_next _ _ _ _ _ _ Hh2),
        (get_prev_set_next _ _ _ _ _ _ Hh1).
Qed.

Lemma sl_init_spec hd tl :
  hd ≠ tl →
  ∃ s, sl_init T_min T_max hd tl = Some s ∧
    repr m_less T_min s (λ _, []) ∧ m_head s = hd ∧ m_tail s = tl ∧
    m_size s = 0%Z.
Proof.
  intros Hne. unfold sl_init, assert. rewrite decide_True by done.
  cbn [mbind option_bind].
  set (h0 := <[tl := new_node T_max max_levels]>
               (<[hd := new_node T_min max_levels]> ∅)).
  assert (∀ a L, get_next h0 a L =
            if decide (a = hd ∨ a = tl)
            then (if decide (L ≤ max_levels) then Some None else None)
            else None) as Hn0.
  { intros a L. unfold h0. rewrite !get_next_alloc.
    repeat case_decide; try done; naive_solver. }
  assert (∀ a, get_value h0 a =
            if decide (a = tl) then Some T_max
            else if decide (a = hd) then Some T_min else None) as Hv0.
  { intros a. unfold h0. rewrite !get_value_alloc. by repeat case_decide. }
  assert (∀ a, get_level h0 a =
            if decide (a = hd ∨ a = tl) then Some max_levels else None) as Hk0.
  { intros a. unfold h0. rewrite !get_level_alloc.
    repeat case_decide; try done; naive_solver. }
  destruct (init_links_spec hd tl (S max_levels) 0 h0 Hne)
    as (h1 & Hh1 & Hn1 & Hv1 & Hk1 & Hp1).
  { intros L HL. rewrite !Hn0. rewrite !decide_True by (eauto || lia). eauto. }
  rewrite Hh1. cbn [mbind option_bind].
  destruct (set_prev_is_Some h1 hd None) as [h2 Hh2].
  { rewrite Hv1, Hv0. repeat case_decide; eauto; done. }
  rewrite Hh2. cbn [mbind option_bind].
  destruct (set_prev_is_Some h2 tl (Some hd)) as [h3 Hh3].
  { rewrite (get_value_set_prev _ _ _ _ _ Hh2), Hv1, Hv0.
    rewrite decide_True by done. eauto. }
  rewrite Hh3. cbn [mbind option_bind].
  eexists. split; [reflexivity|]. split; [|done].
  assert (∀ a L, get_next h3 a L = get_next h1 a L) as Hn3.
  { intros. by rewrite (get_next_set_prev _ _ _ _ _ _ Hh3),
      (get_next_set_prev _ _ _ _ _ _ Hh2). }
  assert (∀ a, get_value h3 a = get_value h0 a) as Hv3.
  { intros. by rewrite (get_value_set_prev _ _ _ _ _ Hh3),
      (get_value_set_prev _ _ _ _ _ Hh2). }
  assert (∀ a, get_level h3 a = get_level h0 a) as Hk3.
  { intros. by rewrite (get_level_set_prev _ _ _ _ _ Hh3),
      (get_level_set_prev _ _ _ _ _ Hh2). }
  constructor; cbn [m_heap m_head m_tail m_levels m_size].
  - done.
  - done.
  - rewrite Hv3, Hv0. rewrite decide_False by done. by rewrite decide_True.
  - rewrite Hk3, Hk0. by rewrite decide_True by eauto.
  - rewrite Hk3, Hk0. by rewrite decide_True by eauto.
  - intros L HL. split; [done|]. rewrite last_addr_nil, Hn3, Hn1.
    by rewrite decide_True by (split; [lia|done]).
  - intros L HL. apply NoDup_singleton.
  - intros L HL. constructor.
  - intros L a HL. rewrite Hk3, Hk0. split; [by intros ?%elem_of_nil|].
    intros (? & ? & k & Hk & _). rewrite decide_False in Hk by naive_solver. done.
  - intros a k ? ?. rewrite Hk3, Hk0. by rewrite decide_False by naive_solver.
  - done.
  - rewrite last_addr_nil. rewrite (get_prev_set_prev _ _ _ _ _ Hh3).
    by rewrite decide_True.
  - done.
Qed.

End InitSpec.

(** ** The descent of [remove] *)

Section SplitFacts.
Context {T : Type} (m_less : T → T → bool).
Implicit Types (l : list (addr * T)).

(** A list splits in one way only into elements below [v] followed by an
    element that is not. *)
Lemma split_unique v l1 l2 a1 a2 :
  l1 ++ l2 = a1 ++ a2 →
  Forall (λ q, m_less q.2 v = true) l1 →
  Forall (λ q, m_less q.2 v = true) a1 →
  head_not_less m_less v l2 → head_not_less m_less v a2 →
  l1 = a1 ∧ l2 = a2.
Proof.
  revert a1. induction l1 as [|q l1 IH]; intros [|r a1] Heq H1 Ha1 H2 Ha2;
    simpl in *.
  - done.
  - subst l2. simpl in H2. apply Forall_cons in Ha1 as [Hr _]. congruence.
  - destruct a2 as [|r a2]; [done|]. injection Heq as <- _. simpl in Ha2.
    apply Forall_cons in H1 as [Hq _]. congruence.
  - injection Heq as <- Heq.
    apply Forall_cons in H1 as [_ H1]. apply Forall_cons in Ha1 as [_ Ha1].
    destruct (IH a1 Heq H1 Ha1 H2 Ha2) as [-> ->]. done.
Qed.

Lemma remove_addr_sorted n l :
  non_decreasing m_less l.*2 → non_decreasing m_less (remove_addr n l).*2.
Proof.
  unfold non_decreasing. induction l as [|[b w] l IH]; simpl; [done|].
  intros [Hs Hall]%StronglySorted_inv. case_decide; [by apply IH|].
  rewrite fmap_cons. constructor; [by apply IH|].
  by apply remove_addr_Forall.
Qed.

End SplitFacts.

Section RemoveLoop.
Context {T : Type} (m_less : T → T → bool).
Hypothesis Hswo : strict_weak_order m_less.
Variables (tl hd n : addr) (v : T) (fuel : nat).
Variable c : nat → list (addr * T).
Variable K : nat.
Hypothesis Hnodup : ∀ L, L ≤ K → NoDup (hd :: (c L).*1).
Hypothesis Hsorted : ∀ L, L ≤ K → non_decreasing m_less (c L).*2.
Hypothesis Hfuel : ∀ L, L ≤ K → length (c L) < fuel.
Hypothesis Hsub : ∀ L p, L < K → p ∈ c (S L) → p ∈ c L.
Hypothesis Hntl : n ≠ tl.
Hypothesis Hfirst : ∀ L l1 l2, L ≤ K →
  c L = l1 ++ (n, v) :: l2 → Forall (λ q, m_less q.2 v = true) l1.

(** One round of the [for]-loop, at level [L]. *)
Lemma remove_step L h pre post :
  L ≤ K → chain h tl L hd (c L) → get_value h n = Some v →
  (∃ k, get_level h hd = Some k ∧ L ≤ k) →
  c L = pre ++ post → Forall (λ p, m_less p.2 v = true) pre →
  ∃ lv curr' nx h1 l1 l2,
    get_level h (last_addr hd pre) = Some lv ∧ L ≤ lv ∧
    remove_scan m_less fuel h tl L v (last_addr hd pre) = Some curr' ∧
    get_next h curr' L = Some nx ∧
    (if decide (nx = Some n) then
       nn ← get_next h n L; set_next h curr' L nn
     else Some h) = Some h1 ∧
    c L = l1 ++ l2 ∧
    Forall (λ p, m_less p.2 v = true) l1 ∧
    curr' = last_addr hd l1 ∧
    chain h1 tl L hd (remove_addr n (c L)) ∧
    (∀ a, get_value h1 a = get_value h a) ∧
    (∀ a, get_level h1 a = get_level h a) ∧
    (∀ a, get_prev h1 a = get_prev h a) ∧
    (∀ a L', L' ≠ L → get_next h1 a L' = get_next h a L').
Proof.
  intros HL Hch Hv Hhd Hc Hpre.
  pose proof Hch as [Hseg _].
  assert (∃ lv, get_level h (last_addr hd pre) = Some lv ∧ L ≤ lv)
    as (lv & Hlv & HLlv).
  { destruct (last_addr_cases hd pre) as [[-> ->]|(pre' & w & Hpre')]; [done|].
    assert ((last_addr hd pre, w) ∈ c L) as Hin.
    { rewrite Hc. rewrite Hpre' at 2. set_solver. }
    by destruct (lseg_elem _ _ _ _ _ _ _ Hseg Hin) as (_ & _ & ?). }
  exists lv.
  pose proof Hch as Hch0. rewrite Hc in Hch0.
  apply chain_app in Hch0 as [Hs1 Hs2].
  destruct (remove_scan_spec m_less h tl L v post (last_addr hd pre) fuel)
    as (m & l2 & -> & Hm & Hl2 & Hscan); [done| |].
  { pose proof (Hfuel L HL) as Hf. rewrite Hc, length_app in Hf. lia. }
  rewrite <-last_addr_app in Hscan.
  remember (pre ++ m) as l1 eqn:El1. rewrite app_assoc, <-El1 in Hc.
  assert (Forall (λ p, m_less p.2 v = true) l1) as Hl1.
  { subst l1. by apply Forall_app. }
  clear El1 Hs1 Hs2.
  pose proof Hch as Hch1. rewrite Hc in Hch1.
  apply chain_app in Hch1 as [Hs1 Hch1].
  destruct (chain_next _ _ _ _ _ Hch1) as [y Hy].
  exists (last_addr hd l1), (Some y).
  destruct (decide (n ∈ (c L).*1)) as [Hin|Hnin].
  - apply list_elem_of_fmap in Hin as ([n' w] & -> & Hin). simpl in *.
    assert (w = v) as ->.
    { destruct (lseg_elem _ _ _ _ _ _ _ Hseg Hin) as (_ & Hw & _). congruence. }
    apply list_elem_of_split in Hin as (a1 & a2 & Ha).
    pose proof (Hfirst L a1 a2 HL Ha) as Ha1.
    destruct (split_unique m_less v l1 l2 a1 ((n', v) :: a2)) as [-> ->];
      try done.
    { congruence. }
    { simpl. apply (swo_irrefl _ Hswo). }
    destruct Hch1 as [(Hxn & _ & _ & _ & Hs2) He2].
    rewrite last_addr_cons in He2.
    destruct (chain_next h tl L n' a2 (conj Hs2 He2)) as [y' Hy'].
    assert (y = n') as -> by congruence.
    destruct (set_next_is_Some h (last_addr hd a1) L (Some y')) as [h1 Hh1];
      [by rewrite Hxn|].
    exists h1, a1, ((n', v) :: a2). rewrite decide_True by done.
    rewrite Hy'. cbn [mbind option_bind].
    pose proof (Hnodup L HL) as Hnd. rewrite Ha in Hnd.
    split_and!; try done.
    + assert (NoDup (a1 ++ (n', v) :: a2).*1) as Hnd'
        by by apply NoDup_cons in Hnd as [_ ?].
      rewrite Ha, remove_addr_split by done.
      apply (unsplice_chain h h1 tl L hd a1 a2 n' v).
      * by rewrite <-Ha.
      * done.
      * intros b. rewrite (get_next_set_next _ _ _ _ _ _ _ Hh1).
        destruct (decide (b = last_addr hd a1)) as [->|?].
        -- by rewrite decide_True.
        -- by rewrite decide_False by naive_solver.
      * intros b. by rewrite (get_value_set_next _ _ _ _ _ _ Hh1).
      * intros b. by rewrite (get_level_set_next _ _ _ _ _ _ Hh1).
    + intros b. by rewrite (get_value_set_next _ _ _ _ _ _ Hh1).
    + intros b. by rewrite (get_level_set_next _ _ _ _ _ _ Hh1).
    + intros b. by rewrite (get_prev_set_next _ _ _ _ _ _ Hh1).
    + intros b L' HL'. rewrite (get_next_set_next _ _ _ _ _ _ _ Hh1).
      by rewrite decide_False by naive_solver.
  - exists h, l1, l2.
    assert (y ≠ n) as Hyn.
    { intros ->. destruct l2 as [|[y' w] l2'].
      - destruct Hch1 as [_ He]. rewrite last_addr_nil in He. congruence.
      - destruct Hch1 as [(Hxn & _) _]. assert (y' = n) as -> by congruence.
        apply Hnin. rewrite Hc, fmap_app, fmap_cons. set_solver. }
    rewrite decide_False by congruence.
    rewrite remove_addr_notin by done. by split_and!.
Qed.

Lemma remove_loop_unfold level h curr :
  remove_loop m_less (S level) fuel tl n h curr =
  lv ← get_level h curr;
  _ ← assert (level ≤ lv);
  value ← get_value h n;
  curr' ← remove_scan m_less fuel h tl level value curr;
  nx ← get_next h curr' level;
  h' ← (if decide (nx = Some n) then
          nn ← get_next h n level; set_next h curr' level nn
        else Some h);
  remove_loop m_less level fuel tl n h' curr'.
Proof. done. Qed.

Lemma remove_loop_spec k : k ≤ K → ∀ h pre post,
  (∀ L, L ≤ k → chain h tl L hd (c L)) →
  get_value h n = Some v →
  (∃ lv, get_level h hd = Some lv ∧ k ≤ lv) →
  c k = pre ++ post → Forall (λ p, m_less p.2 v = true) pre →
  ∃ h',
    remove_loop m_less (S k) fuel tl n h (last_addr hd pre) = Some h' ∧
    (∀ a, get_value h' a = get_value h a) ∧
    (∀ a, get_level h' a = get_level h a) ∧
    (∀ a, get_prev h' a = get_prev h a) ∧
    (∀ a L, k < L → get_next h' a L = get_next h a L) ∧
    (∀ L, L ≤ k → chain h' tl L hd (remove_addr n (c L))).
Proof.
  induction k as [|k IH]; intros Hk h pre post Hch Hv Hhd Hc Hpre.
  - destruct (remove_step 0 h pre post) as
      (lv & curr' & nx & h1 & l1 & l2 & Hlv & HLlv & Hscan & Hnx & Hspl & Hc' &
       Hl1 & Hcurr & Hch1 & Hv1 & Hk1 & Hp1 & Hn1); try done; [by apply Hch|].
    exists h1. rewrite remove_loop_unfold, Hlv. cbn [mbind option_bind].
    unfold assert. rewrite decide_True by done. cbn [mbind option_bind].
    rewrite Hv. cbn [mbind option_bind]. rewrite Hscan. cbn [mbind option_bind].
    rewrite Hnx. cbn [mbind option_bind]. rewrite Hspl. cbn [mbind option_bind].
    split_and!; try done.
    + intros a L HL. apply Hn1. lia.
    + intros L HL. by assert (L = 0) as -> by lia.
  - destruct (remove_step (S k) h pre post) as
      (lv & curr' & nx & h1 & l1 & l2 & Hlv & HLlv & Hscan & Hnx & Hspl & Hc' &
       Hl1 & Hcurr & Hch1 & Hv1 & Hk1 & Hp1 & Hn1); try done; [by apply Hch|].
    destruct (descend_position m_less Hswo hd v c K Hsorted Hsub k l1 l2)
      as (pre' & post' & Hc'' & Hla & Hpre'); [lia|done|done|].
    destruct (IH ltac:(lia) h1 pre' post') as
      (h' & Hloop & Hv' & Hk' & Hp' & Hn' & Hlev'); try done.
    { intros L HL. apply (chain_frame h); [| |apply Hch; lia].
      - intros a _. apply Hn1. lia.
      - intros a _. by rewrite Hv1, Hk1. }
    { by rewrite Hv1. }
    { rewrite Hk1. destruct Hhd as (lv' & ? & ?). exists lv'. split; [done|lia]. }
    exists h'. rewrite remove_loop_unfold, Hlv. cbn [mbind option_bind].
    unfold assert. rewrite decide_True by done. cbn [mbind option_bind].
    rewrite Hv. cbn [mbind option_bind]. rewrite Hscan. cbn [mbind option_bind].
    rewrite Hnx. cbn [mbind option_bind]. rewrite Hspl. cbn [mbind option_bind].
    rewrite Hcurr, <-Hla. split_and!; try done.
    + intros a. by rewrite Hv', Hv1.
    + intros a. by rewrite Hk', Hk1.
    + intros a. by rewrite Hp', Hp1.
    + intros a L HL. rewrite Hn' by lia. apply Hn1. lia.
    + intros L HL. destruct (decide (L = S k)) as [->|HLk].
      * apply (chain_frame h1); [| |done].
        -- intros a _. apply Hn'. lia.
        -- intros a _. by rewrite Hv', Hk'.
      * apply Hlev'. lia.
Qed.

End RemoveLoop.

(** ** [remove] on a represented state *)

Section RemoveSpec.
Context {T : Type} (m_less : T → T → bool) (T_min : T).
Hypothesis Hswo : strict_weak_order m_less.
Implicit Types (s : sl_impl T) (c : nat → list (addr * T)).

Lemma no_equal_predecessor_leads s c n v :
  repr m_less T_min s c → no_equal_predecessor m_less s n →
  leads_equals m_less c n v.
Proof.
  intros Hr Hpred L l1 l2 HL Hc. apply (Hpred L l1 l2 v HL).
  rewrite <-Hc. by apply (repr_chain _ _ _ _ Hr).
Qed.

Lemma remove_spec s c n v :
  repr m_less T_min s c → (n, v) ∈ c 0 → leads_equals m_less c n v →
  ∃ s', remove m_less s (Some n) = Some s' ∧
    repr m_less T_min s' (λ L, remove_addr n (c L)) ∧
    m_size s' = ((m_size s - 1) mod size_modulus)%Z ∧
    m_heap s' !! n = None ∧
    m_head s' = m_head s ∧ m_tail s' = m_tail s.
Proof.
  intros Hr Hin Hfirst. destruct s as [h lvs sz hd tl].
  pose proof (repr_head_level _ _ _ _ Hr) as Hhl.
  pose proof (repr_tail_level _ _ _ _ Hr) as Htll.
  pose proof (repr_ends _ _ _ _ Hr) as Hends.
  pose proof (repr_levels _ _ _ _ Hr) as Hlvs.
  pose proof (repr_chain _ _ _ _ Hr 0 ltac:(lia)) as Hch0.
  pose proof (repr_nodup _ _ _ _ Hr 0 ltac:(lia)) as Hnd0.
  pose proof (repr_back _ _ _ _ Hr) as Hb.
  pose proof (repr_back_tail _ _ _ _ Hr) as Hbt.
  cbn [m_heap m_head m_tail m_levels m_size] in *. subst lvs.
  pose proof Hin as Hin'.
  apply list_elem_of_split in Hin' as (l1 & l2 & Hc0).
  rewrite Hc0 in Hch0, Hnd0, Hb, Hbt.
  pose proof Hch0 as Hch0'.
  apply chain_app in Hch0' as [Hs1 [(Hxn & Hntl & Hv & (nl & Hnl & _) & Hs2) He2]].
  rewrite last_addr_cons in He2.
  destruct (chain_next h tl 0 n l2 (conj Hs2 He2)) as [y Hy].
  assert (n ≠ hd) as Hnhd.
  { intros ->. apply NoDup_cons in Hnd0 as [Hnd0 _]. apply Hnd0.
    rewrite fmap_app, fmap_cons. set_solver. }
  apply back_seg_app in Hb as [Hb1 [Hbn Hb2]].
  unfold remove. cbn [m_heap m_head m_tail m_levels m_size mbind option_bind].
  rewrite Hy. cbn [mbind option_bind]. unfold assert.
  rewrite !decide_True by done. cbn [mbind option_bind].
  rewrite Hbn. cbn [mbind option_bind].
  assert (y ≠ n ∧ is_Some (get_value h y) ∧
          (l2 = [] ∧ y = tl ∨ ∃ w l2', l2 = (y, w) :: l2')) as (Hyn & Hyv & Hycase).
  { destruct l2 as [|[y' w] l2'].
    - rewrite last_addr_nil in He2. assert (y = tl) as -> by congruence.
      split_and!; [done| |by left]. apply get_value_level. rewrite Htll. eauto.
    - destruct Hs2 as (Hy' & _ & Hvy & _). assert (y' = y) as -> by congruence.
      split_and!; [|rewrite Hvy; eauto|right; eauto].
      intros ->. rewrite fmap_app, !fmap_cons in Hnd0.
      apply NoDup_cons in Hnd0 as [_ Hnd0].
      apply NoDup_app in Hnd0 as (_ & _ & Hnd0).
      apply NoDup_cons in Hnd0 as [Hnd0 _]. set_solver. }
  destruct (set_prev_is_Some h y (Some (last_addr hd l1)) Hyv) as [h1 Hh1].
  rewrite Hh1. cbn [mbind option_bind].
  destruct (remove_loop_spec m_less Hswo tl hd n v (S (base.size h1)) c
              max_levels) with (k := max_levels) (h := h1)
              (pre := @nil (addr * T)) (post := c max_levels)
    as (h2 & Hloop & Hv2 & Hk2 & Hp2 & Hn2 & Hlev).
  { by apply (repr_nodup _ _ _ _ Hr). }
  { by apply (repr_sorted _ _ _ _ Hr). }
  { intros L HL. pose proof (repr_length _ _ _ _ L Hr HL) as Hlen.
    cbn [m_heap] in Hlen. rewrite (size_set_prev _ _ _ _ Hh1). lia. }
  { intros L q HL. by apply (repr_sub _ _ _ _ _ _ Hr). }
  { done. }
  { intros L a1 a2 HL. by apply Hfirst. }
  { done. }
  { intros L HL. apply (chain_frame h); [| |by apply (repr_chain _ _ _ _ Hr)].
    - intros a _. by rewrite (get_next_set_prev _ _ _ _ _ _ Hh1).
    - intros a _. by rewrite (get_value_set_prev _ _ _ _ _ Hh1),
        (get_level_set_prev _ _ _ _ _ Hh1). }
  { by rewrite (get_value_set_prev _ _ _ _ _ Hh1). }
  { rewrite (get_level_set_prev _ _ _ _ _ Hh1). eauto. }
  { done. }
  { done. }
  change (last_addr hd []) with hd in Hloop. rewrite Hloop.
  cbn [mbind option_bind].
  assert (is_Some (h2 !! n)) as [nd Hnd].
  { specialize (Hk2 n). rewrite (get_level_set_prev _ _ _ _ _ Hh1), Hnl in Hk2.
    unfold get_level in Hk2. destruct (h2 !! n); [eauto|done]. }
  rewrite Hnd. cbn [mbind option_bind].
  eexists. split; [reflexivity|]. cbn [m_size m_head m_tail m_heap].
  split; [|split_and!; try done; apply lookup_delete_eq].
  assert (∀ a, get_value (delete n h2) a =
            if decide (a = n) then None else get_value h a) as Hv3.
  { intros a. rewrite get_value_delete. case_decide; [done|].
    by rewrite Hv2, (get_value_set_prev _ _ _ _ _ Hh1). }
  assert (∀ a, get_level (delete n h2) a =
            if decide (a = n) then None else get_level h a) as Hk3.
  { intros a. rewrite get_level_delete. case_decide; [done|].
    by rewrite Hk2, (get_level_set_prev _ _ _ _ _ Hh1). }
  assert (∀ a, a ≠ n → get_prev (delete n h2) a =
            if decide (a = y) then Some (Some (last_addr hd l1))
            else get_prev h a) as Hp3.
  { intros a Ha. rewrite get_prev_delete, decide_False by done.
    by rewrite Hp2, (get_prev_set_prev _ _ _ _ _ Hh1). }
  assert (∀ a L, a ≠ n → get_next (delete n h2) a L = get_next h2 a L) as Hn3.
  { intros a L Ha. by rewrite get_next_delete, decide_False. }
  assert (remove_addr n (c 0) = l1 ++ l2) as Hrm0.
  { rewrite Hc0. apply remove_addr_split. by eapply NoDup_cons_1_2. }
  assert (NoDup (hd :: l1.*1) ∧ (∀ a, a ∈ hd :: l1.*1 → a ∉ n :: l2.*1) ∧
          (n ∉ l2.*1) ∧ NoDup l2.*1) as (Hnd1 & Hdis & Hnl2 & Hnd2).
  { rewrite fmap_app, fmap_cons, app_comm_cons in Hnd0.
    apply NoDup_app in Hnd0 as (? & ? & Hnd0).
    apply NoDup_cons in Hnd0 as [? ?]. done. }
  constructor; cbn [m_heap m_head m_tail m_levels m_size].
  - done.
  - done.
  - rewrite Hv3, decide_False by done. apply (repr_head_value _ _ _ _ Hr).
  - by rewrite Hk3, decide_False.
  - by rewrite Hk3, decide_False.
  - intros L HL. apply (chain_frame h2); [| |by apply Hlev].
    + intros a Ha. apply Hn3. intros ->.
      apply elem_of_cons in Ha as [?|Ha]; [done|].
      apply remove_addr_elem in Ha as [_ ?]. done.
    + intros a Ha. apply remove_addr_elem in Ha as [_ Ha].
      rewrite Hv3, Hk3, !decide_False by done.
      by rewrite Hv2, Hk2, (get_value_set_prev _ _ _ _ _ Hh1),
        (get_level_set_prev _ _ _ _ _ Hh1).
  - intros L HL. apply remove_addr_NoDup. by apply (repr_nodup _ _ _ _ Hr).
  - intros L HL. apply remove_addr_sorted. by apply (repr_sorted _ _ _ _ Hr).
  - intros L a HL. rewrite remove_addr_elem, Hk3.
    pose proof (repr_mem _ _ _ _ Hr L a HL) as Hmem.
    cbn [m_heap m_head m_tail] in Hmem. rewrite Hmem.
    case_decide; [|naive_solver]. subst. split; [naive_solver|].
    by intros (_ & _ & k & ? & _).
  - intros a k Hahd Hatl. rewrite Hk3. case_decide; [done|].
    by apply (repr_node_level _ _ _ _ Hr).
  - rewrite Hrm0. apply back_seg_app. split.
    + apply (back_seg_frame h); [|done]. intros a Ha.
      assert (a ∉ n :: l2.*1) as Hna by (apply Hdis; set_solver).
      rewrite Hp3 by set_solver. rewrite decide_False; [done|].
      intros ->. destruct Hycase as [[-> ->]|(w & l2' & ->)].
      * by destruct (lseg_elem_fst _ _ _ _ _ _ Hs1 Ha) as (? & _ & ? & _).
      * apply Hna. rewrite fmap_cons. set_solver.
    + destruct Hycase as [[-> ->]|(w & l2' & ->)]; [done|].
      simpl. rewrite Hp3, decide_True by done. split; [done|].
      destruct Hb2 as [_ Hb2]. rewrite fmap_cons in Hnd2, Hnl2.
      apply NoDup_cons in Hnd2 as [Hy2 Hnd2].
      apply (back_seg_frame h); [|done]. intros a Ha.
      rewrite Hp3 by set_solver. rewrite decide_False; [done|]. by intros ->.
  - rewrite Hrm0, Hp3 by done.
    destruct Hycase as [[-> ->]|(w & l2' & ->)].
    + rewrite decide_True by done. by rewrite app_nil_r.
    + destruct Hs2 as (_ & Hytl & _). rewrite decide_False by done.
      rewrite Hbt. by rewrite !last_addr_app, !last_addr_cons.
  - pose proof (repr_size _ _ _ _ Hr) as Hsz. cbn [m_size] in Hsz.
    rewrite Hrm0, Hsz, Hc0, !length_app. cbn [length].
    rewrite Zminus_mod_idemp_l. f_equal. lia.
Qed.

End RemoveSpec.

(** ** [remove_all] *)

Section RemoveAll.
Context {T : Type}.
Implicit Types (h : gmap addr (sl_node T)) (l : list (addr * T)).

Lemma reset_head_inv hd tl n : ∀ i h h',
  reset_head n i hd tl h = Some h' →
  (∀ a L, get_next h' a L =
     if decide (a = hd ∧ i ≤ L < i + n) then Some (Some tl)
     else get_next h a L) ∧
  (∀ a, get_value h' a = get_value h a) ∧
  (∀ a, get_level h' a = get_level h a) ∧
  (∀ a, get_prev h' a = get_prev h a).
Proof.
  induction n as [|n IH]; intros i h h'; simpl.
  - intros [= <-]. split_and!; try done. intros a L.
    by rewrite decide_False by lia.
  - destruct (set_next h hd i (Some tl)) as [h1|] eqn:Hh1; [|done]. simpl.
    intros (Hn & Hv & Hk & Hp)%IH. split_and!.
    + intros a L. rewrite Hn, (get_next_set_next _ _ _ _ _ _ _ Hh1).
      repeat case_decide; try done; exfalso; naive_solver lia.
    + intros a. by rewrite Hv, (get_value_set_next _ _ _ _ _ _ Hh1).
    + intros a. by rewrite Hk, (get_level_set_next _ _ _ _ _ _ Hh1).
    + intros a. by rewrite Hp, (get_prev_set_next _ _ _ _ _ _ Hh1).
Qed.

Lemma reset_head_is_Some hd tl n : ∀ i h,
  (∀ L, i ≤ L < i + n → is_Some (get_next h hd L)) →
  is_Some (reset_head n i hd tl h).
Proof.
  induction n as [|n IH]; intros i h Hs; simpl; [eauto|].
  destruct (set_next_is_Some h hd i (Some tl)) as [h1 Hh1]; [apply Hs; lia|].
  rewrite Hh1. simpl. apply IH. intros L HL.
  rewrite (get_next_set_next _ _ _ _ _ _ _ Hh1). case_decide; [eauto|].
  apply Hs. lia.
Qed.

(** The freeing loop deallocates exactly the nodes of the bottom chain. *)
Lemma free_chain_spec tl l : ∀ x h h' nx fuel,
  chain h tl 0 x l → NoDup l.*1 → get_next h x 0 = Some nx →
  (∀ a, a ∈ l.*1 → get_next h' a 0 = get_next h a 0) →
  length l < fuel →
  ∃ h'', free_chain fuel h' tl nx = Some h'' ∧
    ∀ a, h'' !! a = if decide (a ∈ l.*1) then None else h' !! a.
Proof.
  induction l as [|[y v] l IH]; intros x h h' nx fuel Hch Hnd Hx Hsame Hf;
    (destruct fuel as [|fuel]; [simpl in Hf; lia|]).
  - destruct Hch as [_ He]. rewrite last_addr_nil in He.
    assert (nx = Some tl) as -> by congruence.
    exists h'. cbn [free_chain]. rewrite decide_True by done. split; [done|].
    intros a. rewrite decide_False; [done|]. by intros ?%elem_of_nil.
  - destruct Hch as [(Hxy & Hy & Hv & Hk & Hs) He].
    rewrite last_addr_cons in He.
    assert (nx = Some y) as -> by congruence.
    rewrite fmap_cons in Hnd. apply NoDup_cons in Hnd as [Hyl Hnd].
    destruct (chain_next h tl 0 y l (conj Hs He)) as [ny Hny].
    cbn [free_chain]. rewrite decide_False by congruence.
    cbn [mbind option_bind].
    rewrite Hsame, Hny by set_solver. cbn [mbind option_bind].
    destruct (IH y h (delete y h') (Some ny) fuel) as (h'' & Hfree & Hh'');
      try done.
    { intros a Ha. rewrite get_next_delete, decide_False; [|by intros ->].
      apply Hsame. set_solver. }
    { simpl in Hf. lia. }
    exists h''. split; [done|]. intros a. rewrite Hh''.
    change (((y, v) :: l).*1) with (y :: l.*1).
    destruct (decide (a = y)) as [->|Hay].
    + rewrite lookup_delete_eq. rewrite (decide_True (P := y ∈ y :: l.*1)) by set_solver.
      by case_decide.
    + rewrite lookup_delete_ne by done.
      destruct (decide (a ∈ l.*1)).
      * by rewrite decide_True by set_solver.
      * by rewrite decide_False by set_solver.
Qed.

(** Whenever [remove_all] runs to its end the engine looks empty. *)
Lemma remove_all_inv (s s' : sl_impl T) :
  remove_all s = Some s' →
  m_size s' = 0%Z ∧ m_head s' = m_head s ∧ m_tail s' = m_tail s ∧
  m_levels s' = m_levels s ∧
  (∀ L, L ≤ m_levels s →
     get_next (m_heap s') (m_head s) L = Some (Some (m_tail s))) ∧
  get_prev (m_heap s') (m_tail s) = Some (Some (m_head s)).
Proof.
  unfold remove_all.
  destruct (get_next (m_heap s) (m_head s) 0) as [nx|]; [|done].
  cbn [mbind option_bind].
  destruct (free_chain (S (base.size (m_heap s))) (m_heap s) (m_tail s) nx)
    as [h1|]; [|done].
  cbn [mbind option_bind].
  destruct (reset_head (S (m_levels s)) 0 (m_head s) (m_tail s) h1)
    as [h2|] eqn:Hh2; [|done].
  cbn [mbind option_bind].
  destruct (set_prev h2 (m_tail s) (Some (m_head s))) as [h3|] eqn:Hh3; [|done].
  cbn [mbind option_bind].
  intros [= <-]. cbn [m_size m_head m_tail m_levels m_heap].
  split_and!; try done.
  - intros L HL. rewrite (get_next_set_prev _ _ _ _ _ _ Hh3).
    apply reset_head_inv in Hh2 as (Hn & _). rewrite Hn.
    by rewrite decide_True by (split; [done|lia]).
  - rewrite (get_prev_set_prev _ _ _ _ _ Hh3). by rewrite decide_True.
Qed.

End RemoveAll.

Section RemoveAllSpec.
Context {T : Type} (m_less : T → T → bool) (T_min : T).
Implicit Types (s : sl_impl T) (c : nat → list (addr * T)).

Lemma remove_all_spec s c :
  repr m_less T_min s c →
  ∃ s', remove_all s = Some s' ∧ repr m_less T_min s' (λ _, []) ∧
    (∀ a, a ≠ m_head s → a ≠ m_tail s → m_heap s' !! a = None).
Proof.
  intros Hr. destruct s as [h lvs sz hd tl].
  pose proof (repr_head_level _ _ _ _ Hr) as Hhl.
  pose proof (repr_tail_level _ _ _ _ Hr) as Htll.
  pose proof (repr_ends _ _ _ _ Hr) as Hends.
  pose proof (repr_levels _ _ _ _ Hr) as Hlvs.
  pose proof (repr_chain _ _ _ _ Hr 0 ltac:(lia)) as Hch0.
  pose proof (repr_nodup _ _ _ _ Hr 0 ltac:(lia)) as Hnd0.
  cbn [m_heap m_head m_tail m_levels m_size] in *. subst lvs.
  apply NoDup_cons in Hnd0 as [Hhd0 Hnd0].
  destruct (chain_next _ _ _ _ _ Hch0) as [y Hy].
  unfold remove_all. cbn [m_heap m_head m_tail m_levels m_size].
  rewrite Hy. cbn [mbind option_bind].
  destruct (free_chain_spec tl (c 0) hd h h (Some y) (S (base.size h)))
    as (h1 & Hfree & Hh1); try done.
  { pose proof (repr_length _ _ _ _ 0 Hr ltac:(lia)) as Hlen.
    cbn [m_heap] in Hlen. lia. }
  rewrite Hfree. cbn [mbind option_bind].
  assert (∀ a, a = hd ∨ a = tl → h1 !! a = h !! a) as Hsent.
  { intros a Ha. rewrite Hh1, decide_False; [done|]. intros Hin.
    apply (repr_mem _ _ _ _ Hr) in Hin as (? & ? & _); [|lia]. naive_solver. }
  assert (∀ a, a ≠ hd → a ≠ tl → h1 !! a = None) as Hgone.
  { intros a Hahd Hatl. rewrite Hh1. case_decide as Hin; [done|].
    destruct (h !! a) as [nd|] eqn:Hnd; [|done]. exfalso. apply Hin.
    apply (repr_mem _ _ _ _ Hr); [lia|]. cbn [m_heap m_head m_tail].
    split_and!; try done. exists (m_level nd). split; [|lia].
    unfold get_level. by rewrite Hnd. }
  destruct (reset_head_is_Some hd tl (S max_levels) 0 h1) as [h2 Hh2].
  { intros L HL. unfold get_next. rewrite Hsent by eauto.
    destruct (chain_next _ _ _ _ _ (repr_chain _ _ _ _ Hr L ltac:(lia))) as [z Hz].
    cbn [m_heap m_head] in Hz. unfold get_next in Hz. rewrite Hz. eauto. }
  rewrite Hh2. cbn [mbind option_bind].
  pose proof (reset_head_inv _ _ _ _ _ _ Hh2) as (Hn2 & Hv2 & Hk2 & Hp2).
  destruct (set_prev_is_Some h2 tl (Some hd)) as [h3 Hh3].
  { rewrite Hv2. apply get_value_level. unfold get_level.
    rewrite Hsent by eauto. fold (get_level h tl). rewrite Htll. eauto. }
  rewrite Hh3. cbn [mbind option_bind].
  eexists. split; [reflexivity|].
  assert (∀ a, get_level h3 a = get_level h1 a) as Hk3.
  { intros a. by rewrite (get_level_set_prev _ _ _ _ _ Hh3), Hk2. }
  assert (∀ a, get_value h3 a = get_value h1 a) as Hv3.
  { intros a. by rewrite (get_value_set_prev _ _ _ _ _ Hh3), Hv2. }
  split.
  - constructor; cbn [m_heap m_head m_tail m_levels m_size].
    + done.
    + done.
    + rewrite Hv3. unfold get_value. rewrite Hsent by eauto.
      apply (repr_head_value _ _ _ _ Hr).
    + rewrite Hk3. unfold get_level. rewrite Hsent by eauto. done.
    + rewrite Hk3. unfold get_level. rewrite Hsent by eauto. done.
    + intros L HL. split; [done|]. rewrite last_addr_nil.
      rewrite (get_next_set_prev _ _ _ _ _ _ Hh3), Hn2.
      by rewrite decide_True by (split; [done|lia]).
    + intros L HL. apply NoDup_singleton.
    + intros L HL. constructor.
    + intros L a HL. split; [by intros ?%elem_of_nil|].
      intros (? & ? & k & Hk & _). rewrite Hk3 in Hk. unfold get_level in Hk.
      by rewrite Hgone in Hk.
    + intros a k ? ?. rewrite Hk3. unfold get_level. by rewrite Hgone.
    + done.
    + rewrite last_addr_nil, (get_prev_set_prev _ _ _ _ _ Hh3).
      by rewrite decide_True.
    + done.
  - cbn [m_heap m_head m_tail]. intros a Hahd Hatl.
    specialize (Hk3 a). unfold get_level in Hk3. rewrite Hgone in Hk3 by done.
    destruct (h3 !! a); [done|done].
Qed.

End RemoveAllSpec.

(** ** [find] and [find_first] *)

Section FindOrder.
Context {T : Type} (m_less : T → T → bool).
Hypothesis Hswo : strict_weak_order m_less.

Lemma sorted_prefix_le (l1 l2 : list T) w v :
  non_decreasing m_less (l1 ++ w :: l2) → m_less v w = false →
  Forall (λ x, m_less v x = false) l1.
Proof.
  intros Hs Hw. induction l1 as [|y l1 IH]; [done|].
  simpl in Hs. apply StronglySorted_inv in Hs as [Hs Hall].
  constructor; [|by apply IH].
  rewrite Forall_app, Forall_cons in Hall. destruct Hall as (_ & Hyw & _).
  by apply (le_trans m_less Hswo y w v).
Qed.

Lemma sorted_suffix_greater (l1 l2 : list T) w v :
  non_decreasing m_less (l1 ++ w :: l2) → m_less v w = true →
  Forall (λ x, m_less v x = true) l2.
Proof.
  intros Hs Hw. induction l1 as [|y l1 IH].
  - simpl in Hs. apply StronglySorted_inv in Hs as [_ Hall].
    eapply Forall_impl; [exact Hall|]. simpl. intros x Hx.
    by apply (less_le_trans m_less Hswo v w x).
  - simpl in Hs. apply StronglySorted_inv in Hs as [Hs _]. by apply IH.
Qed.

Lemma sorted_before_last (l1 l2 : list T) w :
  non_decreasing m_less (l1 ++ w :: l2) →
  Forall (λ x, m_less w x = false) l1.
Proof.
  intros Hs. induction l1 as [|y l1 IH]; [done|].
  simpl in Hs. apply StronglySorted_inv in Hs as [Hs Hall].
  constructor; [|by apply IH].
  rewrite Forall_app, Forall_cons in Hall. by destruct Hall as (_ & Hyw & _).
Qed.

End FindOrder.

Section FindScan.
Context {T : Type} (m_less : T → T → bool).
Implicit Types (h : gmap addr (sl_node T)) (l : list (addr * T)).

(** The inner loop of [find] walks over nodes that are not above [v] and
    stops on a node equal to [v] or in front of a node above [v]. *)
Lemma find_scan_spec h tl L v l : ∀ x xv fuel,
  chain h tl L x l → get_value h x = Some xv → length l < fuel →
  ∃ l1 l2 rv, l = l1 ++ l2 ∧
    find_scan m_less fuel h tl L v x = Some (last_addr x l1) ∧
    get_value h (last_addr x l1) = Some rv ∧
    Forall (λ p, m_less v p.2 = false) l1 ∧
    (is_equal m_less rv v = true ∨ head_greater m_less v l2).
Proof.
  induction l as [|[y w] l IH]; intros x xv fuel [Hl He] Hxv Hf;
    (destruct fuel as [|fuel]; [simpl in Hf; lia|]).
  - exists [], [], xv. rewrite last_addr_nil in *. split_and!; try done.
    + cbn [find_scan]. rewrite He. cbn [mbind option_bind].
      by rewrite decide_True.
    + by right.
  - destruct Hl as (Hx & Hy & Hv & Hk & Hl). rewrite last_addr_cons in He.
    cbn [find_scan]. rewrite Hx. cbn [mbind option_bind].
    rewrite decide_False by congruence. rewrite Hxv. cbn [mbind option_bind].
    destruct (is_equal m_less xv v) eqn:Heq.
    { exists [], ((y, w) :: l), xv. rewrite last_addr_nil. split_and!; try done.
      by left. }
    rewrite Hv. cbn [mbind option_bind]. unfold is_less_or_equal.
    destruct (m_less v w) eqn:Hvw; cbn [negb].
    + exists [], ((y, w) :: l), xv. rewrite last_addr_nil. split_and!; try done.
      by right.
    + destruct (IH y w fuel) as (l1 & l2 & rv & -> & Hscan & Hrv & Hl1 & Hstop);
        [done|done|simpl in Hf; lia|].
      exists ((y, w) :: l1), l2, rv. rewrite last_addr_cons.
      split_and!; try done. by constructor.
Qed.

End FindScan.

Section FindLoop.
Context {T : Type} (m_less : T → T → bool).
Hypothesis Hswo : strict_weak_order m_less.
Variables (h : gmap addr (sl_node T)) (tl hd : addr) (v : T) (fuel : nat).
Variable c : nat → list (addr * T).
Variable K : nat.
Hypothesis Hsorted : ∀ L, L ≤ K → non_decreasing m_less (c L).*2.
Hypothesis Hsub : ∀ L p, L < K → p ∈ c (S L) → p ∈ c L.
Hypothesis Hfuel : ∀ L, L ≤ K → length (c L) < fuel.
Hypothesis Hchain : ∀ L, L ≤ K → chain h tl L hd (c L).
Hypothesis Hhead : is_Some (get_value h hd).

Lemma descend_position_le L l1 l2 :
  L < K → c (S L) = l1 ++ l2 → Forall (λ p, m_less v p.2 = false) l1 →
  ∃ pre post, c L = pre ++ post ∧ last_addr hd pre = last_addr hd l1 ∧
    Forall (λ p, m_less v p.2 = false) pre.
Proof.
  clear Hfuel Hchain Hhead.
  intros HL Hc Hl1.
  destruct (last_addr_cases hd l1) as [[-> Hla]|(l1' & w & Hl1')].
  { exists [], (c L). by split_and!. }
  remember (last_addr hd l1) as a eqn:Ha. clear Ha.
  assert ((a, w) ∈ c (S L)) as Hin.
  { rewrite Hc, Hl1'. set_solver. }
  apply Hsub in Hin; [|done].
  apply list_elem_of_split in Hin as (p1 & p2 & Hp).
  assert (m_less v w = false) as Hwv.
  { rewrite Hl1', Forall_app, Forall_singleton in Hl1. by destruct Hl1. }
  exists (p1 ++ [(a, w)]), p2. split_and!.
  - by rewrite <-app_assoc.
  - by rewrite last_addr_snoc.
  - rewrite Forall_app, Forall_singleton. split; [|done].
    pose proof (Hsorted L ltac:(lia)) as Hs. rewrite Hp in Hs.
    rewrite fmap_app, fmap_cons in Hs.
    apply (sorted_prefix_le m_less Hswo _ _ _ v) in Hs; [|done].
    by apply Forall_fmap in Hs.
Qed.

(** One round of the [for]-loop of [find], at level [L]. *)
Lemma find_step L pre post :
  L ≤ K → c L = pre ++ post → Forall (λ p, m_less v p.2 = false) pre →
  ∃ l1 l2 rv, c L = l1 ++ l2 ∧
    find_scan m_less fuel h tl L v (last_addr hd pre) =
      Some (last_addr hd l1) ∧
    get_value h (last_addr hd l1) = Some rv ∧
    Forall (λ p, m_less v p.2 = false) l1 ∧
    (is_equal m_less rv v = true ∨ head_greater m_less v l2).
Proof.
  intros HL Hc Hpre.
  pose proof (Hchain L HL) as Hch. pose proof Hch as [Hseg _].
  rewrite Hc in Hch. apply chain_app in Hch as [Hs1 Hs2].
  assert (is_Some (get_value h (last_addr hd pre))) as [xv Hxv].
  { destruct (last_addr_cases hd pre) as [[-> ->]|(pre' & w & Hpre')]; [done|].
    assert ((last_addr hd pre, w) ∈ c L) as Hin.
    { rewrite Hc. rewrite Hpre' at 2. set_solver. }
    destruct (lseg_elem _ _ _ _ _ _ _ Hseg Hin) as (_ & -> & _). eauto. }
  destruct (find_scan_spec m_less h tl L v post (last_addr hd pre) xv fuel)
    as (m & l2 & rv & -> & Hscan & Hrv & Hm & Hstop); [done|done| |].
  { pose proof (Hfuel L HL) as Hf. rewrite Hc, !length_app in Hf. lia. }
  rewrite <-last_addr_app in Hscan, Hrv. rewrite app_assoc in Hc.
  exists (pre ++ m), l2, rv. split_and!; try done. by apply Forall_app.
Qed.

Lemma find_loop_spec k : k ≤ K → ∀ pre post,
  c k = pre ++ post → Forall (λ p, m_less v p.2 = false) pre →
  ∃ l1 l2 rv, c 0 = l1 ++ l2 ∧
    find_loop m_less (S k) fuel h tl v (last_addr hd pre) =
      Some (last_addr hd l1) ∧
    get_value h (last_addr hd l1) = Some rv ∧
    Forall (λ p, m_less v p.2 = false) l1 ∧
    (is_equal m_less rv v = true ∨ head_greater m_less v l2).
Proof.
  induction k as [|k IH]; intros Hk pre post Hc Hpre.
  - destruct (find_step 0 pre post Hk Hc Hpre)
      as (l1 & l2 & rv & Hc0 & Hscan & Hrv & Hl1 & Hstop).
    exists l1, l2, rv. cbn [find_loop]. rewrite Hscan. by split_and!.
  - destruct (find_step (S k) pre post Hk Hc Hpre)
      as (m1 & m2 & rv & Hc1 & Hscan & Hrv & Hm1 & Hstop).
    destruct (descend_position_le k m1 m2) as
      (pre' & post' & Hc' & Hla & Hpre'); [lia|done|done|].
    destruct (IH ltac:(lia) pre' post' Hc' Hpre') as
      (l1 & l2' & rv' & Hc0 & Hloop & Hrv' & Hl1 & Hstop').
    exists l1, l2', rv'. split_and!; try done.
    change (find_loop m_less (S (S k)) fuel h tl v (last_addr hd pre))
      with (find_scan m_less fuel h tl (S k) v (last_addr hd pre) ≫=
              find_loop m_less (S k) fuel h tl v).
    rewrite Hscan. cbn [mbind option_bind]. by rewrite <-Hla.
Qed.

End FindLoop.

(** ** Traversal *)

Section Traversal.
Context {T : Type}.
Implicit Types (h : gmap addr (sl_node T)) (l : list (addr * T)).

Lemma forward_from_spec h tl l : ∀ x nx fuel,
  chain h tl 0 x l → get_next h x 0 = Some nx → length l < fuel →
  forward_from fuel h tl nx = Some l.*1.
Proof.
  induction l as [|[y v] l IH]; intros x nx fuel [Hl He] Hx Hf;
    (destruct fuel as [|fuel]; [simpl in Hf; lia|]).
  - rewrite last_addr_nil in He. assert (nx = Some tl) as -> by congruence.
    cbn [forward_from]. by rewrite decide_True.
  - destruct Hl as (Hxy & Hy & Hv & Hk & Hl). rewrite last_addr_cons in He.
    assert (nx = Some y) as -> by congruence.
    destruct (chain_next h tl 0 y l (conj Hl He)) as [z Hz].
    cbn [forward_from]. rewrite decide_False by congruence.
    cbn [mbind option_bind]. rewrite Hz. cbn [mbind option_bind].
    rewrite (IH y (Some z) fuel); [done|done|done|simpl in Hf; lia].
Qed.

Lemma backward_from_spec h hd l : ∀ fuel,
  back_seg h hd l → hd ∉ l.*1 → length l < fuel →
  backward_from fuel h hd (Some (last_addr hd l)) = Some (reverse l.*1).
Proof.
  induction l as [|[y v] l IH] using rev_ind; intros fuel Hb Hhd Hf;
    (destruct fuel as [|fuel]; [simpl in Hf; lia|]).
  - rewrite last_addr_nil. cbn [backward_from]. by rewrite decide_True.
  - rewrite last_addr_snoc. apply back_seg_app in Hb as [Hb [Hy _]].
    rewrite fmap_app in Hhd. rewrite fmap_app.
    change ([(y, v)].*1) with [y] in *. rewrite reverse_snoc.
    cbn [backward_from]. rewrite decide_False by (intros [= ->]; set_solver).
    cbn [mbind option_bind]. rewrite Hy. cbn [mbind option_bind].
    rewrite IH; [done|done|set_solver|].
    rewrite length_app in Hf. simpl in Hf. lia.
Qed.

Lemma values_of_chain h tl L x l :
  lseg h tl L x l → values_of h l.*1 = Some l.*2.
Proof.
  revert x. induction l as [|[y v] l IH]; intros x Hl; [done|].
  destruct Hl as (_ & _ & Hv & _ & Hl). unfold values_of in *.
  rewrite !fmap_cons. cbn [mapM fst snd]. rewrite Hv.
  cbn [mbind option_bind]. rewrite (IH y Hl). done.
Qed.

End Traversal.

Section TraversalSpec.
Context {T : Type} (m_less : T → T → bool) (T_min : T).
Implicit Types (s : sl_impl T) (c : nat → list (addr * T)).

Lemma forward_spec s c :
  repr m_less T_min s c → forward s = Some (c 0).*1.
Proof.
  intros Hr. unfold forward, front.
  pose proof (repr_chain _ _ _ _ Hr 0 ltac:(lia)) as Hch.
  destruct (chain_next _ _ _ _ _ Hch) as [y Hy]. rewrite Hy.
  cbn [mbind option_bind]. eapply forward_from_spec; [done..|].
  pose proof (repr_length _ _ _ _ 0 Hr ltac:(lia)). lia.
Qed.

Lemma backward_spec s c :
  repr m_less T_min s c → backward s = Some (reverse (c 0).*1).
Proof.
  intros Hr. unfold backward, back. rewrite (repr_back_tail _ _ _ _ Hr).
  cbn [mbind option_bind]. apply backward_from_spec.
  - apply (repr_back _ _ _ _ Hr).
  - pose proof (repr_nodup _ _ _ _ Hr 0 ltac:(lia)) as Hnd.
    by apply NoDup_cons in Hnd as [? _].
  - pose proof (repr_length _ _ _ _ 0 Hr ltac:(lia)). lia.
Qed.

(** On a represented state the backward traversal is the reverse of the
    forward one, node by node and value by value. *)
Lemma traversal_symmetry s c :
  repr m_less T_min s c →
  ∃ fw bw vs,
    forward s = Some fw ∧ backward s = Some bw ∧ bw = reverse fw ∧
    values_of (m_heap s) fw = Some vs ∧
    values_of (m_heap s) bw = Some (reverse vs).
Proof.
  intros Hr. exists (c 0).*1, (reverse (c 0).*1), (c 0).*2.
  pose proof (repr_chain _ _ _ _ Hr 0 ltac:(lia)) as [Hseg _].
  split_and!; [by eapply forward_spec|by eapply backward_spec|done|
               by eapply values_of_chain|].
  apply mapM_Some, Forall2_reverse, mapM_Some. by eapply values_of_chain.
Qed.

End TraversalSpec.

(** ** The comparator of [int] *)

Lemma Z_ltb_strict_weak_order : strict_weak_order Z.ltb.
Proof.
  split.
  - intros x. apply Z.ltb_irrefl.
  - intros x y z ?%Z.ltb_lt ?%Z.ltb_lt. apply Z.ltb_lt. lia.
  - intros x y z. rewrite !is_equal_true, !Z.ltb_ge. lia.
Qed.

(** ** Reachable states are represented *)

Section Reachable.
Context {T : Type} (m_less : T → T → bool) (T_min T_max : T).
Hypothesis Hswo : strict_weak_order m_less.
Implicit Types (s : sl_impl T) (c : nat → list (addr * T)).

Lemma sl_init_Some_ne hd tl s :
  sl_init T_min T_max hd tl = Some s → hd ≠ tl.
Proof.
  clear Hswo. unfold sl_init, assert. by case_decide.
Qed.

Lemma insert_Some_fresh s v hint coin p s' n :
  insert m_less s v hint coin p = Some (s', n) → m_heap s !! p = None.
Proof.
  clear Hswo. unfold insert, assert. by case_decide.
Qed.

Lemma remove_Some_stored s c n s' :
  repr m_less T_min s c → remove m_less s (Some n) = Some s' →
  ∃ v, (n, v) ∈ c 0 ∧ get_value (m_heap s) n = Some v.
Proof.
  clear Hswo. intros Hr. unfold remove, assert. cbn [mbind option_bind].
  destruct (get_next (m_heap s) n 0) as [nx|] eqn:Hnx; [|done].
  cbn [mbind option_bind].
  destruct (decide (nx ≠ None)); cbn [mbind option_bind]; [|done].
  destruct (decide (m_head s ≠ n)); cbn [mbind option_bind]; [|done].
  destruct (decide (m_tail s ≠ n)); cbn [mbind option_bind]; [|done].
  intros _.
  destruct (get_next_level _ _ _ _ Hnx) as [k Hk].
  assert (n ∈ (c 0).*1) as Hin.
  { apply (repr_mem _ _ _ _ Hr); [lia|]. split_and!; try done.
    exists k. split; [done|lia]. }
  pose proof (repr_chain _ _ _ _ Hr 0 ltac:(lia)) as [Hseg _].
  destruct (lseg_elem_fst _ _ _ _ _ _ Hseg Hin) as (v & ? & _ & ? & _).
  eauto.
Qed.

Lemma reachable_repr s :
  reachable m_less T_min T_max s → ∃ c, repr m_less T_min s c.
Proof.
  induction 1 as [hd tl s Hinit|s v coin p s' n _ [c Hr] Hins|
                  s n s' _ [c Hr] Hpred Hrem|s s' _ [c Hr] Hall].
  - destruct (sl_init_spec m_less T_min T_max hd tl) as (s0 & Hs0 & Hr & _).
    { by eapply sl_init_Some_ne. }
    exists (λ _, []). congruence.
  - pose proof (insert_Some_fresh _ _ _ _ _ _ _ Hins) as Hp.
    destruct (insert_spec m_less T_min Hswo s c v coin p Hr Hp)
      as (s0 & Hs0 & Hr0 & _).
    eexists. by replace s' with s0 by congruence.
  - destruct (remove_Some_stored _ _ _ _ Hr Hrem) as (v & Hin & Hv).
    destruct (remove_spec m_less T_min Hswo s c n v Hr Hin)
      as (s0 & Hs0 & Hr0 & _).
    { by eapply no_equal_predecessor_leads. }
    eexists. by replace s' with s0 by congruence.
  - destruct (remove_all_spec m_less T_min s c Hr) as (s0 & Hs0 & Hr0 & _).
    eexists. by replace s' with s0 by congruence.
Qed.

Lemma repr_chains_sorted_complete s c :
  repr m_less T_min s c → chains_sorted_complete m_less s.
Proof.
  clear Hswo. intros Hr L HL. exists (c L). split_and!.
  - by apply (repr_chain _ _ _ _ Hr).
  - by apply (repr_sorted _ _ _ _ Hr).
  - intros a k ? ? ? ?. apply (repr_mem _ _ _ _ Hr); [done|]. eauto.
Qed.

(** Adjacent values of a sorted chain are in order. *)
Lemma non_decreasing_adjacent (l : list T) i x y :
  non_decreasing m_less l → l !! i = Some x → l !! S i = Some y →
  is_less_or_equal m_less x y = true.
Proof.
  clear Hswo. intros Hs. revert i. induction Hs as [|z l Hs IH Hall]; intros i Hx Hy.
  - done.
  - destruct i as [|i]; simpl in *.
    + injection Hx as <-. rewrite Forall_forall in Hall.
      unfold is_less_or_equal. rewrite Hall; [done|].
      by eapply list_elem_of_lookup_2.
    + by eapply IH.
Qed.

(** After hint-free inserts alone the chains of levels 0 and 1 coincide. *)
Lemma grown_repr s :
  grown m_less T_min T_max s → ∃ c, repr m_less T_min s c ∧ c 1 = c 0.
Proof.
  induction 1 as [hd tl s Hinit|s v coin p s' n _ (c & Hr & Hc) Hins].
  - destruct (sl_init_spec m_less T_min T_max hd tl) as (s0 & Hs0 & Hr & _).
    { by eapply sl_init_Some_ne. }
    exists (λ _, []). split; [congruence|done].
  - pose proof (insert_Some_fresh _ _ _ _ _ _ _ Hins) as Hp.
    destruct (insert_spec m_less T_min Hswo s c v coin p Hr Hp)
      as (s0 & Hs0 & Hr0 & _).
    eexists. split; [by replace s' with s0 by congruence|].
    pose proof (random_level_bounds coin). cbn beta.
    rewrite !decide_True by lia. by rewrite Hc.
Qed.

End Reachable.

Section ChainShape.
Context {T : Type}.
Implicit Types (h : gmap addr (sl_node T)) (l : list (addr * T)).

(** A chain that ends in the tail does not come back to a node. *)
Lemma chain_start_fresh h tl L x l : chain h tl L x l → x ∉ l.*1.
Proof.
  intros Hch Hin. apply list_elem_of_fmap in Hin as ([x' v] & -> & Hin).
  apply list_elem_of_split in Hin as (l1 & l2 & ->). simpl in Hch.
  pose proof Hch as Hch'. apply chain_app in Hch' as [_ [(_ & _ & _ & _ & Hs) He]].
  rewrite last_addr_cons in He.
  pose proof (chain_unique _ _ _ _ _ _ Hch (conj Hs He)) as Heq.
  apply (f_equal length) in Heq. rewrite length_app in Heq. simpl in Heq. lia.
Qed.

Lemma chain_NoDup h tl L x l : chain h tl L x l → NoDup (x :: l.*1).
Proof.
  revert x. induction l as [|[y v] l IH]; intros x Hch.
  - apply NoDup_singleton.
  - apply NoDup_cons. split; [by eapply chain_start_fresh|].
    destruct Hch as [(_ & _ & _ & _ & Hs) He]. rewrite last_addr_cons in He.
    apply (IH y). by split.
Qed.

(** A choice of one list for each of the levels up to [n]. *)
Lemma level_choice (P : nat → list (addr * T) → Prop) n :
  (∀ L, L ≤ n → ∃ l, P L l) → ∃ c, ∀ L, L ≤ n → P L (c L).
Proof.
  induction n as [|n IH]; intros HP.
  - destruct (HP 0 ltac:(lia)) as [l Hl]. exists (λ _, l).
    intros L HL. by replace L with 0 by lia.
  - destruct IH as [c Hc]; [intros L HL; apply HP; lia|].
    destruct (HP (S n) ltac:(lia)) as [l Hl].
    exists (λ L, if decide (L = S n) then l else c L). intros L HL.
    case_decide; [by subst|]. apply Hc. lia.
Qed.

End ChainShape.

Section SortedInvariant.
Context {T : Type} (m_less : T → T → bool) (T_min : T).
Implicit Types (s : sl_impl T) (c : nat → list (addr * T)).

(** The chains of a state satisfying the sortedness invariant. *)
Lemma sorted_invariant_chains s :
  sorted_invariant m_less T_min s →
  ∃ c,
    (∀ L, L ≤ max_levels → chain (m_heap s) (m_tail s) L (m_head s) (c L)) ∧
    (∀ L, L ≤ max_levels → non_decreasing m_less (c L).*2) ∧
    (∀ L p, L < max_levels → p ∈ c (S L) → p ∈ c L) ∧
    (∀ L, L ≤ max_levels → length (c L) ≤ base.size (m_heap s)).
Proof.
  intros (_ & _ & _ & Hinv).
  destruct (level_choice
    (λ L l, chain (m_heap s) (m_tail s) L (m_head s) l ∧
            non_decreasing m_less l.*2 ∧
            ∀ a k, a ≠ m_head s → a ≠ m_tail s →
              get_level (m_heap s) a = Some k → L ≤ k → a ∈ l.*1)
    max_levels Hinv) as [c Hc].
  exists c. split_and!.
  - intros L HL. by destruct (Hc L HL).
  - intros L HL. by destruct (Hc L HL) as (_ & ? & _).
  - intros L [a w] HL Hin.
    destruct (Hc (S L) ltac:(lia)) as (Hch & _ & _).
    destruct (Hc L ltac:(lia)) as ([Hseg' _] & _ & Hall').
    pose proof Hch as [Hseg _].
    destruct (lseg_elem _ _ _ _ _ _ _ Hseg Hin) as (Htl & Hv & k & Hk & HLk).
    assert (a ≠ m_head s) as Hhd.
    { intros ->. apply (chain_start_fresh _ _ _ _ _ Hch).
      apply list_elem_of_fmap. by exists (m_head s, w). }
    assert (a ∈ (c L).*1) as Ha by (apply (Hall' a k); [done..|lia]).
    destruct (lseg_elem_fst _ _ _ _ _ _ Hseg' Ha) as (w' & Hin' & _ & Hv' & _).
    by replace w with w' by congruence.
  - intros L HL. destruct (Hc L HL) as (Hch & _).
    pose proof (chain_NoDup _ _ _ _ _ Hch) as Hnd.
    apply NoDup_cons in Hnd as [_ Hnd]. destruct Hch as [Hseg _].
    by eapply lseg_length_size.
Qed.

Lemma repr_sorted_invariant s c :
  repr m_less T_min s c → sorted_invariant m_less T_min s.
Proof.
  intros Hr. split_and!.
  - apply (repr_levels _ _ _ _ Hr).
  - apply (repr_ends _ _ _ _ Hr).
  - apply (repr_head_value _ _ _ _ Hr).
  - by eapply repr_chains_sorted_complete.
Qed.

End SortedInvariant.

(** ** [find] and [find_first] on a state satisfying the invariant *)

Section FindSpec.
Context {T : Type} (m_less : T → T → bool) (T_min : T).
Hypothesis Hswo : strict_weak_order m_less.
Implicit Types (s : sl_impl T) (cb : list (addr * T)).

(** Where [find] stops on the bottom chain. *)
Lemma find_core s cb v :
  sorted_invariant m_less T_min s →
  chain (m_heap s) (m_tail s) 0 (m_head s) cb →
  ∃ l1 l2 rv, cb = l1 ++ l2 ∧
    find m_less s v = Some (last_addr (m_head s) l1) ∧
    get_value (m_heap s) (last_addr (m_head s) l1) = Some rv ∧
    Forall (λ p, m_less v p.2 = false) l1 ∧
    (is_equal m_less rv v = true ∨ head_greater m_less v l2).
Proof.
  intros Hinv Hc0.
  destruct (sorted_invariant_chains m_less T_min s Hinv)
    as (c & Hch & Hso & Hsub & Hlen).
  destruct Hinv as (Hlv & _ & Hhv & _).
  rewrite (chain_unique _ _ _ _ _ _ Hc0 (Hch 0 ltac:(lia))).
  unfold find. rewrite Hlv.
  apply (find_loop_spec m_less Hswo (m_heap s) (m_tail s) (m_head s) v
           (S (base.size (m_heap s))) c max_levels)
    with (k := max_levels) (pre := []) (post := c max_levels); try done.
  intros L HL. specialize (Hlen L HL). lia.
Qed.

(** The bottom chain of a state satisfying the invariant is sorted. *)
Lemma sorted_invariant_bottom s cb :
  sorted_invariant m_less T_min s →
  chain (m_heap s) (m_tail s) 0 (m_head s) cb →
  non_decreasing m_less cb.*2.
Proof.
  clear Hswo. intros (_ & _ & _ & Hinv) Hc0.
  destruct (Hinv 0 ltac:(lia)) as (l & Hch & Hso & _).
  by rewrite (chain_unique _ _ _ _ _ _ Hc0 Hch).
Qed.

(** The node [find] returns is never the tail, and is the head when the
    target is below every stored value. *)
Lemma find_not_tail s cb v :
  sorted_invariant m_less T_min s →
  chain (m_heap s) (m_tail s) 0 (m_head s) cb →
  ∃ r, find m_less s v = Some r ∧ r ≠ m_tail s ∧
    (Forall (λ p, m_less v p.2 = true) cb → r = m_head s).
Proof.
  intros Hinv Hch.
  destruct (find_core s cb v Hinv Hch)
    as (l1 & l2 & rv & Hc0 & Hfind & Hrv & Hl1 & _).
  exists (last_addr (m_head s) l1). split; [done|].
  pose proof Hch as [Hseg _].
  destruct (last_addr_cases (m_head s) l1) as [[-> ->]|(l1' & w & Hl1')].
  { split; [by destruct Hinv as (_ & ? & _)|done]. }
  remember (last_addr (m_head s) l1) as r eqn:Er. clear Er.
  assert ((r, w) ∈ cb) as Hin by (rewrite Hc0, Hl1'; set_solver).
  destruct (lseg_elem _ _ _ _ _ _ _ Hseg Hin) as (Hrtl & _). split; [done|].
  intros Hall. rewrite Forall_forall in Hall. specialize (Hall _ Hin).
  rewrite Hl1', Forall_app, Forall_singleton in Hl1. simpl in *.
  destruct Hl1 as [_ Hl1]. congruence.
Qed.

(** Unless the target is equal to the value kept in the head sentinel,
    [find] returns the floor of the target. *)
Lemma find_floor s cb v :
  sorted_invariant m_less T_min s →
  chain (m_heap s) (m_tail s) 0 (m_head s) cb →
  is_equal m_less T_min v = false →
  ∃ r, find m_less s v = Some r ∧ is_floor m_less cb (m_head s) v r.
Proof.
  intros Hinv Hch Hmin.
  destruct (find_core s cb v Hinv Hch)
    as (l1 & l2 & rv & Hc0 & Hfind & Hrv & Hl1 & Hstop).
  exists (last_addr (m_head s) l1). split; [done|].
  pose proof Hch as [Hseg _].
  pose proof (sorted_invariant_bottom s cb Hinv Hch) as Hso.
  pose proof Hinv as (_ & _ & Hhv & _).
  assert (head_greater m_less v l2 → Forall (λ p, m_less v p.2 = true) l2)
    as Hgreater.
  { destruct l2 as [|q l2]; [done|]. simpl. intros Hq. constructor; [done|].
    rewrite Hc0, fmap_app, fmap_cons in Hso.
    apply (sorted_suffix_greater m_less Hswo _ _ _ v) in Hso; [|done].
    by apply Forall_fmap in Hso. }
  destruct (last_addr_cases (m_head s) l1) as [[-> Hla]|(l1' & w & Hl1')].
  - left. rewrite Hla in *. split; [done|].
    rewrite Hhv in Hrv. injection Hrv as <-.
    destruct Hstop as [?|Hstop]; [congruence|]. rewrite Hc0. by apply Hgreater.
  - right. remember (last_addr (m_head s) l1) as r eqn:Er. clear Er.
    assert ((r, w) ∈ cb) as Hin by (rewrite Hc0, Hl1'; set_solver).
    destruct (lseg_elem _ _ _ _ _ _ _ Hseg Hin) as (_ & Hw & _).
    assert (rv = w) as -> by congruence.
    rewrite Hl1', Forall_app, Forall_singleton in Hl1. simpl in Hl1.
    destruct Hl1 as [Hl1 Hwv].
    exists w. split_and!; try done.
    rewrite Hc0, Hl1', <-app_assoc. rewrite !Forall_app, Forall_singleton.
    rewrite Hc0, Hl1', <-app_assoc, fmap_app in Hso. simpl in Hso.
    split_and!.
    + apply (sorted_before_last m_less) in Hso. apply Forall_fmap in Hso.
      eapply Forall_impl; [exact Hso|]. by intros.
    + intros _. apply (swo_irrefl _ Hswo).
    + destruct Hstop as [Heq|Hstop].
      * apply (is_equal_true m_less) in Heq as [Hwv' Hvw].
        apply Forall_forall. intros q _ Hq.
        destruct (m_less w q.2) eqn:Hwq; [|done].
        destruct (less_cotrans m_less Hswo w v q.2 Hwq); congruence.
      * eapply Forall_impl; [by apply Hgreater|]. simpl. intros q ? ?. congruence.
Qed.

(** Unless the target is equal to the value kept in the head sentinel,
    [find_first] returns a lower bound of the target. *)
Lemma find_first_lower_bound s cb v :
  sorted_invariant m_less T_min s →
  chain (m_heap s) (m_tail s) 0 (m_head s) cb →
  is_equal m_less T_min v = false →
  ∃ r, find_first m_less s v = Some (Some r) ∧
    is_lower_bound m_less cb (m_tail s) v r.
Proof.
  intros Hinv Hch Hmin.
  destruct (find_core s cb v Hinv Hch)
    as (l1 & l2 & rv & Hc0 & Hfind & Hrv & Hl1 & Hstop).
  pose proof Hch as [Hseg _].
  pose proof (sorted_invariant_bottom s cb Hinv Hch) as Hso.
  pose proof Hinv as (_ & _ & Hhv & _).
  unfold find_first. rewrite Hfind. cbn [mbind option_bind].
  rewrite Hrv. cbn [mbind option_bind].
  assert (l1 = [] ∧ rv = T_min ∨
          ∃ l1', l1 = l1' ++ [(last_addr (m_head s) l1, rv)]) as Hcase.
  { destruct (last_addr_cases (m_head s) l1) as [[-> Hla]|(l1' & w & Hl1')].
    - left. rewrite Hla, Hhv in Hrv. split; congruence.
    - right. exists l1'.
      assert ((last_addr (m_head s) l1, w) ∈ cb) as Hin.
      { rewrite Hc0. rewrite Hl1' at 2. set_solver. }
      destruct (lseg_elem _ _ _ _ _ _ _ Hseg Hin) as (_ & Hw & _).
      by replace rv with w by congruence. }
  destruct (is_equal m_less rv v) eqn:Heq.
  - exists (last_addr (m_head s) l1). split; [done|]. left. exists rv.
    split; [|done]. destruct Hcase as [[_ ->]|[l1' Hl1']]; [congruence|].
    rewrite Hc0. rewrite Hl1' at 2. set_solver.
  - destruct Hstop as [?|Hstop]; [done|].
    assert (Forall (λ p, m_less p.2 v = true) l1) as Hless.
    { destruct Hcase as [[-> _]|[l1' Hl1']]; [done|].
      remember (last_addr (m_head s) l1) as r eqn:Er. clear Er.
      rewrite Hl1', Forall_app, Forall_singleton in Hl1. simpl in Hl1.
      destruct Hl1 as [_ Hvrv].
      assert (m_less rv v = true) as Hrvv.
      { destruct (m_less rv v) eqn:E; [done|].
        assert (is_equal m_less rv v = true); [|congruence].
        by apply is_equal_true. }
      rewrite Hl1', Forall_app, Forall_singleton. split; [|done].
      rewrite Hc0, Hl1', <-app_assoc, fmap_app in Hso. simpl in Hso.
      apply (sorted_prefix_less m_less Hswo _ _ _ v) in Hso; [|done].
      by apply Forall_fmap in Hso. }
    rewrite Hc0 in Hch. apply chain_app in Hch as [_ Hch2].
    destruct l2 as [|[y w] l2].
    + destruct Hch2 as [_ He]. rewrite last_addr_nil in He. rewrite He.
      exists (m_tail s). split; [done|]. right. right.
      by rewrite Hc0, app_nil_r.
    + destruct Hch2 as [(Hx & _) _]. rewrite Hx.
      exists y. split; [done|]. right. left. exists l1, w, l2. by split_and!.
Qed.

(** When the target is equal to the value kept in the head sentinel,
    [find] and [find_first] both return the head sentinel. *)
Lemma find_head_value s v :
  sorted_invariant m_less T_min s → is_equal m_less T_min v = true →
  find m_less s v = Some (m_head s) ∧
  find_first m_less s v = Some (Some (m_head s)).
Proof.
  clear Hswo. intros (Hlv & _ & Hhv & Hinv) Hmin.
  assert (∀ n, n ≤ S max_levels →
            find_loop m_less n (S (base.size (m_heap s))) (m_heap s) (m_tail s)
              v (m_head s) = Some (m_head s)) as Hloop.
  { induction n as [|n IH]; intros Hn; [done|].
    cbn [find_loop find_scan].
    destruct (Hinv n ltac:(lia)) as (l & Hch & _).
    destruct (chain_next _ _ _ _ _ Hch) as [y Hy].
    rewrite Hy. cbn [mbind option_bind]. case_decide.
    - cbn [mbind option_bind]. apply IH. lia.
    - rewrite Hhv. cbn [mbind option_bind]. rewrite Hmin.
      cbn [mbind option_bind]. apply IH. lia. }
  assert (find m_less s v = Some (m_head s)) as Hfind.
  { unfold find. rewrite Hlv. by apply Hloop. }
  split; [done|]. unfold find_first. rewrite Hfind. cbn [mbind option_bind].
  rewrite Hhv. cbn [mbind option_bind]. by rewrite Hmin.
Qed.

End FindSpec.

(** ** Inserting and removing on abstract chains *)

Section InsertBefore.
Context {T : Type} (m_less : T → T → bool).
Implicit Types (l : list (addr * T)).

Lemma insert_before_prefix p l :
  ∃ l1 l2, l = l1 ++ l2 ∧ insert_before m_less p l = l1 ++ p :: l2 ∧
    Forall (λ q, m_less q.2 p.2 = true) l1 ∧ head_not_less m_less p.2 l2.
Proof.
  induction l as [|q l (l1 & l2 & -> & Hib & Hl1 & Hl2)]; simpl.
  - by exists [], [].
  - destruct (m_less q.2 p.2) eqn:Hq.
    + exists (q :: l1), l2. rewrite Hib. split_and!; try done. by constructor.
    + by exists [], (q :: l1 ++ l2).
Qed.

Lemma remove_addr_insert_before n v l :
  n ∉ l.*1 → remove_addr n (insert_before m_less (n, v) l) = l.
Proof.
  intros Hn. induction l as [|[a w] l IH]; simpl.
  - by rewrite decide_True.
  - rewrite fmap_cons, not_elem_of_cons in Hn. destruct Hn as [Hna Hn].
    destruct (m_less w v); simpl.
    + rewrite decide_False by done. by rewrite IH.
    + rewrite decide_True by done. rewrite decide_False by done.
      by rewrite remove_addr_notin.
Qed.

End InsertBefore.

(** ** [insert] with a hint *)

Section InsertHint.
Context {T : Type} (m_less : T → T → bool).
Variables (tl hd n : addr) (v : T) (nl fuel : nat).
Variable c : nat → list (addr * T).
Variable K : nat.
Hypothesis Hnodup : ∀ L, L ≤ K → NoDup (hd :: (c L).*1).
Hypothesis Hfresh : ∀ L, L ≤ K → n ∉ hd :: (c L).*1.
Hypothesis Hfuel : ∀ L, L ≤ K → length (c L) < fuel.
Hypothesis Hsub : ∀ L p, L < K → p ∈ c (S L) → p ∈ c L.
Hypothesis Hntl : n ≠ tl.

(** One round of the [do]-loop from any node of the chain. *)
Lemma hinted_step L h pre post :
  L ≤ K → chain h tl L hd (c L) →
  get_value h n = Some v → get_level h n = Some nl →
  (L ≤ nl → is_Some (get_next h n L)) →
  c L = pre ++ post →
  ∃ curr' h1 l1 l2,
    insert_scan m_less fuel h tl L v (last_addr hd pre) = Some curr' ∧
    (if decide (L ≤ nl) then
       nx ← get_next h curr' L; _ ← assert (nx ≠ None);
       h1 ← set_next h n L nx; set_next h1 curr' L (Some n)
     else Some h) = Some h1 ∧
    c L = l1 ++ l2 ∧
    curr' = last_addr hd l1 ∧
    chain h1 tl L hd (if decide (L ≤ nl) then l1 ++ (n, v) :: l2 else c L) ∧
    (∀ a, get_value h1 a = get_value h a) ∧
    (∀ a, get_level h1 a = get_level h a) ∧
    (∀ a, get_prev h1 a = get_prev h a) ∧
    (∀ a L', L' ≠ L → get_next h1 a L' = get_next h a L').
Proof.
  clear Hsub.
  intros HL Hch Hv Hlev Hnx Hc.
  pose proof Hch as Hch0. rewrite Hc in Hch. apply chain_app in Hch as [Hs1 Hs2].
  destruct (insert_scan_spec m_less h tl L v post (last_addr hd pre) fuel)
    as (m & l2 & -> & Hm & Hl2 & Hscan); [done| |].
  { pose proof (Hfuel L HL) as Hf. rewrite Hc, length_app in Hf. lia. }
  rewrite <-last_addr_app in Hscan.
  remember (pre ++ m) as l1 eqn:El1. rewrite app_assoc, <-El1 in Hc.
  clear El1 Hs1 Hs2.
  exists (last_addr hd l1).
  pose proof Hch0 as Hch1. rewrite Hc in Hch1.
  apply chain_app in Hch1 as [_ Hch1].
  destruct (chain_next _ _ _ _ _ Hch1) as [y Hy].
  case_decide as Hd.
  - destruct (splice_ok h n (last_addr hd l1) L y Hy (Hnx Hd))
      as (h1 & Hh1 & Hn1 & Hv1 & Hk1 & Hp1).
    exists h1, l1, l2. split_and!; try done.
    + apply (splice_chain h h1 tl L hd l1 l2 n v y).
      * by rewrite <-Hc.
      * rewrite <-Hc. by apply Hnodup.
      * rewrite <-Hc. by apply Hfresh.
      * done.
      * done.
      * eauto.
      * done.
      * intros b. rewrite Hn1.
        destruct (decide (b = last_addr hd l1)) as [->|?].
        { by rewrite decide_True. }
        rewrite decide_False by naive_solver.
        destruct (decide (b = n)) as [->|?].
        { by rewrite decide_True. }
        by rewrite decide_False by naive_solver.
      * done.
      * done.
    + intros a L' HL'. rewrite Hn1.
      rewrite decide_False by naive_solver. by rewrite decide_False by naive_solver.
  - exists h, l1, l2. by split_and!.
Qed.

Lemma hinted_position L l1 l2 :
  L < K → c (S L) = l1 ++ l2 →
  ∃ pre post, c L = pre ++ post ∧ last_addr hd pre = last_addr hd l1.
Proof.
  clear Hnodup Hfresh Hfuel Hntl.
  intros HL Hc.
  destruct (last_addr_cases hd l1) as [[-> Hla]|(l1' & w & Hl1')].
  { by exists [], (c L). }
  remember (last_addr hd l1) as a eqn:Ha. clear Ha.
  assert ((a, w) ∈ c (S L)) as Hin.
  { rewrite Hc, Hl1'. set_solver. }
  apply Hsub in Hin; [|done].
  apply list_elem_of_split in Hin as (p1 & p2 & Hp).
  exists (p1 ++ [(a, w)]), p2. split.
  - by rewrite <-app_assoc.
  - by rewrite last_addr_snoc.
Qed.

Lemma hinted_loop_spec k : k ≤ K → ∀ h pre post,
  (∀ L, L ≤ k → chain h tl L hd (c L)) →
  get_value h n = Some v → get_level h n = Some nl →
  (∀ L, L ≤ k → L ≤ nl → is_Some (get_next h n L)) →
  c k = pre ++ post →
  ∃ h' curr',
    insert_loop m_less fuel tl v n nl k h (last_addr hd pre) = Some (h', curr') ∧
    (∀ a, get_value h' a = get_value h a) ∧
    (∀ a, get_level h' a = get_level h a) ∧
    (∀ a, get_prev h' a = get_prev h a) ∧
    (∀ a L, k < L → get_next h' a L = get_next h a L) ∧
    (∀ L, L ≤ k → ∃ l1 l2,
       c L = l1 ++ l2 ∧
       chain h' tl L hd (if decide (L ≤ nl) then l1 ++ (n, v) :: l2 else c L) ∧
       (L = 0 → curr' = last_addr hd l1)).
Proof.
  induction k as [|k IH]; intros Hk h pre post Hch Hv Hlev Hnx Hc.
  - destruct (hinted_step 0 h pre post) as
      (curr' & h1 & l1 & l2 & Hscan & Hspl & Hc' & Hcurr & Hch1 &
       Hv1 & Hk1 & Hp1 & Hn1); try done; [by apply Hch|by apply Hnx|].
    exists h1, curr'. rewrite insert_loop_unfold, Hscan.
    cbn [mbind option_bind]. rewrite Hspl. cbn [mbind option_bind].
    split_and!; try done.
    + intros a L HL. apply Hn1. lia.
    + intros L HL. assert (L = 0) as -> by lia. exists l1, l2. by split_and!.
  - destruct (hinted_step (S k) h pre post) as
      (curr' & h1 & l1 & l2 & Hscan & Hspl & Hc' & Hcurr & Hch1 &
       Hv1 & Hk1 & Hp1 & Hn1); try done; [by apply Hch|by apply Hnx|].
    destruct (hinted_position k l1 l2) as (pre' & post' & Hc'' & Hla);
      [lia|done|].
    destruct (IH ltac:(lia) h1 pre' post') as
      (h' & r & Hloop & Hv' & Hk' & Hp' & Hn' & Hlev');
      try done.
    { intros L HL. apply (chain_frame h); [| |apply Hch; lia].
      - intros a _. apply Hn1. lia.
      - intros a _. by rewrite Hv1, Hk1. }
    { by rewrite Hv1. }
    { by rewrite Hk1. }
    { intros L HL1 HL2. rewrite Hn1 by lia. apply Hnx; [lia|done]. }
    exists h', r. rewrite insert_loop_unfold, Hscan.
    cbn [mbind option_bind]. rewrite Hspl. cbn [mbind option_bind].
    rewrite Hcurr, <-Hla. split_and!; try done.
    + intros a. by rewrite Hv', Hv1.
    + intros a. by rewrite Hk', Hk1.
    + intros a. by rewrite Hp', Hp1.
    + intros a L HL. rewrite Hn' by lia. apply Hn1. lia.
    + intros L HL. destruct (decide (L = S k)) as [->|HLk].
      * exists l1, l2. split_and!; try done.
        apply (chain_frame h1); [| |done].
        -- intros a _. apply Hn'. lia.
        -- intros a _. by rewrite Hv', Hk'.
      * apply Hlev'. lia.
Qed.

End InsertHint.

Section InsertHintSpec.
Context {T : Type} (m_less : T → T → bool) (T_min : T).
Implicit Types (s : sl_impl T) (c : nat → list (addr * T)).

(** [insert] with a live hint of level [hl] runs to its end, links the new
    node on the levels up to [hl] that it has, and leaves the chains above
    [hl] as they were, without the new node. *)
Lemma insert_hint_spec s c v hint hl coin p :
  repr m_less T_min s c → m_heap s !! p = None →
  hint ∈ m_head s :: (c 0).*1 →
  get_level (m_heap s) hint = Some hl →
  ∃ s', insert m_less s v (Some hint) coin p = Some (s', p) ∧
    m_head s' = m_head s ∧ m_tail s' = m_tail s ∧
    get_level (m_heap s') p = Some (random_level coin) ∧
    (∀ L, L ≤ hl → L ≤ random_level coin → ∃ l1 l2,
       c L = l1 ++ l2 ∧
       chain (m_heap s') (m_tail s) L (m_head s) (l1 ++ (p, v) :: l2)) ∧
    (∀ L, hl < L → L ≤ max_levels →
       chain (m_heap s') (m_tail s) L (m_head s) (c L) ∧ p ∉ (c L).*1) ∧
    (∀ L, hl < L → L ≤ random_level coin →
       get_next (m_heap s') p L = Some None).
Proof.
  intros Hr Hp Hhint Hhl. destruct s as [h lvs sz hd tl].
  pose proof (random_level_bounds coin) as Hrl.
  destruct (repr_fresh _ _ _ _ _ Hr Hp) as (Hphd & Hptl & Hpc).
  pose proof (repr_head_level _ _ _ _ Hr) as Hhdl.
  pose proof (repr_tail_level _ _ _ _ Hr) as Htll.
  pose proof (repr_ends _ _ _ _ Hr) as Hends.
  cbn [m_heap m_head m_tail m_levels m_size] in *.
  assert (hint ≠ p) as Hhp.
  { intros ->. apply get_level_None in Hp. congruence. }
  assert (hl ≤ max_levels) as Hhlmax.
  { apply elem_of_cons in Hhint as [->|Hin].
    - assert (hl = max_levels) as -> by congruence. done.
    - apply (repr_mem _ _ _ _ Hr) in Hin as (? & ? & _); [|lia].
      by apply (repr_node_level _ _ _ _ Hr hint hl). }
  assert (∃ pre post, c hl = pre ++ post ∧ last_addr hd pre = hint)
    as (pre & post & Hchl & Hpre).
  { apply elem_of_cons in Hhint as [->|Hin]; [by exists [], (c hl)|].
    apply (repr_mem _ _ _ _ Hr) in Hin as (? & ? & _); [|lia].
    assert (hint ∈ (c hl).*1) as Hin.
    { apply (repr_mem _ _ _ _ Hr); [done|]. split_and!; eauto. }
    apply list_elem_of_fmap in Hin as ([a w] & -> & Hin).
    apply list_elem_of_split in Hin as (p1 & p2 & Hc).
    exists (p1 ++ [(a, w)]), p2. rewrite <-app_assoc. split; [done|].
    by rewrite last_addr_snoc. }
  unfold insert. cbn [m_heap m_head m_tail m_levels m_size] in *.
  set (nl := random_level coin) in *.
  set (h0 := <[p := new_node v nl]> h).
  unfold assert. rewrite decide_True by done. cbn [mbind option_bind default].
  assert (∀ a, a ≠ p → ∀ L, get_next h0 a L = get_next h a L) as Hn0.
  { intros a Ha L. unfold h0. by rewrite get_next_alloc, decide_False. }
  assert (∀ a, a ≠ p → get_value h0 a = get_value h a) as Hv0.
  { intros a Ha. unfold h0. by rewrite get_value_alloc, decide_False. }
  assert (∀ a, a ≠ p → get_level h0 a = get_level h a) as Hk0.
  { intros a Ha. unfold h0. by rewrite get_level_alloc, decide_False. }
  assert (get_level h0 p = Some nl) as Hkp.
  { unfold h0. by rewrite get_level_alloc, decide_True. }
  assert (∀ L, L ≤ max_levels → chain h0 tl L hd (c L)) as Hch0.
  { intros L HL. apply (chain_frame h); [| |by apply (repr_chain _ _ _ _ Hr)].
    - intros a Ha. apply Hn0. intros ->. apply elem_of_cons in Ha as [?|Ha]; [done|].
      by apply (Hpc L).
    - intros a Ha. rewrite Hv0, Hk0; [done|intros ->; by apply (Hpc L)..]. }
  unfold id. rewrite Hk0, Hhl by done. cbn [mbind option_bind].
  destruct (hinted_loop_spec m_less tl hd p v nl (S (base.size h0)) c hl)
    with (k := hl) (h := h0) (pre := pre) (post := post)
    as (h1 & curr' & Hloop & Hv1 & Hk1 & Hp1 & Hn1 & Hlev).
  { intros L HL. apply (repr_nodup _ _ _ _ Hr). lia. }
  { intros L HL. rewrite not_elem_of_cons. split; [done|apply Hpc; lia]. }
  { intros L HL. pose proof (repr_length _ _ _ _ L Hr ltac:(lia)) as Hlen.
    cbn [m_heap] in Hlen. unfold h0.
    rewrite map_size_insert_None by done. lia. }
  { intros L q HL. apply (repr_sub _ _ _ _ _ _ Hr). lia. }
  { done. }
  { done. }
  { intros L HL. apply Hch0. lia. }
  { unfold h0. by rewrite get_value_alloc, decide_True. }
  { done. }
  { intros L _ HL. unfold h0. rewrite get_next_alloc, decide_True by done.
    rewrite decide_True by done. eauto. }
  { done. }
  rewrite Hpre in Hloop. rewrite Hloop. cbn [mbind option_bind].
  destruct (Hlev 0 ltac:(lia)) as (l1 & l2 & Hc0 & Hchn & Hcurr).
  specialize (Hcurr eq_refl). rewrite decide_True in Hchn by lia.
  pose proof Hchn as Hchn'. apply chain_app in Hchn' as [Hs1 [Hs2 He2]].
  destruct Hs2 as (Hxp & _ & _ & _ & Hs2). rewrite last_addr_cons in He2.
  rewrite <-Hcurr in Hxp. rewrite Hxp. cbn [mbind option_bind].
  rewrite decide_True by done. cbn [mbind option_bind].
  destruct (set_prev_is_Some h1 p (Some curr')) as [h2 Hh2].
  { rewrite Hv1. unfold h0. rewrite get_value_alloc, decide_True; eauto. }
  rewrite Hh2. cbn [mbind option_bind].
  destruct (chain_next h1 tl 0 p l2 (conj Hs2 He2)) as [y Hy].
  rewrite (get_next_set_prev _ _ _ _ _ _ Hh2), Hy. cbn [mbind option_bind].
  assert (is_Some (get_value h1 y)) as Hyv.
  { destruct l2 as [|[y' w] l2'].
    - rewrite last_addr_nil in He2. assert (y = tl) as -> by congruence.
      rewrite Hv1, Hv0 by done. apply get_value_level. rewrite Htll. eauto.
    - destruct Hs2 as (Hy' & _ & Hvy & _). assert (y' = y) as -> by congruence.
      rewrite Hvy. eauto. }
  destruct (set_prev_is_Some h2 y (Some p)) as [h3 Hh3].
  { by rewrite (get_value_set_prev _ _ _ _ _ Hh2). }
  rewrite Hh3. cbn [mbind option_bind].
  eexists. split; [reflexivity|]. cbn [m_size m_head m_tail m_heap].
  assert (∀ a L, get_next h3 a L = get_next h1 a L) as Hn3.
  { intros a L. by rewrite (get_next_set_prev _ _ _ _ _ _ Hh3),
      (get_next_set_prev _ _ _ _ _ _ Hh2). }
  assert (∀ a, get_value h3 a = get_value h0 a) as Hv3.
  { intros a. by rewrite (get_value_set_prev _ _ _ _ _ Hh3),
      (get_value_set_prev _ _ _ _ _ Hh2). }
  assert (∀ a, get_level h3 a = get_level h0 a) as Hk3.
  { intros a. by rewrite (get_level_set_prev _ _ _ _ _ Hh3),
      (get_level_set_prev _ _ _ _ _ Hh2). }
  split_and!; try done.
  - by rewrite Hk3.
  - intros L HL1 HL2. destruct (Hlev L HL1) as (m1 & m2 & Hc & Hch & _).
    rewrite decide_True in Hch by done. exists m1, m2. split; [done|].
    apply (chain_frame h1); [| |done].
    + intros a _. apply Hn3.
    + intros a _. by rewrite Hv3, Hk3, Hv1, Hk1.
  - intros L HL1 HL2. split; [|by apply Hpc].
    apply (chain_frame h0); [| |by apply Hch0].
    + intros a _. rewrite Hn3. by apply Hn1.
    + intros a _. by rewrite Hv3, Hk3.
  - intros L HL1 HL2. rewrite Hn3, Hn1 by done. unfold h0.
    rewrite get_next_alloc, decide_True by done. by rewrite decide_True.
Qed.

End InsertHintSpec.

(** ** More on represented states *)

Section ReprMore.
Context {T : Type} (m_less : T → T → bool) (T_min : T).
Implicit Types (s : sl_impl T) (c : nat → list (addr * T)).

(** Only the chains of the levels in use matter. *)
Lemma repr_ext s c c' :
  repr m_less T_min s c → (∀ L, L ≤ max_levels → c' L = c L) →
  repr m_less T_min s c'.
Proof.
  intros Hr He. pose proof (He 0 ltac:(lia)) as He0.
  destruct Hr. constructor; try done.
  - intros L HL. rewrite He by done. auto.
  - intros L HL. rewrite He by done. auto.
  - intros L HL. rewrite He by done. auto.
  - intros L a HL. rewrite He by done. auto.
  - by rewrite He0.
  - by rewrite He0.
  - by rewrite He0.
Qed.

(** The allocated nodes are the sentinels and the bottom chain. *)
Lemma repr_allocated s c a :
  repr m_less T_min s c →
  is_Some (m_heap s !! a) ↔ a = m_head s ∨ a = m_tail s ∨ a ∈ (c 0).*1.
Proof.
  intros Hr. rewrite (repr_mem _ _ _ _ Hr 0 a) by lia.
  rewrite <-not_eq_None_Some, <-get_level_None. split.
  - intros Ha. destruct (decide (a = m_head s)); [by left|].
    destruct (decide (a = m_tail s)); [by right; left|]. right. right.
    split_and!; try done. destruct (get_level (m_heap s) a) as [k|]; [|done].
    exists k. split; [done|lia].
  - intros [->|[->|(_ & _ & k & Hk & _)]].
    + by rewrite (repr_head_level _ _ _ _ Hr).
    + by rewrite (repr_tail_level _ _ _ _ Hr).
    + by rewrite Hk.
Qed.

End ReprMore.

(** ** Repeated inserts of one value *)

Section InsertAll.
Context {T : Type} (m_less : T → T → bool) (T_min : T).
Hypothesis Hswo : strict_weak_order m_less.
Implicit Types (s : sl_impl T) (c : nat → list (addr * T)).

Lemma insert_before_fst p l :
  ∀ a, a ∈ (insert_before m_less p l).*1 ↔ a = p.1 ∨ a ∈ l.*1.
Proof.
  clear Hswo. intros a.
  destruct (insert_before_prefix m_less p l) as (l1 & l2 & -> & -> & _).
  rewrite !fmap_app, fmap_cons. set_solver.
Qed.

Lemma insert_all_spec v cps : ∀ s c,
  repr m_less T_min s c → NoDup cps.*2 →
  (∀ p, p ∈ cps.*2 → m_heap s !! p = None) →
  ∃ s' c', insert_all m_less s v cps = Some s' ∧ repr m_less T_min s' c' ∧
    ∀ L, L ≤ max_levels → ∃ l1 l2,
      c L = l1 ++ l2 ∧
      Forall (λ q, m_less q.2 v = true) l1 ∧
      Forall (λ q, m_less q.2 v = false) l2 ∧
      c' L = l1 ++ reverse (joined L v cps) ++ l2.
Proof.
  induction cps as [|[coin p] cps IH]; intros s c Hr Hnd Hfresh.
  - exists s, c. split_and!; try done. intros L HL.
    destruct (insert_before_prefix m_less (0, v) (c L))
      as (l1 & l2 & Hc & _ & Hl1 & Hl2).
    exists l1, l2. split_and!; try done.
    destruct l2 as [|q l2]; [done|]. simpl in Hl2. constructor; [done|].
    pose proof (repr_sorted _ _ _ _ Hr L HL) as Hso.
    rewrite Hc, fmap_app, fmap_cons in Hso.
    apply (sorted_suffix_ge m_less Hswo _ _ _ v) in Hso; [|done].
    by apply Forall_fmap in Hso.
  - rewrite fmap_cons in Hnd. apply NoDup_cons in Hnd as [Hp Hnd].
    destruct (insert_spec m_less T_min Hswo s c v coin p Hr)
      as (s1 & Hs1 & Hr1 & _); [apply Hfresh; set_solver|].
    destruct (IH s1 _ Hr1 Hnd) as (s' & c' & Hs' & Hr' & Hlev).
    { intros q Hq. apply eq_None_not_Some. intros Hsome.
      apply (repr_allocated _ _ _ _ _ Hr1) in Hsome.
      assert (is_Some (m_heap s !! q)) as [? Hq']; [|rewrite Hfresh in Hq'; [done|set_solver]].
      pose proof (insert_Some_fresh _ _ _ _ _ _ _ _ Hs1) as Hpfresh.
      destruct (repr_fresh _ _ _ _ _ Hr Hpfresh) as (? & ? & _).
      assert (m_head s1 = m_head s ∧ m_tail s1 = m_tail s) as [Eh Et].
      { destruct (insert_spec m_less T_min Hswo s c v coin p Hr Hpfresh)
          as (s1' & Hs1' & _ & _ & ? & ?).
        by replace s1 with s1' by congruence. }
      rewrite Eh, Et in Hsome. apply (repr_allocated _ _ _ _ _ Hr).
      destruct Hsome as [?|[?|Hin]]; [by left|by right; left|].
      pose proof (random_level_bounds coin). rewrite decide_True in Hin by lia.
      apply insert_before_fst in Hin as [->|Hin]; [done|]. by right; right. }
    exists s', c'. split_and!; try done.
    { cbn [insert_all]. rewrite Hs1. cbn [mbind option_bind]. done. }
    intros L HL. destruct (Hlev L HL) as (m1 & m2 & Hc1 & Hm1 & Hm2 & Hc').
    destruct (insert_before_prefix m_less (p, v) (c L))
      as (l1 & l2 & Hc & Hib & Hl1 & Hl2). simpl in Hl1, Hl2.
    assert (Forall (λ q, m_less q.2 v = false) l2) as Hl2'.
    { destruct l2 as [|q l2]; [done|]. simpl in Hl2. constructor; [done|].
      pose proof (repr_sorted _ _ _ _ Hr L HL) as Hso.
      rewrite Hc, fmap_app, fmap_cons in Hso.
      apply (sorted_suffix_ge m_less Hswo _ _ _ v) in Hso; [|done].
      by apply Forall_fmap in Hso. }
    exists l1, l2. split_and!; try done. rewrite Hc'. cbn [joined].
    case_decide as Hd.
    + rewrite Hib in Hc1.
      destruct (split_unique m_less v m1 m2 l1 ((p, v) :: l2)) as [-> ->];
        try done.
      { by apply Forall_head_not_less. }
      { simpl. apply (swo_irrefl _ Hswo). }
      rewrite reverse_cons, <-!app_assoc. done.
    + rewrite Hc in Hc1.
      destruct (split_unique m_less v m1 m2 l1 l2) as [-> ->]; try done.
      by apply Forall_head_not_less.
Qed.

End InsertAll.

(** ** The engine at [int]: concrete runs *)

Lemma int_empty_init :
  sl_init IntEngine.int_min IntEngine.int_max 0 1 = Some IntEngine.empty.
Proof. vm_compute. reflexivity. Qed.

Lemma int_empty_repr :
  repr Z.ltb IntEngine.int_min IntEngine.empty (λ _, []).
Proof.
  destruct (sl_init_spec Z.ltb IntEngine.int_min IntEngine.int_max 0 1)
    as (s & Hs & Hr & _); [done|].
  rewrite int_empty_init in Hs. by injection Hs as <-.
Qed.

Lemma int_one_five_repr :
  repr Z.ltb IntEngine.int_min IntEngine.one_five
    (λ L, if decide (L ≤ 1) then [(2, 5%Z)] else []).
Proof.
  destruct (insert_spec Z.ltb IntEngine.int_min Z_ltb_strict_weak_order
              IntEngine.empty (λ _, []) 5%Z IntEngine.stay 2 int_empty_repr)
    as (s & Hs & Hr & _); [done|].
  assert (s = IntEngine.one_five) as ->.
  { vm_compute in Hs. by injection Hs as <-. }
  exact Hr.
Qed.

Lemma int_two_fives_repr :
  repr Z.ltb IntEngine.int_min IntEngine.two_fives
    (λ L, if decide (L ≤ 1) then [(3, 5%Z); (2, 5%Z)] else []).
Proof.
  destruct (insert_spec Z.ltb IntEngine.int_min Z_ltb_strict_weak_order
              IntEngine.one_five _ 5%Z IntEngine.stay 3 int_one_five_repr)
    as (s & Hs & Hr & _); [done|].
  assert (s = IntEngine.two_fives) as ->.
  { vm_compute in Hs. by injection Hs as <-. }
  eapply repr_ext; [exact Hr|]. intros L HL. cbn beta.
  change (random_level IntEngine.stay) with 1.
  by case_decide.
Qed.

Lemma int_one_min_repr :
  repr Z.ltb IntEngine.int_min IntEngine.one_min
    (λ L, if decide (L ≤ 1) then [(2, IntEngine.int_min)] else []).
Proof.
  destruct (insert_spec Z.ltb IntEngine.int_min Z_ltb_strict_weak_order
              IntEngine.empty (λ _, []) IntEngine.int_min IntEngine.stay 2
              int_empty_repr)
    as (s & Hs & Hr & _); [done|].
  assert (s = IntEngine.one_min) as ->.
  { vm_compute in Hs. by injection Hs as <-. }
  exact Hr.
Qed.

(** The bottom chains of the two states used below. *)
Lemma int_two_fives_bottom :
  chain (m_heap IntEngine.two_fives) (m_tail IntEngine.two_fives) 0
    (m_head IntEngine.two_fives) [(3, 5%Z); (2, 5%Z)].
Proof. exact (repr_chain _ _ _ _ int_two_fives_repr 0 ltac:(lia)). Qed.

Lemma int_one_min_bottom :
  chain (m_heap IntEngine.one_min) (m_tail IntEngine.one_min) 0
    (m_head IntEngine.one_min) [(2, IntEngine.int_min)].
Proof. exact (repr_chain _ _ _ _ int_one_min_repr 0 ltac:(lia)). Qed.

(** * The claims *)

(** ** C1: the chains of every level are sorted and complete *)

(** C1, as amended: in every state reached from a fresh engine by [insert]
    without a hint, [remove] of a node that no equal node precedes and
    [remove_all], the chain of every level from the head ends in the tail,
    is sorted non-decreasing and holds every stored node of at least that
    level; adjacent values of the bottom chain are in order. *)
Theorem reachable_chains_sorted {T : Type} (m_less : T → T → bool)
    (T_min T_max : T) (s : sl_impl T) :
  strict_weak_order m_less → reachable m_less T_min T_max s →
  chains_sorted_complete m_less s ∧
  ∀ l i x y,
    chain (m_heap s) (m_tail s) 0 (m_head s) l →
    l.*2 !! i = Some x → l.*2 !! S i = Some y →
    is_less_or_equal m_less x y = true.
Proof.
  intros Hswo Hreach.
  destruct (reachable_repr m_less T_min T_max Hswo s Hreach) as [c Hr].
  split; [by eapply repr_chains_sorted_complete|].
  intros l i x y Hch Hx Hy.
  pose proof (repr_chain _ _ _ _ Hr 0 ltac:(lia)) as Hch0.
  rewrite (chain_unique _ _ _ _ _ _ Hch Hch0) in Hx, Hy.
  eapply non_decreasing_adjacent; [|done..].
  apply (repr_sorted _ _ _ _ Hr). lia.
Qed.

(** The node at the front of the two equal nodes of [two_fives] has no
    equal node before it. *)
Lemma int_two_fives_front :
  no_equal_predecessor Z.ltb IntEngine.two_fives 3.
Proof.
  intros L l1 l2 v HL Hch.
  pose proof (repr_chain _ _ _ _ int_two_fives_repr L HL) as Hch'.
  pose proof (chain_unique _ _ _ _ _ _ Hch Hch') as Heq. cbn beta in Heq.
  destruct l1 as [|q l1]; [done|]. exfalso. case_decide; [|done].
  injection Heq as -> Heq.
  destruct l1 as [|q l1]; [by injection Heq|].
  injection Heq as _ Heq. by destruct l1.
Qed.

Lemma reachable_chains_sorted_witness :
  strict_weak_order Z.ltb ∧
  reachable Z.ltb IntEngine.int_min IntEngine.int_max IntEngine.empty ∧
  chains_sorted_complete Z.ltb IntEngine.empty.
Proof.
  assert (reachable Z.ltb IntEngine.int_min IntEngine.int_max
            IntEngine.empty) as Hreach.
  { eapply (reach_remove_all _ _ _ IntEngine.one_five);
      [|vm_compute; reflexivity].
    eapply (reach_remove _ _ _ IntEngine.two_fives 3);
      [|exact int_two_fives_front|vm_compute; reflexivity].
    eapply (reach_insert _ _ _ IntEngine.one_five 5%Z IntEngine.stay 3);
      [|vm_compute; reflexivity].
    eapply (reach_insert _ _ _ IntEngine.empty 5%Z IntEngine.stay 2);
      [|vm_compute; reflexivity].
    apply (reach_init _ _ _ 0 1). vm_compute. reflexivity. }
  split; [exact Z_ltb_strict_weak_order|]. split; [exact Hreach|].
  exact (proj1 (reachable_chains_sorted Z.ltb IntEngine.int_min
                  IntEngine.int_max IntEngine.empty
                  Z_ltb_strict_weak_order Hreach)).
Defined.

(** C1, as stated, fails: after [insert(5)] and then [insert(7, hint)]
    with the first node as the hint and a new node of level 2, the new
    node is not on the level-2 chain. *)
Lemma hinted_insert_breaks_chains :
  api_reachable Z.ltb IntEngine.int_min IntEngine.int_max IntEngine.hinted ∧
  ¬ chains_sorted_complete Z.ltb IntEngine.hinted.
Proof.
  split.
  - eapply (api_insert _ _ _ IntEngine.one_five 7%Z (Some 2) IntEngine.once 3);
      [|vm_compute; reflexivity].
    eapply (api_insert _ _ _ IntEngine.empty 5%Z None IntEngine.stay 2);
      [|vm_compute; reflexivity].
    apply (api_init _ _ _ 0 1). vm_compute. reflexivity.
  - intros Hall. destruct (Hall 2 ltac:(unfold max_levels; lia))
      as (l & Hch & _ & Hin).
    assert (chain (m_heap IntEngine.hinted) 1 2 0 []) as Hnil.
    { split; [done|]. vm_compute. reflexivity. }
    rewrite (chain_unique _ _ _ _ _ _ Hch Hnil) in Hin.
    specialize (Hin 3 2). apply elem_of_nil in Hin; [done|done|done| |done].
    vm_compute. reflexivity.
Qed.

(** ** C2: [find] is a floor search *)

(** C2, as amended: on every state satisfying the sortedness invariant,
    with [cb] its bottom-level chain, [find] returns a node that is not
    the tail, the head when the target is below every stored value, and,
    for every target that is not equal to the value kept in the head
    sentinel, the floor of the target. *)
Theorem find_returns_floor {T : Type} (m_less : T → T → bool) (T_min : T)
    (s : sl_impl T) (cb : list (addr * T)) (v : T) :
  strict_weak_order m_less → sorted_invariant m_less T_min s →
  chain (m_heap s) (m_tail s) 0 (m_head s) cb →
  ∃ r, find m_less s v = Some r ∧ r ≠ m_tail s ∧
    (Forall (λ p, m_less v p.2 = true) cb → r = m_head s) ∧
    (is_equal m_less T_min v = false →
     is_floor m_less cb (m_head s) v r).
Proof.
  intros Hswo Hinv Hch.
  destruct (find_not_tail m_less T_min Hswo s cb v Hinv Hch)
    as (r & Hfind & Htl & Hhd).
  exists r. split_and!; try done. intros Hmin.
  destruct (find_floor m_less T_min Hswo s cb v Hinv Hch Hmin)
    as (r' & Hfind' & Hfl).
  by replace r with r' by congruence.
Qed.

Lemma find_returns_floor_witness :
  strict_weak_order Z.ltb ∧
  sorted_invariant Z.ltb IntEngine.int_min IntEngine.two_fives ∧
  chain (m_heap IntEngine.two_fives) (m_tail IntEngine.two_fives) 0
    (m_head IntEngine.two_fives) [(3, 5%Z); (2, 5%Z)] ∧
  ∃ r, find Z.ltb IntEngine.two_fives 6%Z = Some r ∧
    r ≠ m_tail IntEngine.two_fives ∧
    (Forall (λ p, Z.ltb 6 p.2 = true) [(3, 5%Z); (2, 5%Z)] →
     r = m_head IntEngine.two_fives) ∧
    (is_equal Z.ltb IntEngine.int_min 6%Z = false →
     is_floor Z.ltb [(3, 5%Z); (2, 5%Z)] (m_head IntEngine.two_fives) 6%Z r).
Proof.
  split; [exact Z_ltb_strict_weak_order|].
  split; [exact (repr_sorted_invariant _ _ _ _ int_two_fives_repr)|].
  split; [exact int_two_fives_bottom|].
  exact (find_returns_floor Z.ltb IntEngine.int_min IntEngine.two_fives _ 6%Z
           Z_ltb_strict_weak_order
           (repr_sorted_invariant _ _ _ _ int_two_fives_repr)
           int_two_fives_bottom).
Defined.

(** C2, as stated, fails: with [INT_MIN] stored, the state satisfies the
    invariant and [find(INT_MIN)] returns the head sentinel, which is not
    the floor of [INT_MIN]. *)
Lemma find_head_value_not_floor :
  sorted_invariant Z.ltb IntEngine.int_min IntEngine.one_min ∧
  chain (m_heap IntEngine.one_min) (m_tail IntEngine.one_min) 0
    (m_head IntEngine.one_min) [(2, IntEngine.int_min)] ∧
  find Z.ltb IntEngine.one_min IntEngine.int_min
    = Some (m_head IntEngine.one_min) ∧
  ¬ is_floor Z.ltb [(2, IntEngine.int_min)] (m_head IntEngine.one_min)
      IntEngine.int_min (m_head IntEngine.one_min).
Proof.
  split; [exact (repr_sorted_invariant _ _ _ _ int_one_min_repr)|].
  split; [exact int_one_min_bottom|]. split; [vm_compute; reflexivity|].
  intros [[_ Hall]|(w & Hin & _)].
  - apply Forall_cons in Hall as [Hlt _]. vm_compute in Hlt. discriminate.
  - apply list_elem_of_singleton in Hin. discriminate.
Qed.

(** ** C3: [remove] unlinks the node *)

(** C3 at the failing input: after [insert(5)] twice, [remove] of the
    node inserted first, which stands behind its equal, lowers the size to
    1 and frees the node, yet leaves it linked behind the other node on
    levels 0 and 1, so the forward traversal runs into freed storage. *)
Theorem remove_behind_equal_stays_linked :
  insert Z.ltb IntEngine.empty 5%Z None IntEngine.stay 2
    = Some (IntEngine.one_five, 2) ∧
  insert Z.ltb IntEngine.one_five 5%Z None IntEngine.stay 3
    = Some (IntEngine.two_fives, 3) ∧
  remove Z.ltb IntEngine.two_fives (Some 2) = Some IntEngine.after_remove ∧
  size IntEngine.after_remove = (size IntEngine.two_fives - 1)%Z ∧
  m_heap IntEngine.after_remove !! 2 = None ∧
  get_next (m_heap IntEngine.after_remove) 3 0 = Some (Some 2) ∧
  get_next (m_heap IntEngine.after_remove) 3 1 = Some (Some 2) ∧
  forward IntEngine.after_remove = None.
Proof. split_and!; vm_compute; reflexivity. Qed.

(** ** C4: equal values go in front of their equals *)

(** C4, as amended: on a state satisfying the invariant, any number of
    calls [insert(v)] without a hint, with fresh addresses, all succeed,
    and on every level the nodes they add to it stand together, the later
    before the earlier, behind the nodes holding less than [v] and
    immediately before the nodes that were there with a value equal to [v]
    or above. *)
Theorem repeated_inserts_reverse_order {T : Type} (m_less : T → T → bool)
    (T_min : T) (s : sl_impl T) (c : nat → list (addr * T)) (v : T)
    (cps : list ((nat → bool) * addr)) :
  strict_weak_order m_less → repr m_less T_min s c →
  NoDup cps.*2 → (∀ p, p ∈ cps.*2 → m_heap s !! p = None) →
  ∃ s' c', insert_all m_less s v cps = Some s' ∧ repr m_less T_min s' c' ∧
    ∀ L, L ≤ max_levels → ∃ l1 l2,
      c L = l1 ++ l2 ∧
      Forall (λ q, m_less q.2 v = true) l1 ∧
      Forall (λ q, m_less q.2 v = false) l2 ∧
      c' L = l1 ++ reverse (joined L v cps) ++ l2.
Proof. intros Hswo. by apply insert_all_spec. Qed.

Lemma repeated_inserts_reverse_order_witness :
  ∃ s' c',
    insert_all Z.ltb IntEngine.empty 5%Z
      [(IntEngine.stay, 2); (IntEngine.once, 3); (IntEngine.stay, 4)]
      = Some s' ∧
    repr Z.ltb IntEngine.int_min s' c' ∧
    forward s' = Some [4; 3; 2] ∧
    c' 0 = [(4, 5%Z); (3, 5%Z); (2, 5%Z)] ∧
    c' 2 = [(3, 5%Z)].
Proof.
  destruct (repeated_inserts_reverse_order Z.ltb IntEngine.int_min
              IntEngine.empty (λ _, []) 5%Z
              [(IntEngine.stay, 2); (IntEngine.once, 3); (IntEngine.stay, 4)]
              Z_ltb_strict_weak_order int_empty_repr)
    as (s' & c' & Hs' & Hr' & Hlev).
  { repeat constructor; set_solver. }
  { intros p Hp. vm_compute in Hp.
    repeat (apply elem_of_cons in Hp as [->|Hp]; [vm_compute; reflexivity|]).
    by apply elem_of_nil in Hp. }
  exists s', c'. split; [exact Hs'|]. split; [exact Hr'|].
  assert (∀ L, L ≤ max_levels →
            c' L = reverse (joined L 5%Z
              [(IntEngine.stay, 2); (IntEngine.once, 3); (IntEngine.stay, 4)]))
    as Hc'.
  { intros L HL. destruct (Hlev L HL) as (l1 & l2 & Hnil & _ & _ & ->).
    symmetry in Hnil. apply app_eq_nil in Hnil as [-> ->].
    by rewrite app_nil_r. }
  split; [|split].
  - rewrite (forward_spec _ _ _ _ Hr'), Hc' by (unfold max_levels; lia). done.
  - rewrite Hc' by (unfold max_levels; lia). done.
  - rewrite Hc' by (unfold max_levels; lia). done.
Defined.

(** C4, as stated, fails: after [insert(5)] on a fresh engine, a second
    [insert(5, hint)] with the first node as the hint starts at that node,
    so the new node is linked behind its equal and the forward order of
    the two equal nodes is the order of insertion. *)
Lemma hinted_repeated_insert_goes_behind :
  insert Z.ltb IntEngine.empty 5%Z None IntEngine.stay 2
    = Some (IntEngine.one_five, 2) ∧
  well_formed Z.ltb IntEngine.int_min IntEngine.one_five ∧
  insert Z.ltb IntEngine.one_five 5%Z (Some 2) IntEngine.stay 3
    = Some (IntEngine.hinted_equal, 3) ∧
  forward IntEngine.hinted_equal = Some [2; 3] ∧
  values_of (m_heap IntEngine.hinted_equal) [2; 3] = Some [5%Z; 5%Z].
Proof.
  split_and!; try (vm_compute; reflexivity).
  eexists. exact int_one_five_repr.
Qed.

(** ** C5: [insert] then [remove] changes nothing *)

(** C5: on a state satisfying the invariant, [insert(v)] without a hint
    followed by [remove] of the node it returned brings back the size, the
    chains of all levels and so the forward sequence of nodes and values,
    whatever equal values are stored. *)
Theorem insert_then_remove_restores {T : Type} (m_less : T → T → bool)
    (T_min : T) (s : sl_impl T) (c : nat → list (addr * T)) (v : T)
    (coin : nat → bool) (p : addr) :
  strict_weak_order m_less → repr m_less T_min s c →
  m_heap s !! p = None →
  ∃ s1 s2,
    insert m_less s v None coin p = Some (s1, p) ∧
    remove m_less s1 (Some p) = Some s2 ∧
    size s2 = size s ∧
    repr m_less T_min s2 c ∧
    forward s2 = forward s ∧
    ∃ fw vs, forward s = Some fw ∧
      values_of (m_heap s) fw = Some vs ∧
      values_of (m_heap s2) fw = Some vs.
Proof.
  intros Hswo Hr Hp.
  destruct (insert_spec m_less T_min Hswo s c v coin p Hr Hp)
    as (s1 & Hs1 & Hr1 & Hsz1 & Hhd1 & Htl1).
  destruct (repr_fresh _ _ _ _ _ Hr Hp) as (Hphd & Hptl & Hpc).
  pose proof (random_level_bounds coin) as Hrl.
  set (c1 := λ L, if decide (L ≤ random_level coin)
                  then insert_before m_less (p, v) (c L) else c L) in *.
  destruct (remove_spec m_less T_min Hswo s1 c1 p v Hr1)
    as (s2 & Hs2 & Hr2 & Hsz2 & _ & Hhd2 & Htl2).
  { unfold c1. rewrite decide_True by lia.
    destruct (insert_before_prefix m_less (p, v) (c 0)) as (l1 & l2 & _ & -> & _).
    set_solver. }
  { intros L l1 l2 HL Hc1. unfold c1 in Hc1. case_decide.
    - destruct (insert_before_prefix m_less (p, v) (c L))
        as (m1 & m2 & Hc & Hib & Hm1 & _).
      rewrite Hib in Hc1.
      pose proof (repr_nodup _ _ _ _ Hr1 L HL) as Hnd.
      apply NoDup_cons in Hnd as [_ Hnd]. unfold c1 in Hnd.
      rewrite decide_True, Hib in Hnd by done.
      assert (m1 = l1) as <-
        by (eapply NoDup_split_unique; [exact Hnd|exact Hc1]).
      exact Hm1.
    - exfalso. apply (Hpc L HL). rewrite Hc1, fmap_app, fmap_cons. set_solver. }
  assert (repr m_less T_min s2 c) as Hr2'.
  { eapply repr_ext; [exact Hr2|]. intros L HL. cbn beta. unfold c1.
    case_decide.
    - symmetry. apply remove_addr_insert_before. by apply Hpc.
    - symmetry. apply remove_addr_notin. by apply Hpc. }
  exists s1, s2. split_and!; try done.
  - unfold size. rewrite Hsz2, Hsz1, (repr_size _ _ _ _ Hr).
    rewrite Zplus_mod_idemp_l, Zminus_mod_idemp_l.
    f_equal. lia.
  - by rewrite (forward_spec _ _ _ _ Hr2'), (forward_spec _ _ _ _ Hr).
  - exists (c 0).*1, (c 0).*2.
    pose proof (repr_chain _ _ _ _ Hr 0 ltac:(lia)) as [Hseg _].
    pose proof (repr_chain _ _ _ _ Hr2' 0 ltac:(lia)) as [Hseg2 _].
    split_and!; [by eapply forward_spec|by eapply values_of_chain..].
Qed.

Lemma insert_then_remove_restores_witness :
  ∃ s1 s2,
    insert Z.ltb IntEngine.two_fives 5%Z None IntEngine.once 4
      = Some (s1, 4) ∧
    remove Z.ltb s1 (Some 4) = Some s2 ∧
    size s2 = size IntEngine.two_fives ∧
    forward s2 = forward IntEngine.two_fives.
Proof.
  destruct (insert_then_remove_restores Z.ltb IntEngine.int_min
              IntEngine.two_fives _ 5%Z IntEngine.once 4
              Z_ltb_strict_weak_order int_two_fives_repr)
    as (s1 & s2 & H1 & H2 & H3 & _ & H4 & _).
  { vm_compute. reflexivity. }
  exists s1, s2. by split_and!.
Defined.

(** ** C6: [find_first] is a lower-bound search *)

(** C6, as amended: on every state satisfying the sortedness invariant,
    with [cb] its bottom-level chain, and for every target that is not
    equal to the value kept in the head sentinel, [find_first] returns a
    stored node equal to the target, or the first stored node above it,
    or the tail when every stored value is below it. *)
Theorem find_first_returns_lower_bound {T : Type} (m_less : T → T → bool)
    (T_min : T) (s : sl_impl T) (cb : list (addr * T)) (v : T) :
  strict_weak_order m_less → sorted_invariant m_less T_min s →
  chain (m_heap s) (m_tail s) 0 (m_head s) cb →
  is_equal m_less T_min v = false →
  ∃ r, find_first m_less s v = Some (Some r) ∧
    is_lower_bound m_less cb (m_tail s) v r.
Proof. intros Hswo. by apply find_first_lower_bound. Qed.

Lemma find_first_returns_lower_bound_witness :
  ∃ r, find_first Z.ltb IntEngine.two_fives 5%Z = Some (Some r) ∧
    is_lower_bound Z.ltb [(3, 5%Z); (2, 5%Z)] (m_tail IntEngine.two_fives)
      5%Z r.
Proof.
  exact (find_first_returns_lower_bound Z.ltb IntEngine.int_min
           IntEngine.two_fives _ 5%Z Z_ltb_strict_weak_order
           (repr_sorted_invariant _ _ _ _ int_two_fives_repr)
           int_two_fives_bottom eq_refl).
Defined.

(** C6, as stated, fails: with [INT_MIN] stored, the state satisfies the
    invariant and [find_first(INT_MIN)] returns the head sentinel, which
    is neither a stored node nor the tail. *)
Lemma find_first_head_value_not_lower_bound :
  sorted_invariant Z.ltb IntEngine.int_min IntEngine.one_min ∧
  chain (m_heap IntEngine.one_min) (m_tail IntEngine.one_min) 0
    (m_head IntEngine.one_min) [(2, IntEngine.int_min)] ∧
  find_first Z.ltb IntEngine.one_min IntEngine.int_min
    = Some (Some (m_head IntEngine.one_min)) ∧
  ¬ is_lower_bound Z.ltb [(2, IntEngine.int_min)] (m_tail IntEngine.one_min)
      IntEngine.int_min (m_head IntEngine.one_min).
Proof.
  split; [exact (repr_sorted_invariant _ _ _ _ int_one_min_repr)|].
  split; [exact int_one_min_bottom|]. split; [vm_compute; reflexivity|].
  intros [(w & Hin & _)|[(l1 & w & l2 & Heq & _)|[Htl _]]].
  - apply list_elem_of_singleton in Hin. discriminate.
  - destruct l1 as [|q l1]; [discriminate|].
    injection Heq as _ Heq. by destruct l1.
  - discriminate.
Qed.

(** ** C7: [remove_all] empties the engine *)

(** C7: on a state satisfying the invariant [remove_all] runs to its end
    and leaves a size of 0, the head pointing at the tail on every level,
    the tail pointing back at the head, no node allocated but the
    sentinels, and an empty traversal. *)
Theorem remove_all_empties {T : Type} (m_less : T → T → bool) (T_min : T)
    (s : sl_impl T) (c : nat → list (addr * T)) :
  repr m_less T_min s c →
  ∃ s', remove_all s = Some s' ∧
    size s' = 0%Z ∧
    (∀ L, L ≤ max_levels →
       get_next (m_heap s') (m_head s') L = Some (Some (m_tail s'))) ∧
    get_prev (m_heap s') (m_tail s') = Some (Some (m_head s')) ∧
    front s' = Some (Some (m_tail s')) ∧
    back s' = Some (Some (m_head s')) ∧
    (∀ a, a ≠ m_head s' → a ≠ m_tail s' → m_heap s' !! a = None) ∧
    forward s' = Some [] ∧
    repr m_less T_min s' (λ _, []).
Proof.
  intros Hr.
  destruct (remove_all_spec m_less T_min s c Hr) as (s' & Hs' & Hr' & Hgone).
  destruct (remove_all_inv s s' Hs') as (Hsz & Hhd & Htl & Hlv & Hnext & Hprev).
  rewrite (repr_levels _ _ _ _ Hr) in Hnext.
  exists s'. unfold front, back. rewrite Hhd, Htl.
  split_and!; try done.
  - apply Hnext. lia.
  - by rewrite (forward_spec _ _ _ _ Hr').
Qed.

Lemma remove_all_empties_witness :
  ∃ s', remove_all IntEngine.two_fives = Some s' ∧ size s' = 0%Z ∧
    forward s' = Some [].
Proof.
  destruct (remove_all_empties Z.ltb IntEngine.int_min IntEngine.two_fives _
              int_two_fives_repr)
    as (s' & H1 & H2 & _ & _ & _ & _ & _ & H3 & _).
  exists s'. by split_and!.
Defined.

(** ** C8: the backward traversal mirrors the forward one *)

(** C8 at the failing input: in the state reached by [insert(5)] twice and
    [remove] of the node inserted first, the backward traversal yields the
    one node left while the forward traversal runs into the freed node. *)
Theorem backward_without_forward_after_remove :
  api_reachable Z.ltb IntEngine.int_min IntEngine.int_max
    IntEngine.after_remove ∧
  backward IntEngine.after_remove = Some [3] ∧
  (backward IntEngine.after_remove ≫= values_of (m_heap IntEngine.after_remove))
    = Some [5%Z] ∧
  forward IntEngine.after_remove = None.
Proof.
  split_and!; try (vm_compute; reflexivity).
  eapply (api_remove _ _ _ IntEngine.two_fives 2); [|vm_compute; reflexivity].
  eapply (api_insert _ _ _ IntEngine.one_five 5%Z None IntEngine.stay 3);
    [|vm_compute; reflexivity].
  eapply (api_insert _ _ _ IntEngine.empty 5%Z None IntEngine.stay 2);
    [|vm_compute; reflexivity].
  apply (api_init _ _ _ 0 1). vm_compute. reflexivity.
Qed.

(** ** C9: every node is on level 1 *)

(** C9: [random_level] returns a level between 1 and [max_levels]; in a
    state reached by [insert] without a hint alone every stored node has a
    level of at least 1, and the chain of level 1 is the chain of level 0,
    node for node. *)
Theorem grown_level_one_chain {T : Type} (m_less : T → T → bool)
    (T_min T_max : T) (s : sl_impl T) :
  strict_weak_order m_less → grown m_less T_min T_max s →
  (∀ coin, 1 ≤ random_level coin ≤ max_levels) ∧
  (∀ a k, a ≠ m_head s → a ≠ m_tail s →
     get_level (m_heap s) a = Some k → 1 ≤ k) ∧
  ∃ l, chain (m_heap s) (m_tail s) 0 (m_head s) l ∧
       chain (m_heap s) (m_tail s) 1 (m_head s) l ∧
       ∀ a, a ≠ m_head s → a ≠ m_tail s →
         is_Some (m_heap s !! a) → a ∈ l.*1.
Proof.
  intros Hswo Hg.
  destruct (grown_repr m_less T_min T_max Hswo s Hg) as (c & Hr & Hc).
  split; [apply random_level_bounds|]. split.
  - intros a k Hhd Htl Hk.
    by destruct (repr_node_level _ _ _ _ Hr a k Hhd Htl Hk).
  - exists (c 0). split_and!.
    + apply (repr_chain _ _ _ _ Hr). lia.
    + rewrite <-Hc. apply (repr_chain _ _ _ _ Hr). unfold max_levels. lia.
    + intros a Hhd Htl Ha.
      apply (repr_allocated _ _ _ _ _ Hr) in Ha as [?|[?|?]]; done.
Qed.

Lemma grown_level_one_chain_witness :
  ∃ l, chain (m_heap IntEngine.two_fives) (m_tail IntEngine.two_fives) 0
         (m_head IntEngine.two_fives) l ∧
       chain (m_heap IntEngine.two_fives) (m_tail IntEngine.two_fives) 1
         (m_head IntEngine.two_fives) l.
Proof.
  assert (grown Z.ltb IntEngine.int_min IntEngine.int_max IntEngine.two_fives)
    as Hg.
  { eapply (grown_insert _ _ _ IntEngine.one_five 5%Z IntEngine.stay 3);
      [|vm_compute; reflexivity].
    eapply (grown_insert _ _ _ IntEngine.empty 5%Z IntEngine.stay 2);
      [|vm_compute; reflexivity].
    apply (grown_init _ _ _ 0 1). vm_compute. reflexivity. }
  destruct (grown_level_one_chain Z.ltb IntEngine.int_min IntEngine.int_max
              IntEngine.two_fives Z_ltb_strict_weak_order Hg)
    as (_ & _ & l & H0 & H1 & _).
  exists l. by split.
Defined.

(** ** C10: a hint bounds the levels [insert] visits *)

(** C10: on a state satisfying the invariant, [insert] with a live hint
    runs to its end; the new node is linked into the chains of the levels
    up to the hint's that it has; the chains of the levels above the
    hint's are as they were and do not hold the new node, whose forward
    pointers on those levels stay null. *)
Theorem hinted_insert_skips_upper_levels {T : Type}
    (m_less : T → T → bool) (T_min : T) (s : sl_impl T)
    (c : nat → list (addr * T)) (v : T) (hint : addr) (hl : nat)
    (coin : nat → bool) (p : addr) :
  repr m_less T_min s c → m_heap s !! p = None →
  hint ∈ m_head s :: (c 0).*1 →
  get_level (m_heap s) hint = Some hl →
  ∃ s', insert m_less s v (Some hint) coin p = Some (s', p) ∧
    m_head s' = m_head s ∧ m_tail s' = m_tail s ∧
    get_level (m_heap s') p = Some (random_level coin) ∧
    (∀ L, L ≤ hl → L ≤ random_level coin → ∃ l1 l2,
       c L = l1 ++ l2 ∧
       chain (m_heap s') (m_tail s) L (m_head s) (l1 ++ (p, v) :: l2)) ∧
    (∀ L, hl < L → L ≤ max_levels →
       chain (m_heap s') (m_tail s) L (m_head s) (c L) ∧ p ∉ (c L).*1) ∧
    (∀ L, hl < L → L ≤ random_level coin →
       get_next (m_heap s') p L = Some None).
Proof. apply insert_hint_spec. Qed.

Lemma hinted_insert_skips_upper_levels_witness :
  ∃ s', insert Z.ltb IntEngine.one_five 7%Z (Some 2) IntEngine.once 3
          = Some (s', 3) ∧
    get_level (m_heap s') 3 = Some 2 ∧
    chain (m_heap s') 1 2 0 [] ∧
    get_next (m_heap s') 3 2 = Some None.
Proof.
  destruct (hinted_insert_skips_upper_levels Z.ltb IntEngine.int_min
              IntEngine.one_five _ 7%Z 2 1 IntEngine.once 3
              int_one_five_repr)
    as (s' & H1 & _ & _ & H2 & _ & H3 & H4).
  { vm_compute. reflexivity. }
  { cbn beta. rewrite decide_True by lia. set_solver. }
  { vm_compute. reflexivity. }
  exists s'. split_and!; try done.
  - destruct (H3 2) as [Hch _]; [lia|unfold max_levels; lia|].
    cbn beta in Hch. by rewrite decide_False in Hch by lia.
  - apply H4; [lia|]. vm_compute. lia.
Defined.

(** * Further properties of the engine *)

(** ** The comparison helpers *)

(** X1: Under a strict weak order exactly one of [is_less], [is_equal] and
    [is_great] holds of two values, and [is_less_or_equal] and
    [is_great_or_equal] are the unions they are named after. *)
Theorem comparison_trichotomy {T : Type} (m_less : T → T → bool) (a b : T) :
  strict_weak_order m_less →
  (is_less m_less a b = true ∧ is_equal m_less a b = false ∧
   is_great m_less a b = false ∨
   is_less m_less a b = false ∧ is_equal m_less a b = true ∧
   is_great m_less a b = false ∨
   is_less m_less a b = false ∧ is_equal m_less a b = false ∧
   is_great m_less a b = true) ∧
  is_less_or_equal m_less a b = is_less m_less a b || is_equal m_less a b ∧
  is_great_or_equal m_less a b = is_great m_less a b || is_equal m_less a b.
Proof.
  intros Hswo. unfold is_less, is_great, is_equal, is_less_or_equal,
    is_great_or_equal.
  destruct (m_less a b) eqn:Hab.
  - rewrite (less_asym m_less Hswo a b Hab). simpl. tauto.
  - destruct (m_less b a); simpl; tauto.
Qed.

Lemma comparison_trichotomy_witness :
  strict_weak_order Z.ltb ∧
  is_less_or_equal Z.ltb 3%Z 5%Z
    = is_less Z.ltb 3%Z 5%Z || is_equal Z.ltb 3%Z 5%Z.
Proof.
  split; [exact Z_ltb_strict_weak_order|].
  exact (proj1 (proj2 (comparison_trichotomy Z.ltb 3%Z 5%Z
                         Z_ltb_strict_weak_order))).
Defined.

(** X2: Under a strict weak order [is_less_or_equal] is a total preorder,
    [is_great_or_equal] is its converse and [is_equal] is its symmetric
    part, an equivalence. *)
Theorem less_or_equal_total_preorder {T : Type} (m_less : T → T → bool) :
  strict_weak_order m_less →
  (∀ a, is_less_or_equal m_less a a = true) ∧
  (∀ a b c, is_less_or_equal m_less a b = true →
     is_less_or_equal m_less b c = true →
     is_less_or_equal m_less a c = true) ∧
  (∀ a b, is_less_or_equal m_less a b = true ∨
     is_less_or_equal m_less b a = true) ∧
  (∀ a b, is_great_or_equal m_less a b = is_less_or_equal m_less b a) ∧
  (∀ a b, is_equal m_less a b =
     is_less_or_equal m_less a b && is_less_or_equal m_less b a) ∧
  (∀ a b, is_equal m_less a b = is_equal m_less b a).
Proof.
  intros Hswo. unfold is_less_or_equal, is_great_or_equal, is_equal.
  split_and!.
  - intros a. by rewrite (swo_irrefl _ Hswo).
  - intros a b c Hab Hbc. apply negb_true_iff in Hab, Hbc.
    apply negb_true_iff. by apply (le_trans m_less Hswo a b c).
  - intros a b. destruct (m_less b a) eqn:Hba; [|by left].
    right. by rewrite (less_asym m_less Hswo b a Hba).
  - done.
  - intros a b. by destruct (m_less a b), (m_less b a).
  - intros a b. by destruct (m_less a b), (m_less b a).
Qed.

Lemma less_or_equal_total_preorder_witness :
  is_less_or_equal Z.ltb 5%Z 5%Z = true ∧
  is_great_or_equal Z.ltb 3%Z 5%Z = is_less_or_equal Z.ltb 5%Z 3%Z.
Proof.
  destruct (less_or_equal_total_preorder Z.ltb Z_ltb_strict_weak_order)
    as (H1 & _ & _ & H4 & _).
  split; [apply H1|apply H4].
Defined.

(** ** A freshly constructed engine *)

Section EmptyEngine.
Context {T : Type} (m_less : T → T → bool) (T_min : T).
Implicit Types (s : sl_impl T).

(** [find] on an engine with no stored node stays at the head. *)
Lemma find_empty s v :
  repr m_less T_min s (λ _, []) → find m_less s v = Some (m_head s).
Proof.
  intros Hr. unfold find. rewrite (repr_levels _ _ _ _ Hr).
  assert (∀ n, n ≤ S max_levels →
            find_loop m_less n (S (base.size (m_heap s))) (m_heap s) (m_tail s)
              v (m_head s) = Some (m_head s)) as Hloop; [|by apply Hloop].
  induction n as [|n IH]; intros Hn; [done|].
  cbn [find_loop find_scan].
  destruct (repr_chain _ _ _ _ Hr n ltac:(lia)) as [_ Hnx].
  rewrite last_addr_nil in Hnx. rewrite Hnx. cbn [mbind option_bind].
  rewrite decide_True by done. cbn [mbind option_bind]. apply IH. lia.
Qed.

Lemma find_first_empty s v :
  repr m_less T_min s (λ _, []) →
  find_first m_less s v
    = Some (Some (if is_equal m_less T_min v then m_head s else m_tail s)).
Proof.
  intros Hr. unfold find_first. rewrite (find_empty s v Hr).
  cbn [mbind option_bind]. rewrite (repr_head_value _ _ _ _ Hr).
  cbn [mbind option_bind]. destruct (is_equal m_less T_min v); [done|].
  destruct (repr_chain _ _ _ _ Hr 0 ltac:(lia)) as [_ Hnx].
  by rewrite last_addr_nil in Hnx.
Qed.

End EmptyEngine.

(** X3: The constructor, given two distinct addresses for the sentinels,
    builds an engine with no stored node: only the sentinels are allocated,
    [size()] is 0, [front()] is the tail, [back()] is the head, both
    traversals are empty, [find] returns the head for every target, and
    [find_first] returns the tail, or the head for a target equal to the
    value kept in the head. *)
Theorem constructor_builds_empty_engine {T : Type} (m_less : T → T → bool)
    (T_min T_max : T) (hd tl : addr) :
  hd ≠ tl →
  ∃ s, sl_init T_min T_max hd tl = Some s ∧
    m_head s = hd ∧ m_tail s = tl ∧
    (∀ a, is_Some (m_heap s !! a) ↔ a = hd ∨ a = tl) ∧
    size s = 0%Z ∧ front s = Some (Some tl) ∧ back s = Some (Some hd) ∧
    forward s = Some [] ∧ backward s = Some [] ∧
    (∀ v, find m_less s v = Some hd) ∧
    (∀ v, find_first m_less s v
            = Some (Some (if is_equal m_less T_min v then hd else tl))).
Proof.
  intros Hne.
  destruct (sl_init_spec m_less T_min T_max hd tl Hne)
    as (s & Hs & Hr & <- & <- & Hsz).
  exists s. split_and!; try done.
  - intros a. rewrite (repr_allocated m_less T_min s _ a Hr). set_solver.
  - unfold front. destruct (repr_chain _ _ _ _ Hr 0 ltac:(lia)) as [_ Hnx].
    by rewrite last_addr_nil in Hnx.
  - unfold back. by rewrite (repr_back_tail _ _ _ _ Hr), last_addr_nil.
  - by rewrite (forward_spec m_less T_min s _ Hr).
  - by rewrite (backward_spec m_less T_min s _ Hr).
  - intros v. by apply (find_empty m_less T_min).
  - intros v. by apply (find_first_empty m_less T_min).
Qed.

Lemma constructor_builds_empty_engine_witness :
  ∃ s, sl_init IntEngine.int_min IntEngine.int_max 0 1 = Some s ∧
    size s = 0%Z ∧ find_first Z.ltb s 7%Z = Some (Some 1).
Proof.
  destruct (constructor_builds_empty_engine Z.ltb IntEngine.int_min
              IntEngine.int_max 0 1 ltac:(lia))
    as (s & Hs & _ & _ & _ & Hsz & _ & _ & _ & _ & _ & Hff).
  exists s. split_and!; [done|done|]. exact (Hff 7%Z).
Defined.

(** ** The leveling policy *)

(** X4: [random_level] returns [k] exactly when the first [k - 1] coin tosses
    come up heads and either [k] is [max_levels] or the next toss comes up
    tails; a toss comes up heads when [rand()] is even. *)
Theorem random_level_counts_heads (rand : nat → Z) (k : nat) :
  1 ≤ k ≤ max_levels →
  random_level (λ i, toss_a_coin (rand i)) = k ↔
  (∀ i, i < k - 1 → Z.rem (rand i) 2 = 0%Z) ∧
  (k = max_levels ∨ Z.rem (rand (k - 1)) 2 ≠ 0%Z).
Proof.
  intros Hk. unfold random_level, max_levels in *.
  assert (∀ i, toss_a_coin (rand i) = true ↔ Z.rem (rand i) 2 = 0%Z) as Ht.
  { intros i. unfold toss_a_coin. apply Z.eqb_eq. }
  cbn [random_level_loop Nat.ltb Nat.leb andb].
  destruct (toss_a_coin (rand 0)) eqn:H0;
    [destruct (toss_a_coin (rand 1)) eqn:H1;
     [destruct (toss_a_coin (rand 2)) eqn:H2;
      [destruct (toss_a_coin (rand 3)) eqn:H3|]|]|].
  all: repeat match goal with
         | H : toss_a_coin _ = true |- _ => apply Ht in H
         | H : toss_a_coin _ = false |- _ =>
             apply not_true_iff_false in H; rewrite Ht in H
         end.
  all: split;
    [intros <-; split;
       [intros i Hi;
        repeat (destruct i as [|i]; [done|]); simpl in Hi; lia
       |simpl; auto]
    |intros [Hall Hlast]].
  all: destruct k as [|[|[|[|[|[|k]]]]]]; try lia; try done.
  all: try (destruct Hlast as [Hlast|Hlast]; [lia|]; simpl in Hlast; done).
  all: try (exfalso;
            first [apply H0; apply (Hall 0); simpl; lia
                  |apply H1; apply (Hall 1); simpl; lia
                  |apply H2; apply (Hall 2); simpl; lia
                  |apply H3; apply (Hall 3); simpl; lia]).
Qed.

Lemma random_level_counts_heads_witness :
  1 ≤ 2 ≤ max_levels ∧
  (random_level (λ i, toss_a_coin (Z.of_nat (4 + i))) = 2 ↔
   (∀ i, i < 2 - 1 → Z.rem (Z.of_nat (4 + i)) 2 = 0%Z) ∧
   (2 = max_levels ∨ Z.rem (Z.of_nat (4 + (2 - 1))) 2 ≠ 0%Z)).
Proof.
  split; [unfold max_levels; lia|].
  apply (random_level_counts_heads (λ i, Z.of_nat (4 + i)) 2).
  unfold max_levels. lia.
Defined.

(** ** [insert] without a hint *)

Section InsertPosition.
Context {T : Type} (m_less : T → T → bool).
Hypothesis Hswo : strict_weak_order m_less.

(** In a sorted chain, once a node is not below [v] none after it is. *)
Lemma head_not_less_all (l1 l2 : list (addr * T)) v :
  non_decreasing m_less (l1 ++ l2).*2 → head_not_less m_less v l2 →
  Forall (λ q, m_less q.2 v = false) l2.
Proof.
  intros Hs Hh. destruct l2 as [|q l2]; [done|]. simpl in Hh.
  constructor; [done|]. rewrite fmap_app, fmap_cons in Hs.
  pose proof (sorted_suffix_ge m_less Hswo _ _ _ _ Hs Hh) as Hall.
  by rewrite Forall_fmap in Hall.
Qed.

End InsertPosition.

(** X5: On a state satisfying the invariant [insert] without a hint succeeds
    at any free address and puts the new node behind every stored node
    holding less than [value] and in front of every other stored node:
    the forward traversal gains the new node at that place, the values it
    visits stay sorted, and [size()] grows by one (modulo [2^64]). *)
Theorem insert_keeps_values_sorted {T : Type} (m_less : T → T → bool)
    (T_min : T) (s : sl_impl T) (c : nat → list (addr * T)) (v : T)
    (coin : nat → bool) (p : addr) :
  strict_weak_order m_less → repr m_less T_min s c → m_heap s !! p = None →
  ∃ s' l1 l2,
    insert m_less s v None coin p = Some (s', p) ∧
    forward s = Some (l1 ++ l2).*1 ∧
    values_of (m_heap s) (l1 ++ l2).*1 = Some (l1 ++ l2).*2 ∧
    Forall (λ q, m_less q.2 v = true) l1 ∧
    Forall (λ q, m_less q.2 v = false) l2 ∧
    forward s' = Some (l1.*1 ++ p :: l2.*1) ∧
    values_of (m_heap s') (l1.*1 ++ p :: l2.*1)
      = Some (l1.*2 ++ v :: l2.*2) ∧
    non_decreasing m_less (l1.*2 ++ v :: l2.*2) ∧
    size s' = ((size s + 1) mod size_modulus)%Z.
Proof.
  intros Hswo Hr Hp.
  destruct (insert_spec m_less T_min Hswo s c v coin p Hr Hp)
    as (s' & Hins & Hr' & Hsz & _).
  destruct (insert_before_prefix m_less (p, v) (c 0))
    as (l1 & l2 & Hc & Hib & Hl1 & Hl2).
  pose proof (random_level_bounds coin) as Hrl.
  pose proof (forward_spec m_less T_min s' _ Hr') as Hfw.
  pose proof (repr_chain _ _ _ _ Hr' 0 ltac:(lia)) as [Hseg' _].
  pose proof (repr_sorted _ _ _ _ Hr' 0 ltac:(lia)) as Hso'.
  cbn beta in Hfw, Hseg', Hso'. rewrite decide_True in Hfw, Hseg', Hso' by lia.
  rewrite Hib in Hfw, Hseg', Hso'.
  rewrite fmap_app, fmap_cons in Hfw. rewrite fmap_app, fmap_cons in Hso'.
  cbn [fst snd] in Hfw, Hso'.
  exists s', l1, l2. split_and!; try done.
  - rewrite <-Hc. by apply (forward_spec m_less T_min).
  - rewrite <-Hc.
    destruct (repr_chain _ _ _ _ Hr 0 ltac:(lia)) as [Hseg _].
    by eapply values_of_chain.
  - apply (head_not_less_all m_less Hswo l1 l2 v); [|done]. rewrite <-Hc.
    apply (repr_sorted _ _ _ _ Hr). lia.
  - apply values_of_chain in Hseg'.
    by rewrite !fmap_app, !fmap_cons in Hseg'.
Qed.

Lemma insert_keeps_values_sorted_witness :
  ∃ s' l1 l2,
    insert Z.ltb IntEngine.one_five 7%Z None IntEngine.stay 3 = Some (s', 3) ∧
    forward IntEngine.one_five = Some (l1 ++ l2).*1 ∧
    forward s' = Some (l1.*1 ++ 3 :: l2.*1) ∧
    values_of (m_heap s') (l1.*1 ++ 3 :: l2.*1)
      = Some (l1.*2 ++ 7%Z :: l2.*2).
Proof.
  destruct (insert_keeps_values_sorted Z.ltb IntEngine.int_min
              IntEngine.one_five _ 7%Z IntEngine.stay 3
              Z_ltb_strict_weak_order int_one_five_repr)
    as (s' & l1 & l2 & H1 & H2 & _ & _ & _ & H3 & H4 & _).
  { vm_compute. reflexivity. }
  by exists s', l1, l2.
Defined.

(** ** Looking a value up *)

(** X6: On a state satisfying the invariant, and for a target that is not
    equal to the value kept in the head sentinel, the node [find_first]
    returns is a stored node holding a value equal to the target exactly
    when some stored node holds such a value. *)
Theorem find_first_hits_iff_stored {T : Type} (m_less : T → T → bool)
    (T_min : T) (s : sl_impl T) (c : nat → list (addr * T)) (v : T) :
  strict_weak_order m_less → repr m_less T_min s c →
  is_equal m_less T_min v = false →
  ∃ r, find_first m_less s v = Some (Some r) ∧
    ((r ≠ m_tail s ∧
      ∃ w, get_value (m_heap s) r = Some w ∧ is_equal m_less w v = true) ↔
     ∃ q, q ∈ c 0 ∧ is_equal m_less q.2 v = true).
Proof.
  intros Hswo Hr Hmin.
  pose proof (repr_chain _ _ _ _ Hr 0 ltac:(lia)) as Hch.
  pose proof Hch as [Hseg _].
  pose proof (repr_sorted _ _ _ _ Hr 0 ltac:(lia)) as Hso.
  destruct (find_first_lower_bound m_less T_min Hswo s (c 0) v
              (repr_sorted_invariant m_less T_min s c Hr) Hch Hmin)
    as (r & Hff & Hlb).
  exists r. split; [done|].
  destruct Hlb as [(w & Hin & Heq)|[(l1 & w & l2 & Hc & Hl1 & Hw)|[-> Hall]]].
  - destruct (lseg_elem _ _ _ _ _ _ _ Hseg Hin) as (Htl & Hv & _).
    split; [intros _; by exists (r, w)|intros _; eauto].
  - assert ((r, w) ∈ c 0) as Hin by (rewrite Hc; set_solver).
    destruct (lseg_elem _ _ _ _ _ _ _ Hseg Hin) as (Htl & Hv & _).
    split.
    + intros (_ & w' & Hv' & Heq). replace w' with w in Heq by congruence.
      apply (is_equal_true m_less) in Heq. destruct Heq. congruence.
    + intros (q & Hq & Heq). exfalso.
      apply (is_equal_true m_less) in Heq as [Hqv Hvq].
      rewrite Hc in Hq, Hso. rewrite fmap_app, fmap_cons in Hso.
      apply elem_of_app in Hq as [Hq|Hq].
      { rewrite Forall_forall in Hl1. specialize (Hl1 q Hq). congruence. }
      apply elem_of_cons in Hq as [->|Hq]; [simpl in *; congruence|].
      pose proof (sorted_suffix_greater m_less Hswo _ _ _ _ Hso Hw) as Hgt.
      rewrite Forall_fmap, Forall_forall in Hgt. specialize (Hgt q Hq).
      simpl in Hgt. congruence.
  - split; [by intros [? _]|].
    intros (q & Hq & Heq). exfalso.
    apply (is_equal_true m_less) in Heq as [Hqv Hvq].
    rewrite Forall_forall in Hall. specialize (Hall q Hq). congruence.
Qed.

Lemma find_first_hits_iff_stored_witness :
  ∃ r, find_first Z.ltb IntEngine.two_fives 5%Z = Some (Some r) ∧
    ((r ≠ m_tail IntEngine.two_fives ∧
      ∃ w, get_value (m_heap IntEngine.two_fives) r = Some w ∧
        is_equal Z.ltb w 5%Z = true) ↔
     ∃ q, q ∈ [(3, 5%Z); (2, 5%Z)] ∧ is_equal Z.ltb q.2 5%Z = true).
Proof.
  exact (find_first_hits_iff_stored Z.ltb IntEngine.int_min
           IntEngine.two_fives _ 5%Z Z_ltb_strict_weak_order
           int_two_fives_repr eq_refl).
Defined.

(** X7: A value that was just inserted is found: after [insert(v)] without a
    hint on a state satisfying the invariant, with [v] not equal to the
    value kept in the head sentinel, [find(v)] and [find_first(v)] return
    the same stored node, and it holds a value equal to [v]. *)
Theorem insert_then_find {T : Type} (m_less : T → T → bool)
    (T_min : T) (s : sl_impl T) (c : nat → list (addr * T)) (v : T)
    (coin : nat → bool) (p : addr) :
  strict_weak_order m_less → repr m_less T_min s c → m_heap s !! p = None →
  is_equal m_less T_min v = false →
  ∃ s' r w,
    insert m_less s v None coin p = Some (s', p) ∧
    find m_less s' v = Some r ∧ find_first m_less s' v = Some (Some r) ∧
    r ≠ m_head s' ∧ r ≠ m_tail s' ∧
    get_value (m_heap s') r = Some w ∧ is_equal m_less w v = true.
Proof.
  intros Hswo Hr Hp Hmin.
  destruct (insert_spec m_less T_min Hswo s c v coin p Hr Hp)
    as (s' & Hins & Hr' & _).
  pose proof (random_level_bounds coin) as Hrl.
  pose proof (repr_chain _ _ _ _ Hr' 0 ltac:(lia)) as Hch.
  pose proof (repr_nodup _ _ _ _ Hr' 0 ltac:(lia)) as Hnd.
  cbn beta in Hch, Hnd. rewrite decide_True in Hch, Hnd by lia.
  destruct (insert_before_prefix m_less (p, v) (c 0))
    as (l1 & l2 & _ & Hib & _).
  assert ((p, v) ∈ insert_before m_less (p, v) (c 0)) as Hpin.
  { rewrite Hib. set_solver. }
  destruct (find_floor m_less T_min Hswo s' _ v
              (repr_sorted_invariant m_less T_min s' _ Hr') Hch Hmin)
    as (r & Hfind & Hfl).
  destruct Hfl as [[_ Hall]|(w & Hin & Hvw & Hmax)].
  { rewrite Forall_forall in Hall. specialize (Hall _ Hpin). simpl in Hall.
    by rewrite (swo_irrefl _ Hswo) in Hall. }
  destruct Hch as [Hseg _].
  destruct (lseg_elem _ _ _ _ _ _ _ Hseg Hin) as (Htl & Hv & _).
  assert (is_equal m_less w v = true) as Heq.
  { apply is_equal_true. split; [|done].
    rewrite Forall_forall in Hmax. apply (Hmax _ Hpin). simpl.
    apply (swo_irrefl _ Hswo). }
  exists s', r, w. split_and!; try done.
  - unfold find_first. rewrite Hfind. cbn [mbind option_bind].
    rewrite Hv. cbn [mbind option_bind]. by rewrite Heq.
  - intros ->. apply NoDup_cons in Hnd as [Hhd _]. apply Hhd.
    apply list_elem_of_fmap. by exists (m_head s', w).
Qed.

Lemma insert_then_find_witness :
  ∃ s' r w,
    insert Z.ltb IntEngine.one_five 7%Z None IntEngine.stay 3 = Some (s', 3) ∧
    find Z.ltb s' 7%Z = Some r ∧
    get_value (m_heap s') r = Some w ∧ is_equal Z.ltb w 7%Z = true.
Proof.
  destruct (insert_then_find Z.ltb IntEngine.int_min
              IntEngine.one_five _ 7%Z IntEngine.stay 3
              Z_ltb_strict_weak_order int_one_five_repr)
    as (s' & r & w & H1 & H2 & _ & _ & _ & H3 & H4).
  { vm_compute. reflexivity. }
  { vm_compute. reflexivity. }
  by exists s', r, w.
Defined.

(** ** The ends of the bottom chain *)

(** X8: On a state satisfying the invariant [front()] and [back()] are never
    null.  With no stored node they are the tail and the head sentinel;
    otherwise [front()] is a stored node below which no stored value lies
    and [back()] is a stored node above which no stored value lies. *)
Theorem front_back_hold_extremes {T : Type} (m_less : T → T → bool)
    (T_min : T) (s : sl_impl T) (c : nat → list (addr * T)) :
  strict_weak_order m_less → repr m_less T_min s c →
  ∃ f b, front s = Some (Some f) ∧ back s = Some (Some b) ∧
    (c 0 = [] → f = m_tail s ∧ b = m_head s) ∧
    (c 0 ≠ [] → ∃ fv bv,
       (f, fv) ∈ c 0 ∧ (b, bv) ∈ c 0 ∧
       get_value (m_heap s) f = Some fv ∧ get_value (m_heap s) b = Some bv ∧
       Forall (λ q, m_less q.2 fv = false ∧ m_less bv q.2 = false) (c 0)).
Proof.
  intros Hswo Hr.
  pose proof (repr_chain _ _ _ _ Hr 0 ltac:(lia)) as Hch.
  pose proof (repr_sorted _ _ _ _ Hr 0 ltac:(lia)) as Hso.
  pose proof (repr_back_tail _ _ _ _ Hr) as Hbt.
  destruct (chain_next _ _ _ _ _ Hch) as [f Hf].
  exists f, (last_addr (m_head s) (c 0)). split_and!; [done|done| |].
  - intros Hc. rewrite Hc in *. destruct Hch as [_ Hnx].
    rewrite last_addr_nil in *. split; [congruence|done].
  - intros Hne. destruct Hch as [Hseg _].
    destruct (last_addr_cases (m_head s) (c 0)) as [[Hc _]|(l & bv & Hc)];
      [done|].
    remember (last_addr (m_head s) (c 0)) as b eqn:Hb. clear Hb.
    destruct (c 0) as [|[f' fv] l'] eqn:Hc0; [done|].
    pose proof Hseg as (Hf' & _).
    assert (f' = f) as -> by congruence.
    assert ((b, bv) ∈ (f, fv) :: l') as Hbin by (rewrite Hc; set_solver).
    exists fv, bv. split_and!; [set_solver|done|..].
    + by destruct Hseg as (_ & _ & ? & _).
    + by destruct (lseg_elem _ _ _ _ _ _ _ Hseg Hbin) as (_ & ? & _).
    + apply Forall_forall. intros q Hq. split.
      * rewrite fmap_cons in Hso. apply StronglySorted_inv in Hso as [_ Hall].
        apply elem_of_cons in Hq as [->|Hq]; [apply (swo_irrefl _ Hswo)|].
        rewrite Forall_fmap, Forall_forall in Hall. by apply Hall.
      * rewrite Hc, fmap_app in Hso. change ([(b, bv)].*2) with [bv] in Hso.
        pose proof (sorted_before_last m_less _ _ _ Hso) as Hall.
        rewrite Hc in Hq. apply elem_of_app in Hq as [Hq|Hq].
        -- rewrite Forall_fmap, Forall_forall in Hall. by apply Hall.
        -- apply list_elem_of_singleton in Hq as ->.
           apply (swo_irrefl _ Hswo).
Qed.

Lemma front_back_hold_extremes_witness :
  ∃ f b, front IntEngine.two_fives = Some (Some f) ∧
    back IntEngine.two_fives = Some (Some b) ∧
    ([(3, 5%Z); (2, 5%Z)] ≠ [] → ∃ fv bv,
       (f, fv) ∈ [(3, 5%Z); (2, 5%Z)] ∧ (b, bv) ∈ [(3, 5%Z); (2, 5%Z)] ∧
       get_value (m_heap IntEngine.two_fives) f = Some fv ∧
       get_value (m_heap IntEngine.two_fives) b = Some bv ∧
       Forall (λ q, Z.ltb q.2 fv = false ∧ Z.ltb bv q.2 = false)
         [(3, 5%Z); (2, 5%Z)]).
Proof.
  destruct (front_back_hold_extremes Z.ltb IntEngine.int_min
              IntEngine.two_fives _ Z_ltb_strict_weak_order
              int_two_fives_repr) as (f & b & H1 & H2 & _ & H3).
  by exists f, b.
Defined.

(** ** Reachable states *)

Lemma int_two_fives_reachable :
  reachable Z.ltb IntEngine.int_min IntEngine.int_max IntEngine.two_fives.
Proof.
  eapply (reach_insert _ _ _ IntEngine.one_five 5%Z IntEngine.stay 3);
    [|vm_compute; reflexivity].
  eapply (reach_insert _ _ _ IntEngine.empty 5%Z IntEngine.stay 2);
    [|vm_compute; reflexivity].
  apply (reach_init _ _ _ 0 1). vm_compute. reflexivity.
Qed.

(** X9: In every state reached from a fresh engine by [insert] without a hint,
    [remove] of a node that no equal node precedes and [remove_all], the
    forward traversal visits every allocated node other than the sentinels
    exactly once and nothing else, and [size()] is the number of nodes it
    visits (modulo [2^64]). *)
Theorem size_counts_stored_nodes {T : Type} (m_less : T → T → bool)
    (T_min T_max : T) (s : sl_impl T) :
  strict_weak_order m_less → reachable m_less T_min T_max s →
  ∃ fw, forward s = Some fw ∧ NoDup fw ∧
    (∀ a, a ∈ fw ↔
       is_Some (m_heap s !! a) ∧ a ≠ m_head s ∧ a ≠ m_tail s) ∧
    size s = (Z.of_nat (length fw) mod size_modulus)%Z.
Proof.
  intros Hswo Hreach.
  destruct (reachable_repr m_less T_min T_max Hswo s Hreach) as [c Hr].
  exists (c 0).*1. split_and!.
  - by apply (forward_spec m_less T_min).
  - pose proof (repr_nodup _ _ _ _ Hr 0 ltac:(lia)) as Hnd.
    by apply NoDup_cons in Hnd as [_ ?].
  - intros a. rewrite (repr_mem _ _ _ _ Hr 0 a) by lia.
    rewrite <-not_eq_None_Some, <-(get_level_None (m_heap s) a). split.
    + intros (? & ? & k & Hk & _). split_and!; try done. congruence.
    + intros (Ha & ? & ?). split_and!; try done.
      destruct (get_level (m_heap s) a) as [k|]; [|done].
      exists k. split; [done|lia].
  - unfold size. rewrite (repr_size _ _ _ _ Hr). by rewrite length_fmap.
Qed.

Lemma size_counts_stored_nodes_witness :
  ∃ fw, forward IntEngine.two_fives = Some fw ∧ NoDup fw ∧
    size IntEngine.two_fives = (Z.of_nat (length fw) mod size_modulus)%Z.
Proof.
  destruct (size_counts_stored_nodes Z.ltb IntEngine.int_min
              IntEngine.int_max IntEngine.two_fives
              Z_ltb_strict_weak_order int_two_fives_reachable)
    as (fw & H1 & H2 & _ & H3).
  by exists fw.
Defined.

(** X10: In every state reached from a fresh engine by [insert] without a
    hint, [remove] of a node that no equal node precedes and
    [remove_all], the backward traversal from [back()] visits the nodes
    of the forward traversal from [front()] in reverse order, the values
    read on the way back are those read on the way forth, reversed, and
    the values read on the way forth are in non-decreasing order. *)
Theorem reachable_traversals_mirror {T : Type} (m_less : T → T → bool)
    (T_min T_max : T) (s : sl_impl T) :
  strict_weak_order m_less → reachable m_less T_min T_max s →
  ∃ fw vs, forward s = Some fw ∧ backward s = Some (reverse fw) ∧
    values_of (m_heap s) fw = Some vs ∧
    values_of (m_heap s) (reverse fw) = Some (reverse vs) ∧
    non_decreasing m_less vs.
Proof.
  intros Hswo Hreach.
  destruct (reachable_repr m_less T_min T_max Hswo s Hreach) as [c Hr].
  destruct (traversal_symmetry m_less T_min s c Hr)
    as (fw & bw & vs & Hfw & Hbw & -> & Hvs & Hrvs).
  exists fw, vs. split_and!; try done.
  rewrite (forward_spec m_less T_min s c Hr) in Hfw. injection Hfw as <-.
  destruct (repr_chain _ _ _ _ Hr 0 ltac:(lia)) as [Hseg _].
  rewrite (values_of_chain _ _ _ _ _ Hseg) in Hvs. injection Hvs as <-.
  apply (repr_sorted _ _ _ _ Hr). lia.
Qed.

Lemma reachable_traversals_mirror_witness :
  ∃ fw vs, forward IntEngine.two_fives = Some fw ∧
    backward IntEngine.two_fives = Some (reverse fw) ∧
    values_of (m_heap IntEngine.two_fives) fw = Some vs ∧
    non_decreasing Z.ltb vs.
Proof.
  destruct (reachable_traversals_mirror Z.ltb IntEngine.int_min
              IntEngine.int_max IntEngine.two_fives
              Z_ltb_strict_weak_order int_two_fives_reachable)
    as (fw & vs & H1 & H2 & H3 & _ & H4).
  by exists fw, vs.
Defined.

(** ** Iterators *)

Section IteratorSteps.
Context {T : Type} (m_less : T → T → bool) (T_min : T).
Implicit Types (s : sl_impl T) (c : nat → list (addr * T)).

(** The node at which the bottom chain is cut and the one after it point
    at each other. *)
Lemma cut_links s c l1 l2 :
  repr m_less T_min s c → c 0 = l1 ++ l2 →
  ∃ y, y = default (m_tail s) (head l2.*1) ∧
    get_next (m_heap s) (last_addr (m_head s) l1) 0 = Some (Some y) ∧
    get_prev (m_heap s) y = Some (Some (last_addr (m_head s) l1)).
Proof.
  intros Hr Hc.
  pose proof (repr_chain _ _ _ _ Hr 0 ltac:(lia)) as [Hseg Hend].
  pose proof (repr_back _ _ _ _ Hr) as Hb.
  pose proof (repr_back_tail _ _ _ _ Hr) as Hbt.
  rewrite Hc in Hseg, Hend, Hb, Hbt.
  apply lseg_app in Hseg as [_ Hseg]. apply back_seg_app in Hb as [_ Hb].
  destruct l2 as [|[y v] l2].
  - rewrite app_nil_r in Hend, Hbt. by exists (m_tail s).
  - exists y. destruct Hseg as (Hn & _). by destruct Hb as (Hp & _).
Qed.

End IteratorSteps.

(** X11: On a state satisfying the invariant, [++] and [--] undo each other
    between the sentinels: [++] takes an iterator at the head or at a
    stored node to a stored node or to the tail, from where [--] leads
    back, and [--] takes an iterator at a stored node or at the tail to a
    stored node or to the head, from where [++] leads back.  The postfix
    operators return the old position. *)
Theorem iterator_steps_invert {T : Type} (m_less : T → T → bool) (T_min : T)
    (s : sl_impl T) (c : nat → list (addr * T)) :
  repr m_less T_min s c →
  (∀ x, x ∈ m_head s :: (c 0).*1 →
     ∃ y, iter_incr (m_heap s) (Some x) = Some (Some y) ∧
       iter_post_incr (m_heap s) (Some x) = Some (Some x, Some y) ∧
       y ∈ (c 0).*1 ++ [m_tail s] ∧
       iter_decr (m_heap s) (Some y) = Some (Some x)) ∧
  (∀ y, y ∈ (c 0).*1 ++ [m_tail s] →
     ∃ x, iter_decr (m_heap s) (Some y) = Some (Some x) ∧
       iter_post_decr (m_heap s) (Some y) = Some (Some y, Some x) ∧
       x ∈ m_head s :: (c 0).*1 ∧
       iter_incr (m_heap s) (Some x) = Some (Some y)).
Proof.
  intros Hr. unfold iter_post_incr, iter_post_decr, iter_incr, iter_decr.
  cbn [mbind option_bind]. split.
  - intros x Hx.
    assert (∃ l1 l2, c 0 = l1 ++ l2 ∧ last_addr (m_head s) l1 = x)
      as (l1 & l2 & Hc & <-).
    { apply elem_of_cons in Hx as [->|Hx]; [by exists [], (c 0)|].
      apply list_elem_of_fmap in Hx as ([x' v] & -> & Hin).
      apply list_elem_of_split in Hin as (l1 & l2 & Hc).
      exists (l1 ++ [(x', v)]), l2. rewrite <-app_assoc.
      split; [done|]. by rewrite last_addr_snoc. }
    destruct (cut_links m_less T_min s c l1 l2 Hr Hc) as (y & Hy & Hn & Hp).
    exists y. rewrite Hn. cbn [mbind option_bind]. split_and!; try done.
    rewrite Hc, fmap_app. destruct l2 as [|[y' v] l2]; simpl in Hy; subst y;
      set_solver.
  - intros y Hy.
    assert (∃ l1 l2, c 0 = l1 ++ l2 ∧ default (m_tail s) (head l2.*1) = y)
      as (l1 & l2 & Hc & Hd).
    { apply elem_of_app in Hy as [Hy|Hy].
      - apply list_elem_of_fmap in Hy as ([y' v] & -> & Hin).
        apply list_elem_of_split in Hin as (l1 & l2 & Hc).
        by exists l1, ((y', v) :: l2).
      - apply list_elem_of_singleton in Hy as ->.
        exists (c 0), []. by rewrite app_nil_r. }
    destruct (cut_links m_less T_min s c l1 l2 Hr Hc) as (y' & Hy' & Hn & Hp).
    assert (y' = y) as -> by congruence.
    exists (last_addr (m_head s) l1). rewrite Hp. cbn [mbind option_bind].
    split_and!; try done.
    pose proof (last_addr_elem (m_head s) l1) as Hla.
    rewrite Hc, fmap_app. set_solver.
Qed.

Lemma iterator_steps_invert_witness :
  ∃ y, iter_incr (m_heap IntEngine.two_fives) (Some 3) = Some (Some y) ∧
    iter_decr (m_heap IntEngine.two_fives) (Some y) = Some (Some 3).
Proof.
  destruct (proj1 (iterator_steps_invert Z.ltb IntEngine.int_min
              IntEngine.two_fives _ int_two_fives_repr) 3)
    as (y & H1 & _ & _ & H2).
  { cbn beta. rewrite decide_True by lia. set_solver. }
  by exists y.
Defined.

(** ** Destruction *)

(** X12: On a state satisfying the invariant the destructor runs to its end
    and leaves nothing allocated: every stored node and both sentinels
    are freed, each once. *)
Theorem destructor_frees_everything {T : Type} (m_less : T → T → bool)
    (T_min : T) (s : sl_impl T) (c : nat → list (addr * T)) :
  repr m_less T_min s c → sl_destroy s = Some ∅.
Proof.
  intros Hr.
  destruct (remove_all_spec m_less T_min s c Hr) as (s' & Hall & Hr' & Hfree).
  pose proof (remove_all_inv s s' Hall) as Hinv.
  unfold sl_destroy. rewrite Hall. cbn [mbind option_bind].
  pose proof (repr_head_level _ _ _ _ Hr') as Hhl.
  pose proof (repr_tail_level _ _ _ _ Hr') as Htl.
  pose proof (repr_ends _ _ _ _ Hr') as Hends.
  unfold get_level in Hhl, Htl.
  destruct (m_heap s' !! m_head s') as [hn|] eqn:Hh; [|done].
  cbn [mbind option_bind]. rewrite lookup_delete_ne by done.
  destruct (m_heap s' !! m_tail s') as [tn|] eqn:Ht; [|done].
  cbn [mbind option_bind]. f_equal. apply map_eq. intros a.
  rewrite lookup_empty.
  destruct (decide (a = m_tail s')) as [->|Hat];
    [by rewrite lookup_delete_eq|rewrite lookup_delete_ne by done].
  destruct (decide (a = m_head s')) as [->|Hah];
    [by rewrite lookup_delete_eq|rewrite lookup_delete_ne by done].
  apply Hfree; naive_solver.
Qed.

Lemma destructor_frees_everything_witness :
  sl_destroy IntEngine.two_fives = Some ∅.
Proof.
  exact (destructor_frees_everything Z.ltb IntEngine.int_min
           IntEngine.two_fives _ int_two_fives_repr).
Defined.

(** ** What [insert] and [remove] leave alone *)

Section Frames.
Context {T : Type} (m_less : T → T → bool).
Implicit Types (h : gmap addr (sl_node T)) (s : sl_impl T).

(** The loops of [insert] and [remove] write links only. *)
Lemma insert_loop_frame fuel tl v new nl : ∀ level h curr h' curr',
  insert_loop m_less fuel tl v new nl level h curr = Some (h', curr') →
  ∀ a, get_value h' a = get_value h a ∧ get_level h' a = get_level h a.
Proof.
  induction level as [|level IH]; intros h curr h' curr' Hloop a;
    rewrite insert_loop_unfold in Hloop;
    apply bind_Some in Hloop as (c1 & _ & Hloop);
    apply bind_Some in Hloop as (h1 & Hh1 & Hloop).
  all: assert (get_value h1 a = get_value h a ∧
               get_level h1 a = get_level h a) as [Hv Hl].
  1,3: case_decide; [|by injection Hh1 as <-];
    apply bind_Some in Hh1 as (nx & _ & Hh1);
    apply bind_Some in Hh1 as (_ & _ & Hh1);
    apply bind_Some in Hh1 as (h0 & Hh0 & Hh1);
    rewrite (get_value_set_next _ _ _ _ _ a Hh1),
      (get_level_set_next _ _ _ _ _ a Hh1),
      (get_value_set_next _ _ _ _ _ a Hh0),
      (get_level_set_next _ _ _ _ _ a Hh0); done.
  - injection Hloop as <- <-. done.
  - destruct (IH _ _ _ _ Hloop a) as [-> ->]. done.
Qed.

Lemma remove_loop_frame fuel tl node : ∀ n h curr h',
  remove_loop m_less n fuel tl node h curr = Some h' →
  ∀ a, get_value h' a = get_value h a ∧ get_level h' a = get_level h a ∧
       (is_Some (h' !! a) ↔ is_Some (h !! a)).
Proof.
  induction n as [|n IH]; intros h curr h' Hloop a.
  { cbn [remove_loop] in Hloop. by injection Hloop as <-. }
  rewrite remove_loop_unfold in Hloop.
  apply bind_Some in Hloop as (lv & _ & Hloop).
  apply bind_Some in Hloop as (_ & _ & Hloop).
  apply bind_Some in Hloop as (value & _ & Hloop).
  apply bind_Some in Hloop as (c1 & _ & Hloop).
  apply bind_Some in Hloop as (nx & _ & Hloop).
  apply bind_Some in Hloop as (h1 & Hh1 & Hloop).
  destruct (IH _ _ _ Hloop a) as (-> & -> & ->).
  case_decide; [|by injection Hh1 as <-].
  apply bind_Some in Hh1 as (nn & _ & Hh1).
  rewrite (get_value_set_next _ _ _ _ _ a Hh1),
    (get_level_set_next _ _ _ _ _ a Hh1).
  split_and!; try done.
  rewrite <-!not_eq_None_Some, <-!get_level_None.
  by rewrite (get_level_set_next _ _ _ _ _ a Hh1).
Qed.

End Frames.

(** X13: Whenever [insert] returns, with or without a hint and on any state,
    it returns the address of the one node it allocated, which holds the
    value and the level drawn for it; every other node is allocated or
    not as before and keeps its value and level, the sentinels stay, and
    [size()] has grown by one (modulo [2^64]). *)
Theorem insert_allocates_one_node {T : Type} (m_less : T → T → bool)
    (s s' : sl_impl T) (v : T) (hint : option addr) (coin : nat → bool)
    (p n : addr) :
  insert m_less s v hint coin p = Some (s', n) →
  n = p ∧ m_heap s !! p = None ∧
  get_value (m_heap s') p = Some v ∧
  get_level (m_heap s') p = Some (random_level coin) ∧
  (∀ a, a ≠ p →
     get_value (m_heap s') a = get_value (m_heap s) a ∧
     get_level (m_heap s') a = get_level (m_heap s) a) ∧
  m_head s' = m_head s ∧ m_tail s' = m_tail s ∧
  size s' = ((size s + 1) mod size_modulus)%Z.
Proof.
  unfold insert, assert. intros Hins. case_decide as Hp; [|done].
  cbn [mbind option_bind] in Hins.
  apply bind_Some in Hins as (lv & _ & Hins).
  apply bind_Some in Hins as ([h1 curr'] & Hloop & Hins).
  apply bind_Some in Hins as (nx & _ & Hins).
  case_decide; [|done]. cbn [mbind option_bind] in Hins.
  apply bind_Some in Hins as (h2 & Hh2 & Hins).
  apply bind_Some in Hins as (nn & _ & Hins).
  apply bind_Some in Hins as (nna & _ & Hins).
  apply bind_Some in Hins as (h3 & Hh3 & Hins).
  injection Hins as <- <-. cbn [m_heap m_head m_tail m_size size].
  pose proof (insert_loop_frame m_less _ _ _ _ _ _ _ _ _ _ Hloop) as Hfr.
  assert (∀ a, get_value h3 a
                 = get_value (<[p:=new_node v (random_level coin)]> (m_heap s)) a
             ∧ get_level h3 a
                 = get_level (<[p:=new_node v (random_level coin)]> (m_heap s)) a)
    as Hall.
  { intros a. destruct (Hfr a) as [<- <-].
    rewrite (get_value_set_prev _ _ _ _ a Hh3),
      (get_level_set_prev _ _ _ _ a Hh3),
      (get_value_set_prev _ _ _ _ a Hh2),
      (get_level_set_prev _ _ _ _ a Hh2). done. }
  split_and!; try done.
  - destruct (Hall p) as [-> _]. unfold get_value.
    by rewrite lookup_insert_eq.
  - destruct (Hall p) as [_ ->]. unfold get_level.
    by rewrite lookup_insert_eq.
  - intros a Ha. destruct (Hall a) as [-> ->]. unfold get_value, get_level.
    by rewrite lookup_insert_ne.
Qed.

Lemma insert_allocates_one_node_witness :
  get_value (m_heap IntEngine.hinted) 3 = Some 7%Z ∧
  (∀ a, a ≠ 3 →
     get_value (m_heap IntEngine.hinted) a
       = get_value (m_heap IntEngine.one_five) a ∧
     get_level (m_heap IntEngine.hinted) a
       = get_level (m_heap IntEngine.one_five) a).
Proof.
  destruct (insert_allocates_one_node Z.ltb IntEngine.one_five
              IntEngine.hinted 7%Z (Some 2) IntEngine.once 3 3)
    as (_ & _ & H1 & _ & H2 & _).
  { vm_compute. reflexivity. }
  by split.
Defined.

(** X14: Whenever [remove] returns, on any state, the handle was an allocated
    node other than the sentinels and is freed; every other node is
    allocated or not as before and keeps its value and level, the
    sentinels stay, [size()] has dropped by one (modulo [2^64]), and
    [remove] of the same handle again does not return. *)
Theorem remove_frees_one_node {T : Type} (m_less : T → T → bool)
    (s s' : sl_impl T) (n : addr) :
  remove m_less s (Some n) = Some s' →
  is_Some (m_heap s !! n) ∧ n ≠ m_head s ∧ n ≠ m_tail s ∧
  m_heap s' !! n = None ∧
  (∀ a, a ≠ n →
     (is_Some (m_heap s' !! a) ↔ is_Some (m_heap s !! a)) ∧
     get_value (m_heap s') a = get_value (m_heap s) a ∧
     get_level (m_heap s') a = get_level (m_heap s) a) ∧
  m_head s' = m_head s ∧ m_tail s' = m_tail s ∧
  size s' = ((size s - 1) mod size_modulus)%Z ∧
  remove m_less s' (Some n) = None.
Proof.
  unfold remove at 1, assert. cbn [mbind option_bind]. intros Hrem.
  apply bind_Some in Hrem as (nx & Hnx & Hrem).
  destruct (decide (nx ≠ None)); cbn [mbind option_bind] in Hrem; [|done].
  destruct (decide (m_head s ≠ n)); cbn [mbind option_bind] in Hrem; [|done].
  destruct (decide (m_tail s ≠ n)); cbn [mbind option_bind] in Hrem; [|done].
  apply bind_Some in Hrem as (nxa & _ & Hrem).
  apply bind_Some in Hrem as (pv & _ & Hrem).
  apply bind_Some in Hrem as (h1 & Hh1 & Hrem).
  apply bind_Some in Hrem as (h2 & Hloop & Hrem).
  apply bind_Some in Hrem as (nd & _ & Hrem).
  injection Hrem as <-. cbn [m_heap m_head m_tail m_size size].
  pose proof (remove_loop_frame m_less _ _ _ _ _ _ _ Hloop) as Hfr.
  assert (∀ a, is_Some (h1 !! a) ↔ is_Some (m_heap s !! a)) as Hdom.
  { intros a. rewrite <-!not_eq_None_Some, <-!get_level_None.
    by rewrite (get_level_set_prev _ _ _ _ a Hh1). }
  split_and!; try done.
  - destruct (get_next_level _ _ _ _ Hnx) as [k Hk].
    rewrite <-not_eq_None_Some, <-get_level_None. congruence.
  - apply lookup_delete_eq.
  - intros a Ha. unfold get_value, get_level.
    rewrite !lookup_delete_ne by done.
    destruct (Hfr a) as (Hv & Hl & Hd). unfold get_value, get_level in Hv, Hl.
    rewrite Hv, Hl, Hd, Hdom. split_and!; [done|..].
    + apply (get_value_set_prev _ _ _ _ a Hh1).
    + apply (get_level_set_prev _ _ _ _ a Hh1).
  - unfold remove. cbn [mbind option_bind m_heap]. unfold get_next.
    by rewrite lookup_delete_eq.
Qed.

Lemma remove_frees_one_node_witness :
  m_heap IntEngine.after_remove !! 2 = None ∧
  remove Z.ltb IntEngine.after_remove (Some 2) = None.
Proof.
  destruct (remove_frees_one_node Z.ltb IntEngine.two_fives
              IntEngine.after_remove 2)
    as (_ & _ & _ & H1 & _ & _ & _ & _ & H2).
  { vm_compute. reflexivity. }
  by split.
Defined.

(** X15: [remove] never returns when it is given a null pointer, the head or
    the tail sentinel, or an address that is not allocated: an [assert]
    fails or the node read is not there. *)
Theorem remove_rejects_bad_handles {T : Type} (m_less : T → T → bool)
    (s : sl_impl T) :
  remove m_less s None = None ∧
  remove m_less s (Some (m_head s)) = None ∧
  remove m_less s (Some (m_tail s)) = None ∧
  (∀ n, m_heap s !! n = None → remove m_less s (Some n) = None).
Proof.
  unfold remove, assert. cbn [mbind option_bind]. split_and!.
  - done.
  - destruct (get_next (m_heap s) (m_head s) 0) as [nx|]; [|done].
    cbn [mbind option_bind].
    destruct (decide (nx ≠ None)); cbn [mbind option_bind]; [|done].
    destruct (decide (m_head s ≠ m_head s)); [done|].
    by cbn [mbind option_bind].
  - destruct (get_next (m_heap s) (m_tail s) 0) as [nx|]; [|done].
    cbn [mbind option_bind].
    destruct (decide (nx ≠ None)); cbn [mbind option_bind]; [|done].
    destruct (decide (m_head s ≠ m_tail s)); cbn [mbind option_bind];
      [|done].
    destruct (decide (m_tail s ≠ m_tail s)); [done|].
    by cbn [mbind option_bind].
  - intros n Hn. unfold get_next. by rewrite Hn.
Qed.

(** ** [remove] of a node whose value no other node holds *)

Section RemoveUnique.
Context {T : Type} (m_less : T → T → bool) (T_min : T).
Hypothesis Hswo : strict_weak_order m_less.
Implicit Types (s : sl_impl T) (c : nat → list (addr * T)).

Lemma remove_addr_elem_pair n (q : addr * T) (l : list (addr * T)) :
  q ∈ remove_addr n l → q ∈ l ∧ q.1 ≠ n.
Proof.
  clear Hswo. induction l as [|r l IH]; simpl; [by intros ?%elem_of_nil|].
  case_decide.
  - intros Hq. destruct (IH Hq). split; [by right|done].
  - intros [->|Hq]%elem_of_cons; [split; [by left|done]|].
    destruct (IH Hq). split; [by right|done].
Qed.

(** Every chain is part of the bottom chain. *)
Lemma repr_sub_bottom s c L q :
  repr m_less T_min s c → L ≤ max_levels → q ∈ c L → q ∈ c 0.
Proof.
  clear Hswo. intros Hr. induction L as [|L IH]; [done|].
  intros HL Hq. apply IH; [lia|]. apply (repr_sub m_less T_min s c); [done|lia|done].
Qed.

(** A node holding a value of its own stands behind smaller values only,
    on every chain. *)
Lemma unique_value_leads s c n v :
  repr m_less T_min s c → unique_value m_less (c 0) n v →
  leads_equals m_less c n v.
Proof.
  intros Hr Huniq L l1 l2 HL Hc. apply Forall_forall. intros q Hq.
  pose proof (repr_nodup _ _ _ _ Hr L HL) as Hnd.
  pose proof (repr_sorted _ _ _ _ Hr L HL) as Hso.
  rewrite Hc in Hnd, Hso. apply NoDup_cons in Hnd as [_ Hnd].
  rewrite fmap_app, fmap_cons in Hnd. rewrite fmap_app, fmap_cons in Hso.
  apply NoDup_app in Hnd as (_ & Hdisj & _).
  assert (q.1 ≠ n) as Hqn.
  { intros <-. apply (Hdisj q.1); [|by left].
    apply list_elem_of_fmap. by exists q. }
  assert (q ∈ c 0) as Hq0.
  { apply (repr_sub_bottom s c L); [done|done|]. rewrite Hc. set_solver. }
  pose proof (Huniq q Hq0 Hqn) as Hneq.
  pose proof (sorted_before_last m_less _ _ _ Hso) as Hall.
  rewrite Forall_fmap, Forall_forall in Hall. specialize (Hall q Hq).
  simpl in Hall. unfold is_equal in Hneq.
  destruct (m_less q.2 v); [done|]. by rewrite Hall in Hneq.
Qed.

Lemma remove_unique s c n v :
  repr m_less T_min s c → (n, v) ∈ c 0 → unique_value m_less (c 0) n v →
  ∃ s' l1 l2,
    remove m_less s (Some n) = Some s' ∧
    repr m_less T_min s' (λ L, remove_addr n (c L)) ∧
    c 0 = l1 ++ (n, v) :: l2 ∧ remove_addr n (c 0) = l1 ++ l2 ∧
    m_heap s' !! n = None ∧
    m_size s' = ((m_size s - 1) mod size_modulus)%Z.
Proof.
  intros Hr Hin Huniq.
  destruct (remove_spec m_less T_min Hswo s c n v Hr Hin)
    as (s' & Hrem & Hr' & Hsz & Hfree & _).
  { by apply (unique_value_leads s). }
  apply list_elem_of_split in Hin as (l1 & l2 & Hc).
  exists s', l1, l2. split_and!; try done.
  rewrite Hc. apply remove_addr_split. rewrite <-Hc.
  pose proof (repr_nodup _ _ _ _ Hr 0 ltac:(lia)) as Hnd.
  by apply NoDup_cons in Hnd as [_ ?].
Qed.

End RemoveUnique.

(** X16: On a state satisfying the invariant, [remove] of a stored node whose
    value no other stored node holds succeeds: the node is freed, the
    forward traversal loses it and nothing else, the values of the other
    nodes are read as before, the invariant holds again and [size()]
    drops by one (modulo [2^64]). *)
Theorem remove_unique_value_unlinks {T : Type} (m_less : T → T → bool)
    (T_min : T) (s : sl_impl T) (c : nat → list (addr * T)) (n : addr)
    (v : T) :
  strict_weak_order m_less → repr m_less T_min s c →
  (n, v) ∈ c 0 → unique_value m_less (c 0) n v →
  ∃ s' l1 l2,
    remove m_less s (Some n) = Some s' ∧
    forward s = Some (l1.*1 ++ n :: l2.*1) ∧
    forward s' = Some (l1.*1 ++ l2.*1) ∧
    values_of (m_heap s') (l1.*1 ++ l2.*1) = Some (l1.*2 ++ l2.*2) ∧
    values_of (m_heap s) (l1.*1 ++ l2.*1) = Some (l1.*2 ++ l2.*2) ∧
    (∀ L, L ≤ max_levels → n ∉ (remove_addr n (c L)).*1) ∧
    repr m_less T_min s' (λ L, remove_addr n (c L)) ∧
    m_heap s' !! n = None ∧
    size s' = ((size s - 1) mod size_modulus)%Z.
Proof.
  intros Hswo Hr Hin Huniq.
  destruct (remove_unique m_less T_min Hswo s c n v Hr Hin Huniq)
    as (s' & l1 & l2 & Hrem & Hr' & Hc & Hc' & Hfree & Hsz).
  exists s', l1, l2.
  pose proof (forward_spec m_less T_min s c Hr) as Hfw.
  pose proof (forward_spec m_less T_min s' _ Hr') as Hfw'.
  destruct (repr_chain _ _ _ _ Hr 0 ltac:(lia)) as [Hseg _].
  destruct (repr_chain _ _ _ _ Hr' 0 ltac:(lia)) as [Hseg' _].
  cbn beta in Hfw', Hseg'. rewrite Hc' in Hfw', Hseg'. rewrite Hc in Hfw, Hseg.
  rewrite fmap_app in Hfw'. rewrite fmap_app, fmap_cons in Hfw.
  split_and!; try done.
  - apply values_of_chain in Hseg'. by rewrite !fmap_app in Hseg'.
  - apply values_of_chain in Hseg. rewrite !fmap_app, !fmap_cons in Hseg.
    cbn [fst snd] in Hseg. unfold values_of in *.
    apply mapM_Some in Hseg. apply mapM_Some.
    apply Forall2_app_inv in Hseg as [H1 H2].
    + apply Forall2_cons in H2 as [_ H2]. by apply Forall2_app.
    + by rewrite !length_fmap.
  - intros L _. rewrite remove_addr_elem. naive_solver.
Qed.

Lemma remove_unique_value_unlinks_witness :
  ∃ s' (l1 l2 : list (addr * Z)),
    remove Z.ltb IntEngine.one_five (Some 2) = Some s' ∧
    forward IntEngine.one_five = Some (l1.*1 ++ 2 :: l2.*1) ∧
    forward s' = Some (l1.*1 ++ l2.*1) ∧
    m_heap s' !! 2 = None.
Proof.
  destruct (remove_unique_value_unlinks Z.ltb IntEngine.int_min
              IntEngine.one_five _ 2 5%Z Z_ltb_strict_weak_order
              int_one_five_repr)
    as (s' & l1 & l2 & H1 & H2 & H3 & _ & _ & _ & _ & H4 & _).
  { cbn beta. rewrite decide_True by lia. set_solver. }
  { intros q Hq Hne. cbn beta in Hq. rewrite decide_True in Hq by lia.
    apply list_elem_of_singleton in Hq as ->. done. }
  by exists s', l1, l2.
Defined.

(** X17: On a state satisfying the invariant, after [remove] of a stored
    node whose value no other stored node holds, [find_first] of the
    removed value, when it is not equal to the value kept in the head
    sentinel, returns the tail or a stored node holding a greater value,
    and never the freed node. *)
Theorem remove_then_find_first {T : Type} (m_less : T → T → bool)
    (T_min : T) (s : sl_impl T) (c : nat → list (addr * T)) (n : addr)
    (v : T) :
  strict_weak_order m_less → repr m_less T_min s c →
  (n, v) ∈ c 0 → unique_value m_less (c 0) n v →
  is_equal m_less T_min v = false →
  ∃ s' r,
    remove m_less s (Some n) = Some s' ∧
    find_first m_less s' v = Some (Some r) ∧ r ≠ n ∧
    (r = m_tail s' ∨
     ∃ w, get_value (m_heap s') r = Some w ∧ m_less v w = true).
Proof.
  intros Hswo Hr Hin Huniq Hmin.
  destruct (remove_unique m_less T_min Hswo s c n v Hr Hin Huniq)
    as (s' & l1 & l2 & Hrem & Hr' & Hc & Hc' & Hfree & Hsz).
  pose proof (repr_chain _ _ _ _ Hr' 0 ltac:(lia)) as Hch.
  pose proof Hch as [Hseg _]. cbn beta in Hch, Hseg.
  destruct (find_first_lower_bound m_less T_min Hswo s' _ v
              (repr_sorted_invariant m_less T_min s' _ Hr') Hch Hmin)
    as (r & Hff & Hlb).
  exists s', r. split; [done|]. split; [done|].
  destruct Hlb as [(w & Hrw & Heq)|[(a1 & w & a2 & Ha & _ & Hw)|[-> _]]].
  - exfalso. apply (remove_addr_elem_pair n) in Hrw as [Hrw Hne].
    pose proof (Huniq _ Hrw Hne) as Hneq. simpl in Hneq. congruence.
  - assert ((r, w) ∈ remove_addr n (c 0)) as Hrw by (rewrite Ha; set_solver).
    destruct (lseg_elem _ _ _ _ _ _ _ Hseg Hrw) as (_ & Hv & _).
    split; [|right; eauto].
    by apply (remove_addr_elem_pair n) in Hrw as [_ ?].
  - split; [|by left]. intros <-.
    pose proof (repr_tail_level _ _ _ _ Hr') as Htl.
    apply get_level_None in Hfree. congruence.
Qed.

Lemma remove_then_find_first_witness :
  ∃ s' r,
    remove Z.ltb IntEngine.one_five (Some 2) = Some s' ∧
    find_first Z.ltb s' 5%Z = Some (Some r) ∧ r ≠ 2.
Proof.
  destruct (remove_then_find_first Z.ltb IntEngine.int_min
              IntEngine.one_five _ 2 5%Z Z_ltb_strict_weak_order
              int_one_five_repr)
    as (s' & r & H1 & H2 & H3 & _).
  { cbn beta. rewrite decide_True by lia. set_solver. }
  { intros q Hq Hne. cbn beta in Hq. rewrite decide_True in Hq by lia.
    apply list_elem_of_singleton in Hq as ->. done. }
  { reflexivity. }
  by exists s', r.
Defined.

(** ** [insert] with a hint that is far enough up and to the left *)

Section HintAgrees.
Context {T : Type} (m_less : T → T → bool).
Hypothesis Hswo : strict_weak_order m_less.
Variables (h : gmap addr (sl_node T)) (tl hd n : addr) (v : T) (nl fuel : nat).
Variable c : nat → list (addr * T).
Variable K : nat.
Hypothesis Hch : ∀ L, L ≤ K → chain h tl L hd (c L).
Hypothesis Hsorted : ∀ L, L ≤ K → non_decreasing m_less (c L).*2.
Hypothesis Hsub : ∀ L p, L < K → p ∈ c (S L) → p ∈ c L.
Hypothesis Hfuel : ∀ L, L ≤ K → length (c L) < fuel.

(** The scan of a level stops at the same node wherever it starts among
    the nodes below [v]. *)
Lemma scan_from_prefix L pre post :
  L ≤ K → c L = pre ++ post → Forall (λ q, m_less q.2 v = true) pre →
  insert_scan m_less fuel h tl L v (last_addr hd pre)
    = insert_scan m_less fuel h tl L v hd.
Proof using Hch Hfuel.
  intros HL Hc Hpre. pose proof (Hch L HL) as Hc1. pose proof (Hfuel L HL) as Hf.
  destruct (insert_scan_spec m_less h tl L v (c L) hd fuel Hc1 Hf)
    as (l1 & l2 & Hl & Hl1 & Hl2 & ->).
  rewrite Hc in Hc1, Hf. apply chain_app in Hc1 as [_ Hc2].
  rewrite length_app in Hf.
  destruct (insert_scan_spec m_less h tl L v post (last_addr hd pre) fuel Hc2)
    as (m1 & m2 & Hm & Hm1 & Hm2 & ->); [lia|].
  rewrite <-last_addr_app.
  rewrite Hc, Hm, app_assoc in Hl.
  destruct (split_unique m_less v _ _ _ _ Hl) as [-> _]; try done.
  by apply Forall_app.
Qed.

Lemma loop_from_prefix k pre post :
  k ≤ K → c k = pre ++ post → Forall (λ q, m_less q.2 v = true) pre →
  insert_loop m_less fuel tl v n nl k h (last_addr hd pre)
    = insert_loop m_less fuel tl v n nl k h hd.
Proof using Hch Hfuel.
  intros Hk Hc Hpre. rewrite !insert_loop_unfold.
  by rewrite (scan_from_prefix k pre post).
Qed.

(** The levels above the new node's are walked through without a
    write. *)
Lemma loop_skips_levels hl d :
  nl ≤ hl → hl + d ≤ K →
  insert_loop m_less fuel tl v n nl (hl + d) h hd
    = insert_loop m_less fuel tl v n nl hl h hd.
Proof using Hswo Hch Hsorted Hsub Hfuel.
  intros Hnl. induction d as [|d IH]; intros Hd.
  { by rewrite Nat.add_0_r. }
  rewrite <-IH by lia. replace (hl + S d) with (S (hl + d)) by lia.
  rewrite (insert_loop_unfold _ _ _ _ _ _ (S (hl + d))).
  destruct (insert_scan_spec m_less h tl (S (hl + d)) v (c (S (hl + d))) hd
              fuel) as (l1 & l2 & Hl & Hl1 & Hl2 & ->).
  { apply Hch. lia. }
  { apply Hfuel. lia. }
  cbn [mbind option_bind]. rewrite decide_False by lia.
  cbn [mbind option_bind].
  destruct (descend_position m_less Hswo hd v c K Hsorted Hsub (hl + d) l1 l2)
    as (pre & post & Hc & <- & Hpre); [lia|done|done|].
  apply (loop_from_prefix _ pre post); [lia|done|done].
Qed.

End HintAgrees.

(** X18: A hint is a shortcut only, when it is a stored node that holds less
    than the new value and is at least as tall as the new node: on a
    state satisfying the invariant [insert] with such a hint returns what
    [insert] without a hint returns, a state that satisfies the invariant
    with the new node in its sorted place on every level it has. *)
Theorem insert_with_good_hint_agrees {T : Type} (m_less : T → T → bool)
    (T_min : T) (s : sl_impl T) (c : nat → list (addr * T)) (v w : T)
    (hint : addr) (hl : nat) (coin : nat → bool) (p : addr) :
  strict_weak_order m_less → repr m_less T_min s c → m_heap s !! p = None →
  (hint, w) ∈ c 0 → m_less w v = true →
  get_level (m_heap s) hint = Some hl → random_level coin ≤ hl →
  insert m_less s v (Some hint) coin p = insert m_less s v None coin p ∧
  ∃ s', insert m_less s v (Some hint) coin p = Some (s', p) ∧
    repr m_less T_min s'
      (λ L, if decide (L ≤ random_level coin)
            then insert_before m_less (p, v) (c L) else c L).
Proof.
  intros Hswo Hr Hp Hin Hwv Hhl Hnl.
  assert (insert m_less s v (Some hint) coin p
            = insert m_less s v None coin p) as Heq.
  2:{ split; [done|]. rewrite Heq.
      destruct (insert_spec m_less T_min Hswo s c v coin p Hr Hp)
        as (s' & Hins & Hr' & _). eauto. }
  destruct (repr_fresh _ _ _ _ _ Hr Hp) as (Hphd & Hptl & Hpc).
  pose proof (repr_head_level _ _ _ _ Hr) as Hhdl.
  assert (hint ∈ (c 0).*1) as Hin1.
  { apply list_elem_of_fmap. by exists (hint, w). }
  pose proof Hin1 as Hmem.
  apply (repr_mem _ _ _ _ Hr) in Hmem as (Hhh & Hht & _); [|lia].
  assert (hl ≤ max_levels) as Hhlmax.
  { by apply (repr_node_level _ _ _ _ Hr hint hl). }
  assert (hint ≠ p) as Hhp.
  { intros ->. apply get_level_None in Hp. congruence. }
  unfold insert, assert. case_decide; [|done].
  cbn [mbind option_bind default]. unfold id.
  set (nl := random_level coin) in *.
  set (h0 := <[p := new_node v nl]> (m_heap s)).
  assert (∀ a, a ≠ p → get_level h0 a = get_level (m_heap s) a) as Hk0.
  { intros a Ha. unfold h0. by rewrite get_level_alloc, decide_False. }
  rewrite !Hk0, Hhl, Hhdl by done. cbn [mbind option_bind].
  assert (∀ L, L ≤ max_levels →
            chain h0 (m_tail s) L (m_head s) (c L)) as Hch0.
  { intros L HL.
    apply (chain_frame (m_heap s)); [| |by apply (repr_chain _ _ _ _ Hr)].
    - intros a Ha. unfold h0. rewrite get_next_alloc, decide_False; [done|].
      intros ->. apply elem_of_cons in Ha as [?|Ha]; [done|].
      by apply (Hpc L).
    - intros a Ha. unfold h0.
      rewrite get_value_alloc, get_level_alloc, !decide_False;
        [done|intros ->; by apply (Hpc L)..]. }
  assert (∀ L, L ≤ max_levels → length (c L) < S (base.size h0)) as Hfuel.
  { intros L HL. pose proof (repr_length _ _ _ _ L Hr HL) as Hlen.
    unfold h0. rewrite map_size_insert_None by done. lia. }
  assert (∃ pre post, c hl = pre ++ post ∧
            last_addr (m_head s) pre = hint ∧
            Forall (λ q, m_less q.2 v = true) pre)
    as (pre & post & Hc & Hla & Hpre).
  { assert ((hint, w) ∈ c hl) as Hinl.
    { assert (hint ∈ (c hl).*1) as Hi.
      { apply (repr_mem _ _ _ _ Hr); [done|]. split_and!; eauto. }
      destruct (repr_chain _ _ _ _ Hr hl Hhlmax) as [Hseg _].
      destruct (repr_chain _ _ _ _ Hr 0 ltac:(lia)) as [Hseg0 _].
      destruct (lseg_elem_fst _ _ _ _ _ _ Hseg Hi) as (w' & Hi' & _ & Hv' & _).
      destruct (lseg_elem _ _ _ _ _ _ _ Hseg0 Hin) as (_ & Hv & _).
      by replace w with w' by congruence. }
    apply list_elem_of_split in Hinl as (p1 & p2 & Hc).
    exists (p1 ++ [(hint, w)]), p2. rewrite <-app_assoc.
    split_and!; [done|by rewrite last_addr_snoc|].
    rewrite Forall_app, Forall_singleton. split; [|done].
    pose proof (repr_sorted _ _ _ _ Hr hl Hhlmax) as Hs. rewrite Hc in Hs.
    rewrite fmap_app, fmap_cons in Hs.
    apply (sorted_prefix_less m_less Hswo _ _ _ v) in Hs; [|done].
    by apply Forall_fmap in Hs. }
  assert (insert_loop m_less (S (base.size h0)) (m_tail s) v p nl hl h0 hint
          = insert_loop m_less (S (base.size h0)) (m_tail s) v p nl
              max_levels h0 (m_head s)) as ->; [|done].
  rewrite <-Hla.
  rewrite (loop_from_prefix m_less h0 (m_tail s) (m_head s) p v nl
             (S (base.size h0)) c max_levels Hch0 Hfuel hl pre post)
    by done.
  assert (∀ L, L ≤ max_levels → non_decreasing m_less (c L).*2) as Hso.
  { intros L HL. by apply (repr_sorted _ _ _ _ Hr). }
  assert (∀ L q, L < max_levels → q ∈ c (S L) → q ∈ c L) as Hsub.
  { intros L q HL. by apply (repr_sub _ _ _ _ _ _ Hr). }
  pose proof (loop_skips_levels m_less Hswo h0 (m_tail s) (m_head s) p v nl
                (S (base.size h0)) c max_levels Hch0 Hso Hsub Hfuel hl
                (max_levels - hl) Hnl ltac:(lia)) as Hskip.
  replace (hl + (max_levels - hl)) with max_levels in Hskip by lia.
  by rewrite Hskip.
Qed.

Lemma insert_with_good_hint_agrees_witness :
  insert Z.ltb IntEngine.one_five 7%Z (Some 2) IntEngine.stay 3
    = insert Z.ltb IntEngine.one_five 7%Z None IntEngine.stay 3 ∧
  ∃ s', insert Z.ltb IntEngine.one_five 7%Z (Some 2) IntEngine.stay 3
          = Some (s', 3).
Proof.
  destruct (insert_with_good_hint_agrees Z.ltb IntEngine.int_min
              IntEngine.one_five _ 7%Z 5%Z 2 1 IntEngine.stay 3
              Z_ltb_strict_weak_order int_one_five_repr)
    as (H1 & s' & H2 & _).
  { vm_compute. reflexivity. }
  { cbn beta. rewrite decide_True by lia. set_solver. }
  { reflexivity. }
  { vm_compute. reflexivity. }
  { vm_compute. lia. }
  split; [done|by exists s'].
Defined.

(** ** Inserting many values *)

Section InsertEach.
Context {T : Type} (m_less : T → T → bool) (T_min : T).
Hypothesis Hswo : strict_weak_order m_less.
Implicit Types (s : sl_impl T) (c : nat → list (addr * T)).

Lemma insert_before_perm (q : addr * T) (l : list (addr * T)) :
  insert_before m_less q l ≡ₚ q :: l.
Proof.
  clear Hswo.
  destruct (insert_before_prefix m_less q l) as (l1 & l2 & -> & -> & _).
  by rewrite Permutation_middle.
Qed.

Lemma insert_each_spec ops : ∀ s c,
  repr m_less T_min s c → NoDup ops.*2 →
  (∀ p, p ∈ ops.*2 → m_heap s !! p = None) →
  ∃ s' c', insert_each m_less s ops = Some s' ∧ repr m_less T_min s' c' ∧
    c' 0 ≡ₚ c 0 ++ ((λ o, (o.2, o.1.1)) <$> ops) ∧
    m_size s' = ((m_size s + Z.of_nat (length ops)) mod size_modulus)%Z.
Proof.
  induction ops as [|[[v coin] p] ops IH]; intros s c Hr Hnd Hfresh.
  - exists s, c. split_and!; try done.
    + by rewrite app_nil_r.
    + rewrite Z.add_0_r, (repr_size _ _ _ _ Hr). by rewrite Z.mod_mod.
  - rewrite fmap_cons in Hnd, Hfresh. cbn [snd] in Hnd, Hfresh.
    apply NoDup_cons in Hnd as [Hp Hnd].
    destruct (insert_spec m_less T_min Hswo s c v coin p Hr)
      as (s1 & Hins & Hr1 & Hsz1 & Hhd1 & Htl1).
    { apply Hfresh. by left. }
    pose proof (random_level_bounds coin) as Hrl.
    destruct (IH s1 _ Hr1 Hnd) as (s' & c' & Heach & Hr' & Hperm & Hsz').
    { intros q Hq. apply eq_None_not_Some.
      rewrite (repr_allocated m_less T_min s1 _ q Hr1). cbn beta.
      rewrite decide_True by lia. rewrite Hhd1, Htl1.
      assert (m_heap s !! q = None) as Hqf by (apply Hfresh; by right).
      apply eq_None_not_Some in Hqf.
      rewrite (repr_allocated m_less T_min s c q Hr) in Hqf.
      rewrite (insert_before_perm (p, v) (c 0)), fmap_cons. cbn [fst].
      intros [?|[?|[->|?]%elem_of_cons]]; [naive_solver..|done|naive_solver]. }
    exists s', c'. cbn [insert_each]. rewrite Hins. cbn [mbind option_bind].
    split_and!; try done.
    + rewrite Hperm. cbn beta. rewrite decide_True by lia.
      rewrite insert_before_perm, fmap_cons. cbn [fst snd].
      apply Permutation_middle.
    + rewrite Hsz', Hsz1. cbn [length].
      rewrite Zplus_mod_idemp_l. f_equal. lia.
Qed.

End InsertEach.

(** X19: Inserting sorts: on a state satisfying the invariant, [insert]
    without a hint of any values at distinct free addresses succeeds for
    all of them; the forward traversal then visits the old nodes and the
    new ones, each once, in non-decreasing order of their values, the
    values read are the old values and the inserted ones, and [size()] has
    grown by their number (modulo [2^64]). *)
Theorem inserting_sorts {T : Type} (m_less : T → T → bool) (T_min : T)
    (s : sl_impl T) (c : nat → list (addr * T))
    (ops : list (T * (nat → bool) * addr)) :
  strict_weak_order m_less → repr m_less T_min s c → NoDup ops.*2 →
  (∀ p, p ∈ ops.*2 → m_heap s !! p = None) →
  ∃ s' fw vs,
    insert_each m_less s ops = Some s' ∧
    forward s' = Some fw ∧ values_of (m_heap s') fw = Some vs ∧
    fw ≡ₚ (c 0).*1 ++ ops.*2 ∧ vs ≡ₚ (c 0).*2 ++ ops.*1.*1 ∧
    NoDup fw ∧ non_decreasing m_less vs ∧
    size s' = ((size s + Z.of_nat (length ops)) mod size_modulus)%Z.
Proof.
  intros Hswo Hr Hnd Hfresh.
  destruct (insert_each_spec m_less T_min Hswo ops s c Hr Hnd Hfresh)
    as (s' & c' & Heach & Hr' & Hperm & Hsz).
  destruct (repr_chain _ _ _ _ Hr' 0 ltac:(lia)) as [Hseg _].
  exists s', (c' 0).*1, (c' 0).*2. split_and!; try done.
  - by apply (forward_spec m_less T_min).
  - by eapply values_of_chain.
  - rewrite Hperm, fmap_app. f_equal. by rewrite <-list_fmap_compose.
  - rewrite Hperm, fmap_app. f_equal. rewrite <-!list_fmap_compose. done.
  - pose proof (repr_nodup _ _ _ _ Hr' 0 ltac:(lia)) as Hnd'.
    by apply NoDup_cons in Hnd' as [_ ?].
  - apply (repr_sorted _ _ _ _ Hr'). lia.
Qed.

Lemma inserting_sorts_witness :
  ∃ s' fw vs,
    insert_each Z.ltb IntEngine.empty
      [(7%Z, IntEngine.stay, 2); (3%Z, IntEngine.once, 3)] = Some s' ∧
    forward s' = Some fw ∧ values_of (m_heap s') fw = Some vs ∧
    vs ≡ₚ [7%Z; 3%Z] ∧ non_decreasing Z.ltb vs.
Proof.
  destruct (inserting_sorts Z.ltb IntEngine.int_min IntEngine.empty _
              [(7%Z, IntEngine.stay, 2); (3%Z, IntEngine.once, 3)]
              Z_ltb_strict_weak_order int_empty_repr)
    as (s' & fw & vs & H1 & H2 & H3 & _ & H4 & _ & H5 & _).
  { apply (NoDup_cons_2 2 [3]); [set_solver|apply NoDup_singleton]. }
  { intros p Hp. apply elem_of_cons in Hp as [->|Hp]; [reflexivity|].
    apply list_elem_of_singleton in Hp as ->. reflexivity. }
  by exists s', fw, vs.
Defined.

(** ** Targets that compare equal *)

Section EqualTargets.
Context {T : Type} (m_less : T → T → bool).
Hypothesis Hswo : strict_weak_order m_less.

(** Values that compare equal compare alike with every value. *)
Lemma is_equal_compares_alike v v' x :
  is_equal m_less v v' = true →
  m_less x v = m_less x v' ∧ m_less v x = m_less v' x.
Proof.
  intros [Hvv' Hv'v]%is_equal_true. split.
  - destruct (m_less x v) eqn:H1, (m_less x v') eqn:H2; try done.
    + destruct (less_cotrans m_less Hswo x v' v H1); congruence.
    + destruct (less_cotrans m_less Hswo x v v' H2); congruence.
  - destruct (m_less v x) eqn:H1, (m_less v' x) eqn:H2; try done.
    + destruct (less_cotrans m_less Hswo v v' x H1); congruence.
    + destruct (less_cotrans m_less Hswo v' v x H2); congruence.
Qed.

Lemma find_scan_equal_targets v v' h tl level : ∀ fuel curr,
  is_equal m_less v v' = true →
  find_scan m_less fuel h tl level v curr
    = find_scan m_less fuel h tl level v' curr.
Proof.
  intros fuel curr Heq. revert curr.
  induction fuel as [|fuel IH]; intros curr; [done|].
  cbn [find_scan]. destruct (get_next h curr level) as [nx|]; [|done].
  cbn [mbind option_bind]. case_decide; [done|].
  destruct (get_value h curr) as [cv|]; [|done]. cbn [mbind option_bind].
  unfold is_equal, is_less_or_equal.
  destruct (is_equal_compares_alike v v' cv Heq) as [-> ->].
  destruct (negb (m_less cv v' || m_less v' cv)); [done|].
  destruct nx as [nxa|]; [|done]. cbn [mbind option_bind].
  destruct (get_value h nxa) as [nv|]; [|done]. cbn [mbind option_bind].
  destruct (is_equal_compares_alike v v' nv Heq) as [_ ->].
  by rewrite IH.
Qed.

Lemma find_equal_targets (s : sl_impl T) v v' :
  is_equal m_less v v' = true →
  find m_less s v = find m_less s v' ∧
  find_first m_less s v = find_first m_less s v'.
Proof.
  intros Heq.
  assert (find m_less s v = find m_less s v') as Hfind.
  { unfold find. generalize (m_head s) as curr.
    induction (S (m_levels s)) as [|n IH]; intros curr; [done|].
    cbn [find_loop]. rewrite (find_scan_equal_targets v v') by done.
    destruct (find_scan m_less _ _ _ n v' curr); [|done].
    cbn [mbind option_bind]. apply IH. }
  split; [done|]. unfold find_first. rewrite Hfind.
  destruct (find m_less s v') as [node|]; [|done]. cbn [mbind option_bind].
  destruct (get_value (m_heap s) node) as [nv|]; [|done].
  cbn [mbind option_bind]. unfold is_equal.
  by destruct (is_equal_compares_alike v v' nv Heq) as [-> ->].
Qed.

End EqualTargets.

(** X20: [find] and [find_first] see a target through the comparator only: on
    any state, two targets that compare equal get the same answer. *)
Theorem find_respects_equivalence {T : Type} (m_less : T → T → bool)
    (s : sl_impl T) (v v' : T) :
  strict_weak_order m_less → is_equal m_less v v' = true →
  find m_less s v = find m_less s v' ∧
  find_first m_less s v = find_first m_less s v'.
Proof. intros Hswo. by apply find_equal_targets. Qed.

Lemma half_less_strict_weak_order : strict_weak_order IntEngine.half_less.
Proof.
  unfold IntEngine.half_less. split.
  - intros x. apply Z.ltb_irrefl.
  - intros x y z. rewrite !Z.ltb_lt. lia.
  - intros x y z. rewrite !is_equal_true, !Z.ltb_ge. lia.
Qed.

Lemma find_respects_equivalence_witness :
  is_equal IntEngine.half_less 4%Z 5%Z = true ∧
  find IntEngine.half_less IntEngine.two_fives 4%Z
    = find IntEngine.half_less IntEngine.two_fives 5%Z.
Proof.
  split; [reflexivity|].
  exact (proj1 (find_respects_equivalence IntEngine.half_less
                  IntEngine.two_fives 4%Z 5%Z half_less_strict_weak_order
                  eq_refl)).
Defined.

(** ** The sentinels in every state the interface can reach *)

Section ClosedLinks.
Context {T : Type} (m_less : T → T → bool).
Implicit Types (h : gmap addr (sl_node T)).

Lemma closed_links_tail h hd tl L q :
  closed_links h hd tl → get_next h tl L ≠ Some (Some q).
Proof. intros [Ht _]. rewrite Ht. by repeat case_decide. Qed.

Lemma insert_loop_closed fuel tl hd v new nl : ∀ level h curr h' curr',
  new ≠ tl → new ≠ hd → closed_links h hd tl →
  insert_loop m_less fuel tl v new nl level h curr = Some (h', curr') →
  closed_links h' hd tl ∧ ∀ a, get_prev h' a = get_prev h a.
Proof.
  assert (∀ level h c1 h1, new ≠ tl → new ≠ hd → closed_links h hd tl →
            (if decide (level ≤ nl) then
               nx ← get_next h c1 level; _ ← assert (nx ≠ None);
               h0 ← set_next h new level nx; set_next h0 c1 level (Some new)
             else Some h) = Some h1 →
            closed_links h1 hd tl ∧ ∀ a, get_prev h1 a = get_prev h a)
    as Hstep.
  { intros level h c1 h1 Hnt Hnh Hcl Hh1.
    case_decide; [|by injection Hh1 as <-].
    apply bind_Some in Hh1 as (nx & Hnx & Hh1).
    apply bind_Some in Hh1 as (u & Hne & Hh1).
    unfold assert in Hne.
    destruct (decide (nx ≠ None)) as [Hnn|]; [|done]. clear u Hne.
    apply bind_Some in Hh1 as (h0 & Hh0 & Hh1).
    destruct nx as [q|]; [|done].
    assert (c1 ≠ tl) as Hc1.
    { intros ->. by apply (closed_links_tail h hd tl level q). }
    assert (q ≠ hd) as Hq.
    { intros ->. by apply (proj2 Hcl c1 level). }
    split.
    - destruct Hcl as [Ht Hh]. split.
      + intros L. rewrite (get_next_set_next _ _ _ _ _ _ _ Hh1),
          (get_next_set_next _ _ _ _ _ _ _ Hh0).
        rewrite !decide_False by naive_solver. apply Ht.
      + intros a L. rewrite (get_next_set_next _ _ _ _ _ _ _ Hh1),
          (get_next_set_next _ _ _ _ _ _ _ Hh0).
        repeat case_decide; [congruence|congruence|apply Hh].
    - intros a. by rewrite (get_prev_set_next _ _ _ _ _ _ Hh1),
        (get_prev_set_next _ _ _ _ _ _ Hh0). }
  induction level as [|level IH]; intros h curr h' curr' Hnt Hnh Hcl Hloop;
    rewrite insert_loop_unfold in Hloop;
    apply bind_Some in Hloop as (c1 & _ & Hloop);
    apply bind_Some in Hloop as (h1 & Hh1 & Hloop).
  - destruct (Hstep 0 h c1 h1 Hnt Hnh Hcl Hh1) as [Hcl1 Hp1].
    by injection Hloop as <- <-.
  - destruct (Hstep (S level) h c1 h1 Hnt Hnh Hcl Hh1) as [Hcl1 Hp1].
    destruct (IH _ _ _ _ Hnt Hnh Hcl1 Hloop) as [Hcl' Hp'].
    split; [done|]. intros a. by rewrite Hp', Hp1.
Qed.

Lemma remove_loop_closed fuel tl hd node : ∀ n h curr h',
  closed_links h hd tl →
  remove_loop m_less n fuel tl node h curr = Some h' →
  closed_links h' hd tl ∧ ∀ a, get_prev h' a = get_prev h a.
Proof.
  induction n as [|n IH]; intros h curr h' Hcl Hloop.
  { cbn [remove_loop] in Hloop. by injection Hloop as <-. }
  rewrite remove_loop_unfold in Hloop.
  apply bind_Some in Hloop as (lv & _ & Hloop).
  apply bind_Some in Hloop as (_ & _ & Hloop).
  apply bind_Some in Hloop as (value & _ & Hloop).
  apply bind_Some in Hloop as (c1 & _ & Hloop).
  apply bind_Some in Hloop as (nx & Hnx & Hloop).
  apply bind_Some in Hloop as (h1 & Hh1 & Hloop).
  assert (closed_links h1 hd tl ∧ ∀ a, get_prev h1 a = get_prev h a)
    as [Hcl1 Hp1].
  { case_decide as Hd; [|by injection Hh1 as <-]. subst nx.
    apply bind_Some in Hh1 as (nn & Hnn & Hh1).
    assert (c1 ≠ tl) as Hc1.
    { intros ->. by apply (closed_links_tail h hd tl n node). }
    assert (nn ≠ Some hd) as Hq.
    { intros ->. by apply (proj2 Hcl node n). }
    destruct Hcl as [Ht Hh]. split; [split|].
    - intros L. rewrite (get_next_set_next _ _ _ _ _ _ _ Hh1).
      rewrite decide_False by naive_solver. apply Ht.
    - intros a L. rewrite (get_next_set_next _ _ _ _ _ _ _ Hh1).
      case_decide; [congruence|apply Hh].
    - intros a. by rewrite (get_prev_set_next _ _ _ _ _ _ Hh1). }
  destruct (IH _ _ _ Hcl1 Hloop) as [Hcl' Hp'].
  split; [done|]. intros a. by rewrite Hp', Hp1.
Qed.

Lemma closed_links_delete h hd tl nd :
  nd ≠ tl → closed_links h hd tl → closed_links (delete nd h) hd tl.
Proof.
  intros Hnt [Ht Hh]. split.
  - intros L. rewrite get_next_delete, decide_False by done. apply Ht.
  - intros a L. rewrite get_next_delete. case_decide; [done|apply Hh].
Qed.

Lemma free_chain_closed hd tl : ∀ fuel h node h',
  closed_links h hd tl → node ≠ Some hd →
  free_chain fuel h tl node = Some h' →
  closed_links h' hd tl ∧ h' !! hd = h !! hd ∧ h' !! tl = h !! tl.
Proof.
  induction fuel as [|fuel IH]; intros h node h' Hcl Hnode Hfree; [done|].
  cbn [free_chain] in Hfree. case_decide as Hd; [by injection Hfree as <-|].
  destruct node as [nd|]; [|done]. cbn [mbind option_bind] in Hfree.
  apply bind_Some in Hfree as (next & Hnext & Hfree).
  assert (nd ≠ tl) as Hnt by congruence.
  assert (nd ≠ hd) as Hnh by congruence.
  assert (next ≠ Some hd) as Hnhd.
  { intros ->. by apply (proj2 Hcl nd 0). }
  destruct (IH _ _ _ (closed_links_delete h hd tl nd Hnt Hcl) Hnhd Hfree)
    as (Hcl' & Hhd & Htl).
  split; [done|]. by rewrite Hhd, Htl, !lookup_delete_ne.
Qed.

Lemma reset_head_closed hd tl : ∀ n level h h',
  hd ≠ tl → closed_links h hd tl →
  reset_head n level hd tl h = Some h' →
  closed_links h' hd tl ∧
  (∀ a, get_prev h' a = get_prev h a) ∧
  (∀ a, get_value h' a = get_value h a) ∧
  (∀ a, get_level h' a = get_level h a).
Proof.
  induction n as [|n IH]; intros level h h' Hne Hcl Hreset.
  { cbn [reset_head] in Hreset. by injection Hreset as <-. }
  cbn [reset_head] in Hreset.
  apply bind_Some in Hreset as (h1 & Hh1 & Hreset).
  assert (closed_links h1 hd tl) as Hcl1.
  { destruct Hcl as [Ht Hh]. split.
    - intros L. rewrite (get_next_set_next _ _ _ _ _ _ _ Hh1).
      rewrite decide_False by naive_solver. apply Ht.
    - intros a L. rewrite (get_next_set_next _ _ _ _ _ _ _ Hh1).
      case_decide; [congruence|apply Hh]. }
  destruct (IH _ _ _ Hne Hcl1 Hreset) as (Hcl' & Hp & Hv & Hk).
  split_and!; [done|..]; intros a.
  - by rewrite Hp, (get_prev_set_next _ _ _ _ _ _ Hh1).
  - by rewrite Hv, (get_value_set_next _ _ _ _ _ _ Hh1).
  - by rewrite Hk, (get_level_set_next _ _ _ _ _ _ Hh1).
Qed.

End ClosedLinks.

Section SentinelsIntact.
Context {T : Type} (m_less : T → T → bool) (T_min T_max : T).
Implicit Types (s : sl_impl T).

Lemma sl_init_intact hd tl s :
  sl_init T_min T_max hd tl = Some s → sentinels_intact T_min T_max s.
Proof.
  intros Hinit. pose proof (sl_init_Some_ne T_min T_max hd tl s Hinit) as Hne.
  revert Hinit. unfold sl_init, assert. rewrite decide_True by done.
  cbn [mbind option_bind].
  set (h0 := <[tl := new_node T_max max_levels]>
               (<[hd := new_node T_min max_levels]> ∅)).
  assert (∀ a L, get_next h0 a L =
            if decide (a = hd ∨ a = tl)
            then (if decide (L ≤ max_levels) then Some None else None)
            else None) as Hn0.
  { intros a L. unfold h0. rewrite !get_next_alloc.
    repeat case_decide; try done; naive_solver. }
  destruct (init_links_spec hd tl (S max_levels) 0 h0 Hne)
    as (h1 & Hh1 & Hn1 & Hv1 & Hk1 & Hp1).
  { intros L HL. rewrite !Hn0. rewrite !decide_True by (eauto || lia). eauto. }
  rewrite Hh1. cbn [mbind option_bind]. intros Hinit.
  apply bind_Some in Hinit as (h2 & Hh2 & Hinit).
  apply bind_Some in Hinit as (h3 & Hh3 & Hinit).
  injection Hinit as <-.
  unfold sentinels_intact. cbn [m_heap m_head m_tail m_levels].
  assert (∀ a L, get_next h3 a L = get_next h1 a L) as Hn3.
  { intros. by rewrite (get_next_set_prev _ _ _ _ _ _ Hh3),
      (get_next_set_prev _ _ _ _ _ _ Hh2). }
  assert (∀ a, get_value h3 a = get_value h0 a) as Hv3.
  { intros. by rewrite (get_value_set_prev _ _ _ _ _ Hh3),
      (get_value_set_prev _ _ _ _ _ Hh2). }
  assert (∀ a, get_level h3 a = get_level h0 a) as Hk3.
  { intros. by rewrite (get_level_set_prev _ _ _ _ _ Hh3),
      (get_level_set_prev _ _ _ _ _ Hh2). }
  split_and!; try done.
  - rewrite Hv3. unfold h0. rewrite !get_value_alloc.
    rewrite decide_False by done. by rewrite decide_True.
  - rewrite Hv3. unfold h0. rewrite !get_value_alloc. by rewrite decide_True.
  - rewrite Hk3. unfold h0. rewrite !get_level_alloc.
    rewrite decide_False by done. by rewrite decide_True.
  - rewrite Hk3. unfold h0. rewrite !get_level_alloc. by rewrite decide_True.
  - rewrite (get_prev_set_prev _ _ _ _ _ Hh3), decide_False by done.
    by rewrite (get_prev_set_prev _ _ _ _ _ Hh2), decide_True.
  - split.
    + intros L. rewrite Hn3, Hn1, Hn0.
      rewrite (decide_False (P := _ ∧ tl = hd)) by naive_solver.
      rewrite (decide_True (P := tl = hd ∨ tl = tl)) by naive_solver.
      unfold max_levels. repeat case_decide; try done; lia.
    + intros a L. rewrite Hn3, Hn1, Hn0.
      repeat case_decide; congruence.
Qed.

Lemma insert_intact s v hint coin p s' n :
  sentinels_intact T_min T_max s →
  insert m_less s v hint coin p = Some (s', n) →
  sentinels_intact T_min T_max s'.
Proof.
  intros (Hlv & Hne & Hhv & Htv & Hhl & Htl & Hhp & Hcl).
  unfold insert, assert. intros Hins.
  destruct (decide (m_heap s !! p = None)) as [Hp|]; [|done].
  cbn [mbind option_bind] in Hins.
  apply bind_Some in Hins as (lv & _ & Hins).
  apply bind_Some in Hins as ([h1 curr'] & Hloop & Hins).
  apply bind_Some in Hins as (nx & _ & Hins).
  destruct (decide (nx ≠ None)); [|done]. cbn [mbind option_bind] in Hins.
  apply bind_Some in Hins as (h2 & Hh2 & Hins).
  apply bind_Some in Hins as (nn & Hnn & Hins).
  apply bind_Some in Hins as (nna & Hnna & Hins).
  cbn in Hnna. subst nn.
  apply bind_Some in Hins as (h3 & Hh3 & Hins).
  injection Hins as <- <-.
  unfold sentinels_intact. cbn [m_heap m_head m_tail m_levels].
  assert (p ≠ m_head s) as Hph.
  { intros ->. apply get_level_None in Hp. congruence. }
  assert (p ≠ m_tail s) as Hpt.
  { intros ->. apply get_level_None in Hp. congruence. }
  set (h0 := <[p:=new_node v (random_level coin)]> (m_heap s)) in *.
  assert (closed_links h0 (m_head s) (m_tail s)) as Hcl0.
  { destruct Hcl as [Ht Hh]. split.
    - intros L. unfold h0. rewrite get_next_alloc, decide_False by done.
      apply Ht.
    - intros a L. unfold h0. rewrite get_next_alloc.
      repeat case_decide; try done; apply Hh. }
  destruct (insert_loop_closed m_less _ _ (m_head s) _ _ _ _ _ _ _ _
              Hpt Hph Hcl0 Hloop) as [Hcl1 Hp1].
  pose proof (insert_loop_frame m_less _ _ _ _ _ _ _ _ _ _ Hloop) as Hfr.
  assert (∀ a, a ≠ p → get_value h3 a = get_value (m_heap s) a ∧
                        get_level h3 a = get_level (m_heap s) a) as Hall.
  { intros a Ha. rewrite (get_value_set_prev _ _ _ _ a Hh3),
      (get_level_set_prev _ _ _ _ a Hh3),
      (get_value_set_prev _ _ _ _ a Hh2),
      (get_level_set_prev _ _ _ _ a Hh2).
    destruct (Hfr a) as [-> ->]. unfold h0.
    by rewrite get_value_alloc, get_level_alloc, !decide_False. }
  assert (∀ a L, get_next h3 a L = get_next h1 a L) as Hn3.
  { intros. by rewrite (get_next_set_prev _ _ _ _ _ _ Hh3),
      (get_next_set_prev _ _ _ _ _ _ Hh2). }
  split_and!; try done.
  - by destruct (Hall (m_head s)) as [-> _].
  - by destruct (Hall (m_tail s)) as [-> _].
  - by destruct (Hall (m_head s)) as [_ ->].
  - by destruct (Hall (m_tail s)) as [_ ->].
  - rewrite (get_prev_set_prev _ _ _ _ _ Hh3), decide_False.
    + rewrite (get_prev_set_prev _ _ _ _ _ Hh2), decide_False by done.
      rewrite Hp1. unfold h0. by rewrite get_prev_alloc, decide_False.
    + intros <-. rewrite (get_next_set_prev _ _ _ _ _ _ Hh2) in Hnn.
      by apply (proj2 Hcl1 p 0).
  - destruct Hcl1 as [Ht Hh]. split.
    + intros L. rewrite Hn3. apply Ht.
    + intros a L. rewrite Hn3. apply Hh.
Qed.

Lemma remove_intact s n s' :
  sentinels_intact T_min T_max s →
  remove m_less s (Some n) = Some s' →
  sentinels_intact T_min T_max s'.
Proof.
  intros (Hlv & Hne & Hhv & Htv & Hhl & Htl & Hhp & Hcl).
  unfold remove, assert. cbn [mbind option_bind]. intros Hrem.
  apply bind_Some in Hrem as (nx & Hnx & Hrem).
  destruct (decide (nx ≠ None)); cbn [mbind option_bind] in Hrem; [|done].
  destruct (decide (m_head s ≠ n)); cbn [mbind option_bind] in Hrem; [|done].
  destruct (decide (m_tail s ≠ n)); cbn [mbind option_bind] in Hrem; [|done].
  apply bind_Some in Hrem as (nxa & Hnxa & Hrem). cbn in Hnxa. subst nx.
  apply bind_Some in Hrem as (pv & _ & Hrem).
  apply bind_Some in Hrem as (h1 & Hh1 & Hrem).
  apply bind_Some in Hrem as (h2 & Hloop & Hrem).
  apply bind_Some in Hrem as (nd & _ & Hrem).
  injection Hrem as <-.
  unfold sentinels_intact. cbn [m_heap m_head m_tail m_levels].
  assert (nxa ≠ m_head s) as Hnh.
  { intros ->. by apply (proj2 Hcl n 0). }
  assert (closed_links h1 (m_head s) (m_tail s)) as Hcl1.
  { destruct Hcl as [Ht Hh]. split.
    - intros L. rewrite (get_next_set_prev _ _ _ _ _ _ Hh1). apply Ht.
    - intros a L. rewrite (get_next_set_prev _ _ _ _ _ _ Hh1). apply Hh. }
  destruct (remove_loop_closed m_less _ _ (m_head s) _ _ _ _ _ Hcl1 Hloop)
    as [Hcl2 Hp2].
  pose proof (remove_loop_frame m_less _ _ _ _ _ _ _ Hloop) as Hfr.
  assert (∀ a, a ≠ n →
            get_value (delete n h2) a = get_value (m_heap s) a ∧
            get_level (delete n h2) a = get_level (m_heap s) a) as Hall.
  { intros a Ha. rewrite get_value_delete, get_level_delete.
    rewrite !decide_False by done. destruct (Hfr a) as (-> & -> & _).
    by rewrite (get_value_set_prev _ _ _ _ a Hh1),
      (get_level_set_prev _ _ _ _ a Hh1). }
  split_and!; try done.
  - by destruct (Hall (m_head s)) as [-> _].
  - by destruct (Hall (m_tail s)) as [-> _].
  - by destruct (Hall (m_head s)) as [_ ->].
  - by destruct (Hall (m_tail s)) as [_ ->].
  - rewrite get_prev_delete, decide_False by done. rewrite Hp2.
    by rewrite (get_prev_set_prev _ _ _ _ _ Hh1), decide_False.
  - apply closed_links_delete; [done|done].
Qed.

Lemma remove_all_intact s s' :
  sentinels_intact T_min T_max s → remove_all s = Some s' →
  sentinels_intact T_min T_max s'.
Proof.
  intros (Hlv & Hne & Hhv & Htv & Hhl & Htl & Hhp & Hcl).
  unfold remove_all. intros Hall.
  apply bind_Some in Hall as (node & Hnode & Hall).
  apply bind_Some in Hall as (h1 & Hfree & Hall).
  apply bind_Some in Hall as (h2 & Hreset & Hall).
  apply bind_Some in Hall as (h3 & Hh3 & Hall).
  injection Hall as <-.
  unfold sentinels_intact. cbn [m_heap m_head m_tail m_levels].
  assert (node ≠ Some (m_head s)) as Hnh.
  { intros ->. by apply (proj2 Hcl (m_head s) 0). }
  destruct (free_chain_closed (m_head s) (m_tail s) _ _ _ _ Hcl Hnh Hfree)
    as (Hcl1 & Hhd1 & Htl1).
  destruct (reset_head_closed (m_head s) (m_tail s) _ _ _ _ Hne Hcl1 Hreset)
    as (Hcl2 & Hp2 & Hv2 & Hk2).
  unfold get_value, get_level, get_prev in Hhv, Htv, Hhl, Htl, Hhp.
  rewrite <-Hhd1 in Hhv, Hhl, Hhp. rewrite <-Htl1 in Htv, Htl.
  split_and!; try done.
  - by rewrite (get_value_set_prev _ _ _ _ _ Hh3), Hv2.
  - by rewrite (get_value_set_prev _ _ _ _ _ Hh3), Hv2.
  - by rewrite (get_level_set_prev _ _ _ _ _ Hh3), Hk2.
  - by rewrite (get_level_set_prev _ _ _ _ _ Hh3), Hk2.
  - rewrite (get_prev_set_prev _ _ _ _ _ Hh3), decide_False by done.
    by rewrite Hp2.
  - destruct Hcl2 as [Ht Hh]. split.
    + intros L. rewrite (get_next_set_prev _ _ _ _ _ _ Hh3). apply Ht.
    + intros a L. rewrite (get_next_set_prev _ _ _ _ _ _ Hh3). apply Hh.
Qed.

Lemma api_reachable_intact s :
  api_reachable m_less T_min T_max s → sentinels_intact T_min T_max s.
Proof.
  induction 1 as [hd tl s Hinit|s v hint coin p s' n _ IH Hins|
                  s n s' _ IH Hrem|s s' _ IH Hall].
  - by eapply sl_init_intact.
  - by eapply insert_intact.
  - by eapply remove_intact.
  - by eapply remove_all_intact.
Qed.

End SentinelsIntact.

Lemma int_hinted_api_reachable :
  api_reachable Z.ltb IntEngine.int_min IntEngine.int_max IntEngine.hinted.
Proof.
  eapply (api_insert _ _ _ IntEngine.one_five 7%Z (Some 2) IntEngine.once 3);
    [|vm_compute; reflexivity].
  eapply (api_insert _ _ _ IntEngine.empty 5%Z None IntEngine.stay 2);
    [|vm_compute; reflexivity].
  apply (api_init _ _ _ 0 1). vm_compute. reflexivity.
Qed.

(** X21: In every state reached from a fresh engine by [insert] with any hint,
    [remove] of any handle and [remove_all], the two sentinels are
    allocated, distinct and as the constructor made them: the head holds
    [numeric_limits::min()] and the tail [max()], both have [max_levels]
    levels, the head has no predecessor, the tail has no successor on any
    level, and no forward link of any node leads to the head. *)
Theorem sentinels_stay_intact {T : Type} (m_less : T → T → bool)
    (T_min T_max : T) (s : sl_impl T) :
  api_reachable m_less T_min T_max s → sentinels_intact T_min T_max s.
Proof. apply api_reachable_intact. Qed.

Lemma sentinels_stay_intact_witness :
  api_reachable Z.ltb IntEngine.int_min IntEngine.int_max IntEngine.hinted ∧
  sentinels_intact IntEngine.int_min IntEngine.int_max IntEngine.hinted.
Proof.
  split; [exact int_hinted_api_reachable|].
  exact (sentinels_stay_intact Z.ltb IntEngine.int_min IntEngine.int_max
           IntEngine.hinted int_hinted_api_reachable).
Defined.

(** X22: Stepping off the ends: in every state reached from a fresh engine
    by [insert] with any hint, [remove] of any handle and [remove_all],
    [++] on an iterator at the tail and [--] on an iterator at the head
    give the null iterator, on which [++], [--] and [*] are undefined;
    [*] at the tail reads [numeric_limits::max()] and at the head
    [min()]; the two sentinels are told apart by [!=]. *)
Theorem iterators_step_off_the_ends {T : Type} (m_less : T → T → bool)
    (T_min T_max : T) (s : sl_impl T) :
  api_reachable m_less T_min T_max s →
  iter_incr (m_heap s) (Some (m_tail s)) = Some None ∧
  iter_decr (m_heap s) (Some (m_head s)) = Some None ∧
  iter_incr (m_heap s) None = None ∧ iter_decr (m_heap s) None = None ∧
  iter_deref (m_heap s) None = None ∧
  iter_deref (m_heap s) (Some (m_tail s)) = Some T_max ∧
  iter_deref (m_heap s) (Some (m_head s)) = Some T_min ∧
  iter_ne (Some (m_head s)) (Some (m_tail s)) = true.
Proof.
  intros (_ & Hne & Hhv & Htv & _ & _ & Hhp & Ht & _)%api_reachable_intact.
  unfold iter_incr, iter_decr, iter_deref, iter_ne, iter_eq.
  cbn [mbind option_bind]. split_and!; try done.
  rewrite bool_decide_eq_false_2; [done|congruence].
Qed.

Lemma iterators_step_off_the_ends_witness :
  iter_incr (m_heap IntEngine.hinted) (Some 1) = Some None ∧
  iter_deref (m_heap IntEngine.hinted) (Some 1) = Some IntEngine.int_max.
Proof.
  destruct (iterators_step_off_the_ends Z.ltb IntEngine.int_min
              IntEngine.int_max IntEngine.hinted int_hinted_api_reachable)
    as (H1 & _ & _ & _ & _ & H2 & _).
  by split.
Defined.

(** ** [dump] *)

Section Dump.
Context {T : Type} (m_less : T → T → bool) (T_min : T).
Implicit Types (h : gmap addr (sl_node T)) (l : list (addr * T)).

(** The back link of a node of the bottom chain leads to a node holding
    [prev_value]. *)
Lemma back_seg_prev_value h tl l : ∀ x xv y,
  lseg h tl 0 x l → back_seg h x l → get_value h x = Some xv →
  y ∈ l.*1 →
  ∃ pa, get_prev h y = Some (Some pa) ∧
    get_value h pa = Some (prev_value xv l y).
Proof.
  induction l as [|[a v] l IH]; intros x xv y Hseg Hb Hx Hy.
  { by apply elem_of_nil in Hy. }
  destruct Hseg as (_ & _ & Hv & _ & Hseg). destruct Hb as [Hp Hb].
  cbn [prev_value fst snd]. case_decide as Hd.
  - subst. eauto.
  - rewrite fmap_cons in Hy. apply elem_of_cons in Hy as [->|Hy]; [done|].
    by apply (IH a v y).
Qed.

Lemma last_addr_prev_value h tl l : ∀ x xv y,
  lseg h tl 0 x l → get_value h x = Some xv → y ∉ l.*1 →
  get_value h (last_addr x l) = Some (prev_value xv l y).
Proof.
  induction l as [|[a v] l IH]; intros x xv y Hseg Hx Hy; [done|].
  destruct Hseg as (_ & _ & Hv & _ & Hseg).
  rewrite last_addr_cons. cbn [prev_value fst snd].
  rewrite fmap_cons in Hy. apply not_elem_of_cons in Hy as [Hya Hy].
  rewrite decide_False by done. by apply (IH a v y).
Qed.

Lemma dump_chain_spec h tl hd c0 L l : ∀ x nx fuel,
  lseg h tl 0 hd c0 → back_seg h hd c0 → get_value h hd = Some T_min →
  chain h tl L x l → get_next h x L = Some nx → length l < fuel →
  (∀ a, a ∈ l.*1 → a ∈ c0.*1) →
  dump_chain fuel h tl L nx
    = Some (l ≫= λ q, [dump_value q.2; dump_text "(";
                       dump_value (prev_value T_min c0 q.1);
                       dump_text ") -> "]).
Proof.
  induction l as [|[y v] l IH]; intros x nx fuel Hseg0 Hb Hhv [Hl He] Hx Hf Hsub;
    (destruct fuel as [|fuel]; [simpl in Hf; lia|]).
  - rewrite last_addr_nil in He. assert (nx = Some tl) as -> by congruence.
    cbn [dump_chain]. by rewrite decide_True.
  - destruct Hl as (Hxy & Hy & Hv & Hk & Hl). rewrite last_addr_cons in He.
    assert (nx = Some y) as -> by congruence.
    destruct (chain_next h tl L y l (conj Hl He)) as [z Hz].
    destruct (back_seg_prev_value h tl c0 hd T_min y Hseg0 Hb Hhv)
      as (pa & Hpa & Hpv).
    { apply Hsub. rewrite fmap_cons. by left. }
    cbn [dump_chain]. rewrite decide_False by congruence.
    cbn [mbind option_bind]. rewrite Hv. cbn [mbind option_bind].
    rewrite Hpa. cbn [mbind option_bind]. rewrite Hpv.
    cbn [mbind option_bind]. rewrite Hz. cbn [mbind option_bind].
    rewrite (IH y (Some z) fuel); try done.
    + simpl in Hf. lia.
    + intros a Ha. apply Hsub. rewrite fmap_cons. by right.
Qed.

Lemma dump_line_spec (s : sl_impl T) c tv L :
  repr m_less T_min s c → get_value (m_heap s) (m_tail s) = Some tv →
  L ≤ max_levels →
  dump_line s L = Some (dump_line_of T_min (c 0) (m_tail s) tv L (c L)).
Proof.
  intros Hr Htv HL.
  pose proof (repr_chain _ _ _ _ Hr L HL) as Hch.
  pose proof (repr_chain _ _ _ _ Hr 0 ltac:(lia)) as [Hseg0 _].
  pose proof (repr_back _ _ _ _ Hr) as Hb.
  pose proof (repr_head_value _ _ _ _ Hr) as Hhv.
  destruct (chain_next _ _ _ _ _ Hch) as [y Hy].
  unfold dump_line, dump_line_of. rewrite Hy. cbn [mbind option_bind].
  rewrite Hhv. cbn [mbind option_bind].
  rewrite (dump_chain_spec (m_heap s) (m_tail s) (m_head s) (c 0) L (c L)
             (m_head s) (Some y)); try done.
  - cbn [mbind option_bind]. rewrite Htv. cbn [mbind option_bind].
    rewrite (repr_back_tail _ _ _ _ Hr). cbn [mbind option_bind].
    rewrite (last_addr_prev_value (m_heap s) (m_tail s) (c 0) (m_head s)
               T_min (m_tail s)); try done.
    intros Hin. by apply (repr_mem _ _ _ _ Hr) in Hin as (_ & ? & _); [|lia].
  - pose proof (repr_length _ _ _ _ L Hr HL). lia.
  - intros a Ha. apply (repr_mem _ _ _ _ Hr) in Ha as (? & ? & k & Hk & _);
      [|done].
    apply (repr_mem _ _ _ _ Hr); [lia|]. split_and!; try done.
    exists k. split; [done|lia].
Qed.

Lemma dump_loop_spec (s : sl_impl T) c tv : ∀ n L,
  repr m_less T_min s c → get_value (m_heap s) (m_tail s) = Some tv →
  L + n ≤ S max_levels →
  dump_loop n L s
    = Some (seq L n ≫= λ K,
              dump_line_of T_min (c 0) (m_tail s) tv K (c K)).
Proof.
  induction n as [|n IH]; intros L Hr Htv HL; [done|].
  cbn [dump_loop seq]. rewrite (dump_line_spec s c tv L) by (done || lia).
  cbn [mbind option_bind]. rewrite IH by (done || lia). done.
Qed.

End Dump.

Lemma reachable_api_reachable {T : Type} (m_less : T → T → bool)
    (T_min T_max : T) (s : sl_impl T) :
  reachable m_less T_min T_max s → api_reachable m_less T_min T_max s.
Proof.
  induction 1.
  - by eapply api_init.
  - by eapply api_insert.
  - by eapply api_remove.
  - by eapply api_remove_all.
Qed.

(** X23: In every state reached from a fresh engine by [insert] without a
    hint, [remove] of a node that no equal node precedes and
    [remove_all], [dump()] runs to its end and prints one line for each
    level from 0 to [max_levels]: the level, the value in the head, then
    for each node of that level's chain, in order, its value and the value
    of the node before it on the bottom chain, and last the value in the
    tail with the last stored value. *)
Theorem dump_prints_every_chain {T : Type} (m_less : T → T → bool)
    (T_min T_max : T) (s : sl_impl T) :
  strict_weak_order m_less → reachable m_less T_min T_max s →
  ∃ c, (∀ L, L ≤ max_levels →
          chain (m_heap s) (m_tail s) L (m_head s) (c L)) ∧
    dump s = Some (seq 0 (S max_levels) ≫= λ L,
                     dump_line_of T_min (c 0) (m_tail s) T_max L (c L)).
Proof.
  intros Hswo Hreach.
  destruct (reachable_repr m_less T_min T_max Hswo s Hreach) as [c Hr].
  pose proof (api_reachable_intact m_less T_min T_max s
                (reachable_api_reachable m_less T_min T_max s Hreach))
    as (_ & _ & _ & Htv & _).
  exists c. split; [by apply (repr_chain _ _ _ _ Hr)|].
  unfold dump. rewrite (repr_levels _ _ _ _ Hr).
  by apply (dump_loop_spec m_less T_min s c T_max).
Qed.

Lemma dump_prints_every_chain_witness :
  ∃ c, (∀ L, L ≤ max_levels →
          chain (m_heap IntEngine.two_fives) (m_tail IntEngine.two_fives) L
            (m_head IntEngine.two_fives) (c L)) ∧
    dump IntEngine.two_fives
      = Some (seq 0 (S max_levels) ≫= λ L,
                dump_line_of IntEngine.int_min (c 0)
                  (m_tail IntEngine.two_fives) IntEngine.int_max L (c L)).
Proof.
  exact (dump_prints_every_chain Z.ltb IntEngine.int_min IntEngine.int_max
           IntEngine.two_fives Z_ltb_strict_weak_order
           int_two_fives_reachable).
Defined.
